(** * Event reconciliation of the Stellar chat demo

    A shallow embedding of the chat component's event pipeline:
    - [truncate]                       (src/utils/base.ts, quoted in docs/frontend.md)
    - [getEvents], [getMessages]       (src/utils/rpc.ts and src/utils/zettablocks.ts,
                                        quoted in docs/event-handling.md)
    - [callGetMessages], [callGetEvents], [onMount], [onDestroy]
                                       (src/components/Welcome.svelte)

    Values are modelled as the code has them: JavaScript strings as [string]
    (a character is one code unit), integer-valued numbers as [Z], a [Date]
    by its time value in milliseconds (valid dates only), [undefined] as
    [None], arrays as lists and, where sharing matters, as references into a
    store of arrays.  A rejected promise or a thrown exception is a [Throw]
    completion. *)

From Stdlib Require Import ZArith String Ascii List Lia Bool Permutation Sorted.
From stdpp Require Import base option list gmap strings.

Local Open Scope string_scope.
Local Open Scope Z_scope.

(** ** JavaScript strings *)

(** The relative index of [String.prototype.slice]: a negative argument
    counts from the end, and the result is clamped to [0, len]. *)
Definition relIndex (len k : Z) : Z :=
  if k <? 0 then Z.max (len + k) 0 else Z.min k len.

(** The half-open range [from, to) of code units selected by
    [s.slice(start, end)]; [e = None] is an omitted [end]. *)
Definition sliceRange (s : string) (start : Z) (e : option Z) : Z * Z :=
  let len := Z.of_nat (String.length s) in
  let from := relIndex len start in
  let to := match e with None => len | Some k => relIndex len k end in
  (from, to).

(** [s.slice(start, end)]. *)
Definition slice (s : string) (start : Z) (e : option Z) : string :=
  let '(from, to) := sliceRange s start e in
  substring (Z.to_nat from) (Z.to_nat (Z.max (to - from) 0)) s.

(** [truncate(str, chars)]:
    [return `${str.slice(0, chars)}...${str.slice(-chars)}`]. *)
Definition truncate (str : string) (chars : Z) : string :=
  slice str 0 (Some chars) ++ "..." ++ slice str (- chars) None.

(** The words of the documentation, for comparison with [truncate]:
    the first [n] characters of [s] (all of [s] when it is shorter). *)
Definition firstChars (n : nat) (s : string) : string := substring 0 n s.

(** The last [n] characters of [s] (all of [s] when it is shorter). *)
Definition lastChars (n : nat) (s : string) : string :=
  substring (String.length s - n) n s.

(** A position of [str] is emitted twice by [truncate str chars] when the
    ranges of its two slices overlap. *)
Definition emitsTwice (str : string) (chars : Z) : bool :=
  let '(f1, t1) := sliceRange str 0 (Some chars) in
  let '(f2, t2) := sliceRange str (- chars) None in
  Z.max f1 f2 <? Z.min t1 t2.

(** ** Completions *)

(** The outcome of evaluating JavaScript code, or of awaiting a promise:
    a value, or a thrown exception (a rejection) carrying its message. *)
Inductive completion (A : Type) : Type :=
| Normal (a : A)
| Throw (e : string).
Arguments Normal {A} a.
Arguments Throw {A} e.

(** ** Data model *)

(** [interface ChatEvent].  [addr] is assigned from a variable declared
    [string | undefined]; [timestamp] is the time value of the [Date]. *)
Record ChatEvent : Type := {
  id : string;
  addr : option string;
  timestamp : Z;
  txHash : string;
  msg : string;
}.

(** The address union [xdr.ScAddress] as the code reads it: the name of its
    discriminator ([switch().name]) and the key or hash bytes of its arm. *)
Record ScAddress : Type := {
  switch_name : string;
  arm : list Byte.byte;
}.

(** [xdr.ScVal], as far as the code looks into it: the address arm, or any
    other arm (its kind and its wire bytes). *)
Inductive ScVal : Type :=
| scvAddress (a : ScAddress)
| scvOther (kind : string) (raw : list Byte.byte).

(** One event of the RPC answer ([Api.EventResponse]). *)
Module Api.
Record EventResponse : Type := {
  type : string;
  contractId : option string;
  id : string;
  topic : list ScVal;
  value : ScVal;
  ledgerClosedAt : string;
  txHash : string;
}.
End Api.

(** The argument [limit: number | string] of [getEvents]. *)
Inductive Limit : Type :=
| LimitNumber (n : Z)
| LimitString (s : string).

Record EventFilter : Type := {
  filter_type : string;
  contractIds : list string;
}.

(** The request object handed to [rpc.getEvents]. *)
Record GetEventsRequest : Type := {
  filters : list EventFilter;
  startLedger : option Z;
  limit : Z;
  cursor : option string;
}.

(** What the code takes from the SDK and from its build environment. *)
Class Host : Type := {
  (** [Address.account(key).toString()] and [Address.contract(hash).toString()] *)
  Address_account : list Byte.byte -> string;
  Address_contract : list Byte.byte -> string;
  (** [scValToNative] *)
  scValToNative : ScVal -> string;
  (** the time value of [new Date(s)] *)
  Date_new : string -> Z;
  (** [import.meta.env.PUBLIC_CHAT_CONTRACT_ID] *)
  PUBLIC_CHAT_CONTRACT_ID : string;
  (** the part of [getMessages] elided as [// Process response...]: the rows
      of a response body as records, throwing on a malformed body *)
  processResponse : string -> completion (list ChatEvent);
}.

(** ** Array helpers *)

Fixpoint findIndexFrom {A : Type} (i : Z) (p : A -> bool) (l : list A) : Z :=
  match l with
  | [] => -1
  | x :: l' => if p x then i else findIndexFrom (i + 1) p l'
  end.

(** [Array.prototype.findIndex]: the first index whose element satisfies
    [p], or [-1]. *)
Definition findIndex {A : Type} (p : A -> bool) (l : list A) : Z :=
  findIndexFrom 0 p l.

Fixpoint sortInsert {A : Type} (cmp : A -> A -> Z) (x : A) (l : list A) : list A :=
  match l with
  | [] => [x]
  | y :: l' => if cmp x y <=? 0 then x :: y :: l' else y :: sortInsert cmp x l'
  end.

(** [Array.prototype.sort(cmp)].  The sort is stable (ECMAScript 2019), so
    for a consistent comparator its result is determined: elements in
    comparator order, equal ones in their order in the input.  Insertion
    from the right computes that arrangement. *)
Fixpoint Array_sort {A : Type} (cmp : A -> A -> Z) (l : list A) : list A :=
  match l with
  | [] => []
  | x :: l' => sortInsert cmp x (Array_sort cmp l')
  end.

(** The comparator of both sorts in Welcome.svelte:
    [(a, b) => a.timestamp.getTime() - b.timestamp.getTime()]. *)
Definition byTimestamp (a b : ChatEvent) : Z := timestamp a - timestamp b.

(** JavaScript truthiness of a [string | undefined]. *)
Definition truthy (s : option string) : bool :=
  match s with
  | None => false
  | Some s => negb (s =? "")%string
  end.

(** ** The live source: [getEvents] *)

Section LiveSource.
Context `{Host}.

(** The request built by [getEvents] from its [limit] argument. *)
Definition getEventsRequest (lim : Limit) : GetEventsRequest :=
  {| filters := [ {| filter_type := "contract";
                     contractIds := [PUBLIC_CHAT_CONTRACT_ID] |} ];
     startLedger := match lim with LimitNumber n => Some n | LimitString _ => None end;
     limit := 10000;
     cursor := match lim with LimitString s => Some s | LimitNumber _ => None end |}.

(** [event.topic[0].address()]: throws when there is no first topic or
    when it is not an address. *)
Definition topic0_address (event : Api.EventResponse) : completion ScAddress :=
  match Api.topic event with
  | scvAddress a :: _ => Normal a
  | scvOther _ _ :: _ => Throw "TypeError"
  | [] => Throw "TypeError"
  end.

(** The [switch (topic0.switch().name)] of [getEvents]: two cases and no
    default, so [addr] stays [undefined] for any other name. *)
Definition decodeAddr (topic0 : ScAddress) : option string :=
  if (switch_name topic0 =? "scAddressTypeAccount")%string
  then Some (Address_account (arm topic0))
  else if (switch_name topic0 =? "scAddressTypeContract")%string
  then Some (Address_contract (arm topic0))
  else None.

(** The object literal pushed by [getEvents]. *)
Definition makeChatEvent (event : Api.EventResponse) (a : option string) : ChatEvent :=
  {| id := Api.id event;
     addr := a;
     timestamp := Date_new (Api.ledgerClosedAt event);
     txHash := Api.txHash event;
     msg := scValToNative (Api.value event) |}.

(** The first statement of the [forEach] callback:
    [if (event.type !== "contract" || !event.contractId) return]. *)
Definition skipped (event : Api.EventResponse) : bool :=
  negb (Api.type event =? "contract")%string || negb (truthy (Api.contractId event)).

(** The test [msgs.findIndex(({id}) => id === event.id) === -1]. *)
Definition unseen (msgs : list ChatEvent) (event : Api.EventResponse) : bool :=
  findIndex (fun m => (id m =? Api.id event)%string) msgs =? -1.

(** One call of the [forEach] callback on the contents of [msgs]. *)
Definition processEvent (msgs : list ChatEvent) (event : Api.EventResponse)
  : completion (list ChatEvent) :=
  if skipped event then Normal msgs
  else if unseen msgs event then
    match topic0_address event with
    | Normal topic0 => Normal (msgs ++ [makeChatEvent event (decodeAddr topic0)])%list
    | Throw e => Throw e
    end
  else Normal msgs.

(** [events.forEach(...)]: the contents of [msgs] when the loop ends, and
    the exception that ended it early, if any. *)
Fixpoint forEachEvent (msgs : list ChatEvent) (events : list Api.EventResponse)
  : list ChatEvent * option string :=
  match events with
  | [] => (msgs, None)
  | event :: rest =>
      match processEvent msgs event with
      | Normal msgs' => forEachEvent msgs' rest
      | Throw e => (msgs, Some e)
      end
  end.

(** [getEvents(msgs, limit, found)] on the contents of [msgs], given how
    the RPC server answers a request.  The [try] covers the query and the
    loop; the [catch] only logs; [return msgs] follows either way. *)
Definition getEvents (msgs : list ChatEvent) (lim : Limit) (found : bool)
    (rpc_getEvents : GetEventsRequest -> completion (list Api.EventResponse))
  : list ChatEvent :=
  match rpc_getEvents (getEventsRequest lim) with
  | Normal events => fst (forEachEvent msgs events)
  | Throw _ => msgs
  end.

(** ** The historical source: [getMessages] *)

(** [getMessages()], given how the [fetch] of the indexer settles: the
    response body, or a rejection.  Anything thrown inside the [try] ends
    in [return []]. *)
Definition getMessages (fetched : completion string) : completion (list ChatEvent) :=
  match fetched with
  | Normal body =>
      match processResponse body with
      | Normal rows => Normal rows
      | Throw _ => Normal []
      end
  | Throw _ => Normal []
  end.

(** ** The two merges of Welcome.svelte, on the contents of [msgs] *)

(** [callGetMessages]: [msgs = await getMessages(); msgs = msgs.sort(...)]. *)
Definition callGetMessages (fetched : completion string) : completion (list ChatEvent) :=
  match getMessages fetched with
  | Normal rows => Normal (Array_sort byTimestamp rows)
  | Throw e => Throw e
  end.

(** [callGetEvents]: [msgs = await getEvents(msgs, limit, found);
    msgs = msgs.sort(...)]. *)
Definition callGetEvents (msgs : list ChatEvent) (lim : Limit) (found : bool)
    (rpc_getEvents : GetEventsRequest -> completion (list Api.EventResponse))
  : list ChatEvent :=
  Array_sort byTimestamp (getEvents msgs lim found rpc_getEvents).

(** The record an event yields on its own: none when the callback returns
    early or throws. *)
Definition decodeEvent (event : Api.EventResponse) : option ChatEvent :=
  if skipped event then None
  else match topic0_address event with
       | Normal topic0 => Some (makeChatEvent event (decodeAddr topic0))
       | Throw _ => None
       end.

(** The argument of both calls [callGetEvents(sequence - 17_280)]. *)
Definition lookBack (sequence : Z) : Limit := LimitNumber (sequence - 17280).

End LiveSource.

(** ** The same code on a store of arrays

    An array is an object: [msgs.push] and [msgs.sort] change the object that
    every holder of the reference sees.  [St] threads the store of arrays
    and an exception through the code. *)

Definition St (A : Type) : Type :=
  gmap nat (list ChatEvent) -> completion A * gmap nat (list ChatEvent).

#[global] Instance St_ret : MRet St := fun A a s => (Normal a, s).

#[global] Instance St_bind : MBind St := fun A B f m s =>
  match m s with
  | (Normal a, s') => f a s'
  | (Throw e, s') => (Throw e, s')
  end.

(** A completion computed without touching the store. *)
Definition lift {A : Type} (c : completion A) : St A := fun s => (c, s).

(** [try { body } catch (e) { handler }]. *)
Definition try_catch {A : Type} (body : St A) (handler : string -> St A) : St A :=
  fun s => match body s with
           | (Normal a, s') => (Normal a, s')
           | (Throw e, s') => handler e s'
           end.

Module Store.

(** The elements of the array at [r]. *)
Definition read (r : nat) : St (list ChatEvent) :=
  fun s => (Normal (default [] (s !! r)), s).

(** [r.push(m)]: appends to the array at [r], in place. *)
Definition push (r : nat) (m : ChatEvent) : St unit :=
  fun s => (Normal tt, alter (fun l => l ++ [m])%list r s).

(** [r.sort(cmp)]: sorts the array at [r] in place and returns [r]. *)
Definition sort (r : nat) (cmp : ChatEvent -> ChatEvent -> Z) : St nat :=
  fun s => (Normal r, alter (Array_sort cmp) r s).

(** An array literal or a freshly built array: a new object. *)
Definition alloc (l : list ChatEvent) : St nat :=
  fun s => let r := fresh (dom s) in (Normal r, <[r := l]> s).

Section Code.
Context `{Host}.

(** The [forEach] callback of [getEvents]; [msgs] is the reference the
    caller passed in. *)
Definition callback (msgs : nat) (event : Api.EventResponse) : St unit :=
  if skipped event then mret tt
  else
    elems ← read msgs;
    if findIndex (fun m => (id m =? Api.id event)%string) elems =? -1 then
      topic0 ← lift (topic0_address event);
      push msgs (makeChatEvent event (decodeAddr topic0))
    else mret tt.

Fixpoint forEach (events : list Api.EventResponse)
    (f : Api.EventResponse -> St unit) : St unit :=
  match events with
  | [] => mret tt
  | event :: rest => f event ;; forEach rest f
  end.

Definition getEvents (msgs : nat) (lim : Limit) (found : bool)
    (rpc_getEvents : GetEventsRequest -> completion (list Api.EventResponse))
  : St nat :=
  try_catch
    (events ← lift (rpc_getEvents (getEventsRequest lim));
     forEach events (callback msgs))
    (fun _ => mret tt) ;;
  mret msgs.

Definition getMessages (fetched : completion string) : St nat :=
  try_catch
    (body ← lift fetched;
     rows ← lift (processResponse body);
     alloc rows)
    (fun _ => alloc []).

(** Both return the reference held by the variable [msgs] afterwards. *)
Definition callGetMessages (fetched : completion string) : St nat :=
  msgs ← getMessages fetched;
  sort msgs byTimestamp.

Definition callGetEvents (msgs : nat) (lim : Limit) (found : bool)
    (rpc_getEvents : GetEventsRequest -> completion (list Api.EventResponse))
  : St nat :=
  msgs' ← getEvents msgs lim found rpc_getEvents;
  sort msgs' byTimestamp.

End Code.
End Store.

(** ** The component's lifecycle: [onMount], the interval and [onDestroy]

    The component runs on one event loop.  Between two [await]s its code runs
    to the next [await] without interruption, so a state of the model records
    where each started piece of code is waiting, and an input is what the
    event loop delivers next: a lifecycle call, a settled promise or a timer
    firing.  Every live merge works on the array that [msgs] refers to when
    the answer arrives, so the state holds the elements of that array. *)

(** Where [onMount] is. *)
Inductive MountPhase : Type :=
| NotMounted
| AwaitMessages                 (** in [await callGetMessages()] *)
| AwaitLatestLedger             (** in [await rpc.getLatestLedger()] *)
| AwaitEvents (lim : Limit)     (** in [await callGetEvents(sequence - 17_280)] *)
| MountReturned.

(** Where a started interval callback is. *)
Inductive TickPhase : Type :=
| TickAwaitLatestLedger
| TickAwaitEvents (lim : Limit).

Inductive Input : Type :=
| Mount
| Destroy
| MessagesSettled (fetched : completion string)
    (** the indexer's [fetch] settles *)
| LatestLedgerSettled (tick : option nat) (r : completion Z)
    (** [rpc.getLatestLedger()] settles, for [onMount] ([None]) or for the
        started callback number [k] ([Some k]) *)
| EventsSettled (tick : option nat)
    (rpc_getEvents : GetEventsRequest -> completion (list Api.EventResponse))
    (** [rpc.getEvents(request)] settles, likewise *)
| TimerFired (handle : nat).
    (** the host runs the callback of an active interval *)

Module Welcome.
Record t : Type := {
  interval : option nat;      (** [let interval], [undefined] at first *)
  msgs : list ChatEvent;      (** the elements of [msgs] *)
  loading : bool;
  error : option string;      (** [error] as [onMount] wrote it; [send] writes
                                  the variable too and is not an input here *)
  mount : MountPhase;
  ticks : list TickPhase;     (** the callbacks started and not yet returned *)
  timers : list nat;          (** the host's active intervals *)
  handles : nat;              (** how many handles the host has given out *)
  destroyed : bool;
}.
End Welcome.

Definition initial : Welcome.t :=
  {| Welcome.interval := None; Welcome.msgs := []; Welcome.loading := true;
     Welcome.error := None; Welcome.mount := NotMounted; Welcome.ticks := [];
     Welcome.timers := []; Welcome.handles := 0%nat; Welcome.destroyed := false |}.

Definition with_mount (p : MountPhase) (w : Welcome.t) : Welcome.t :=
  {| Welcome.interval := Welcome.interval w; Welcome.msgs := Welcome.msgs w;
     Welcome.loading := Welcome.loading w; Welcome.error := Welcome.error w;
     Welcome.mount := p; Welcome.ticks := Welcome.ticks w;
     Welcome.timers := Welcome.timers w; Welcome.handles := Welcome.handles w;
     Welcome.destroyed := Welcome.destroyed w |}.

Definition with_msgs (l : list ChatEvent) (w : Welcome.t) : Welcome.t :=
  {| Welcome.interval := Welcome.interval w; Welcome.msgs := l;
     Welcome.loading := Welcome.loading w; Welcome.error := Welcome.error w;
     Welcome.mount := Welcome.mount w; Welcome.ticks := Welcome.ticks w;
     Welcome.timers := Welcome.timers w; Welcome.handles := Welcome.handles w;
     Welcome.destroyed := Welcome.destroyed w |}.

Definition with_ticks (l : list TickPhase) (w : Welcome.t) : Welcome.t :=
  {| Welcome.interval := Welcome.interval w; Welcome.msgs := Welcome.msgs w;
     Welcome.loading := Welcome.loading w; Welcome.error := Welcome.error w;
     Welcome.mount := Welcome.mount w; Welcome.ticks := l;
     Welcome.timers := Welcome.timers w; Welcome.handles := Welcome.handles w;
     Welcome.destroyed := Welcome.destroyed w |}.

(** [loading = x], and [error = e] when [e] is given. *)
Definition with_status (x : bool) (e : option string) (w : Welcome.t) : Welcome.t :=
  {| Welcome.interval := Welcome.interval w; Welcome.msgs := Welcome.msgs w;
     Welcome.loading := x;
     Welcome.error := match e with Some _ => e | None => Welcome.error w end;
     Welcome.mount := Welcome.mount w; Welcome.ticks := Welcome.ticks w;
     Welcome.timers := Welcome.timers w; Welcome.handles := Welcome.handles w;
     Welcome.destroyed := Welcome.destroyed w |}.

(** [interval = setInterval(callback, 12_000)]: the host hands out a new
    handle, a positive number, and keeps the interval active. *)
Definition setInterval (w : Welcome.t) : Welcome.t :=
  let handle := S (Welcome.handles w) in
  {| Welcome.interval := Some handle; Welcome.msgs := Welcome.msgs w;
     Welcome.loading := Welcome.loading w; Welcome.error := Welcome.error w;
     Welcome.mount := Welcome.mount w; Welcome.ticks := Welcome.ticks w;
     Welcome.timers := handle :: Welcome.timers w; Welcome.handles := handle;
     Welcome.destroyed := Welcome.destroyed w |}.

(** [clearInterval(handle)]. *)
Definition clearInterval (handle : nat) (w : Welcome.t) : Welcome.t :=
  {| Welcome.interval := Welcome.interval w; Welcome.msgs := Welcome.msgs w;
     Welcome.loading := Welcome.loading w; Welcome.error := Welcome.error w;
     Welcome.mount := Welcome.mount w; Welcome.ticks := Welcome.ticks w;
     Welcome.timers := List.filter (fun h => negb (h =? handle)%nat) (Welcome.timers w);
     Welcome.handles := Welcome.handles w;
     Welcome.destroyed := Welcome.destroyed w |}.

(** [onDestroy(() => { if (interval) clearInterval(interval); })]; a
    component is destroyed once. *)
Definition onDestroy (w : Welcome.t) : Welcome.t :=
  let w' :=
    match Welcome.interval w with
    | Some handle => if (handle =? 0)%nat then w else clearInterval handle w
    | None => w
    end in
  {| Welcome.interval := Welcome.interval w'; Welcome.msgs := Welcome.msgs w';
     Welcome.loading := Welcome.loading w'; Welcome.error := Welcome.error w';
     Welcome.mount := Welcome.mount w'; Welcome.ticks := Welcome.ticks w';
     Welcome.timers := Welcome.timers w'; Welcome.handles := Welcome.handles w';
     Welcome.destroyed := true |}.

Section Lifecycle.
Context `{Host}.

(** The code of [onMount] between two [await]s, and its [catch] and
    [finally]. *)
Definition onMount_step (w : Welcome.t) (i : Input) : option Welcome.t :=
  match Welcome.mount w, i with
  | NotMounted, Mount =>
      Some (with_mount AwaitMessages (with_status true None w))
  | AwaitMessages, MessagesSettled fetched =>
      match callGetMessages fetched with
      | Normal l => Some (with_mount AwaitLatestLedger (with_msgs l w))
      | Throw _ =>
          Some (with_mount MountReturned
                  (with_status false
                     (Some "Failed to load messages. Please try again later.") w))
      end
  | AwaitLatestLedger, LatestLedgerSettled None (Normal sequence) =>
      Some (with_mount (AwaitEvents (lookBack sequence)) w)
  | AwaitLatestLedger, LatestLedgerSettled None (Throw _) =>
      Some (with_mount MountReturned
              (with_status false
                 (Some "Failed to load messages. Please try again later.") w))
  | AwaitEvents lim, EventsSettled None rpc_getEvents =>
      Some (with_mount MountReturned
              (with_status false None
                 (setInterval
                    (with_msgs (callGetEvents (Welcome.msgs w) lim false rpc_getEvents) w))))
  | _, _ => None
  end.

(** The interval callback between two [await]s; its [catch] only logs. *)
Definition tick_step (w : Welcome.t) (k : nat) (i : Input) : option Welcome.t :=
  match Welcome.ticks w !! k, i with
  | Some TickAwaitLatestLedger, LatestLedgerSettled _ (Normal sequence) =>
      Some (with_ticks (<[k := TickAwaitEvents (lookBack sequence)]> (Welcome.ticks w)) w)
  | Some TickAwaitLatestLedger, LatestLedgerSettled _ (Throw _) =>
      Some (with_ticks (delete k (Welcome.ticks w)) w)
  | Some (TickAwaitEvents lim), EventsSettled _ rpc_getEvents =>
      Some (with_ticks (delete k (Welcome.ticks w))
              (with_msgs (callGetEvents (Welcome.msgs w) lim false rpc_getEvents) w))
  | _, _ => None
  end.

(** One turn of the event loop; [None] when the input cannot occur in [w]. *)
Definition step (w : Welcome.t) (i : Input) : option Welcome.t :=
  match i with
  | Mount => onMount_step w i
  | MessagesSettled _ => onMount_step w i
  | LatestLedgerSettled None _ => onMount_step w i
  | EventsSettled None _ => onMount_step w i
  | LatestLedgerSettled (Some k) _ => tick_step w k i
  | EventsSettled (Some k) _ => tick_step w k i
  | TimerFired handle =>
      if existsb (fun h => (h =? handle)%nat) (Welcome.timers w)
      then Some (with_ticks (Welcome.ticks w ++ [TickAwaitLatestLedger])%list w)
      else None
  | Destroy =>
      match Welcome.mount w, Welcome.destroyed w with
      | NotMounted, _ => None
      | _, true => None
      | _, false => Some (onDestroy w)
      end
  end.

Fixpoint run (w : Welcome.t) (inputs : list Input) : option Welcome.t :=
  match inputs with
  | [] => Some w
  | i :: rest =>
      match step w i with
      | Some w' => run w' rest
      | None => None
      end
  end.

End Lifecycle.

(** The scheduler of the specification, read off a component state: idle
    until the session starts ([onMount] is called), running from then on,
    stopped once the component has been torn down. *)
Inductive SchedulerState : Type := Idle | Running | Stopped.

Definition scheduler (w : Welcome.t) : SchedulerState :=
  if Welcome.destroyed w then Stopped
  else match Welcome.mount w with
       | NotMounted => Idle
       | _ => Running
       end.

Definition isTimerFired (i : Input) : bool :=
  match i with
  | TimerFired _ => true
  | _ => false
  end.

(** The ids of a list of records, in order. *)
Definition ids (l : list ChatEvent) : list string := map id l.

(** Ascending by timestamp. *)
Definition chronological (l : list ChatEvent) : Prop :=
  StronglySorted (fun a b => timestamp a <= timestamp b) l.

(** The records of [l] with timestamp [t], in their order in [l]. *)
Definition at_time (t : Z) (l : list ChatEvent) : list ChatEvent :=
  List.filter (fun m => timestamp m =? t) l.

(** What holds of every state the component can be in: an active interval
    is the one whose handle [interval] holds; a handle is held only once
    [onMount] has returned, and it is not zero; the list is in order. *)
Definition consistent (w : Welcome.t) : Prop :=
  (forall h, h ∈ Welcome.timers w -> Welcome.interval w = Some h)
  /\ (forall h, Welcome.interval w = Some h ->
        h <> 0%nat /\ Welcome.mount w = MountReturned)
  /\ chronological (Welcome.msgs w).

(** No interval is active and [onMount] has returned. *)
Definition quiet (w : Welcome.t) : Prop :=
  Welcome.timers w = [] /\ Welcome.mount w = MountReturned.

(** ** A stand-in host and sample data for the examples *)

(** Reads a string of decimal digits as a number. *)
Fixpoint digits (acc : Z) (s : string) : Z :=
  match s with
  | EmptyString => acc
  | String c s' => digits (10 * acc + (Z.of_nat (nat_of_ascii c) - 48)) s'
  end.

Definition sampleRecord (i : string) (t : Z) (text : string) : ChatEvent :=
  {| id := i; addr := Some "GABC"; timestamp := t; txHash := "tx" ++ i; msg := text |}.

(** The scenario of the specification: the list holds ids 1, 2 and 3, and
    the live fetch returns ids 3 and 4 ([live34], [events34] below). *)
Definition historical123 : list ChatEvent :=
  [sampleRecord "1" 10 "a"; sampleRecord "2" 20 "b"; sampleRecord "3" 30 "c"].

(** A host for the examples: addresses are printed as a letter and the raw
    bytes, a payload as its bytes, a date is given by its time value in
    digits; an empty response body is malformed and any other body holds the
    rows of [historical123]. *)
Definition demoHost : Host :=
  {| Address_account := fun key => "G" ++ string_of_list_byte key;
     Address_contract := fun hash => "C" ++ string_of_list_byte hash;
     scValToNative := fun v =>
       match v with
       | scvOther _ raw => string_of_list_byte raw
       | scvAddress a => switch_name a
       end;
     Date_new := digits 0;
     PUBLIC_CHAT_CONTRACT_ID := "CBUMOJAEAPLQUCWVIM6HJH5XKXW5OP7CRVOOYMJYSTZ6GFDNA72O2QW6";
     processResponse := fun body =>
       if (body =? "")%string then Throw "SyntaxError" else Normal historical123 |}.

(** A contract event whose first topic is an address with the given
    discriminator. *)
Definition sampleEvent (i kind closedAt text : string) : Api.EventResponse :=
  {| Api.type := "contract";
     Api.contractId := Some "CBUMOJAEAPLQUCWVIM6HJH5XKXW5OP7CRVOOYMJYSTZ6GFDNA72O2QW6";
     Api.id := i;
     Api.topic := [scvAddress {| switch_name := kind; arm := list_byte_of_string "ABC" |}];
     Api.value := scvOther "scvString" (list_byte_of_string text);
     Api.ledgerClosedAt := closedAt;
     Api.txHash := "tx" ++ i |}.

Definition live34 : list ChatEvent :=
  [sampleRecord "3" 30 "c"; sampleRecord "4" 40 "d"].

Definition events34 : list Api.EventResponse :=
  [sampleEvent "3" "scAddressTypeAccount" "30" "c";
   sampleEvent "4" "scAddressTypeAccount" "40" "d"].

(** A list in which one id occurs twice. *)
Definition twice1 : list ChatEvent :=
  [sampleRecord "1" 10 "a"; sampleRecord "1" 10 "a"].

(** An event whose address is of a third kind. *)
Definition muxedEvent : Api.EventResponse :=
  sampleEvent "7" "scAddressTypeMuxedAccount" "70" "hello".

(** An event that closed before the records of [historical123]. *)
Definition earlyEvent : Api.EventResponse :=
  sampleEvent "0" "scAddressTypeContract" "5" "first".

(** An RPC server that answers every request with the same events. *)
Definition answering (events : list Api.EventResponse)
  : GetEventsRequest -> completion (list Api.EventResponse) :=
  fun _ => Normal events.

(** An RPC server that holds [events] for the request without a cursor that
    starts at ledger [start], and nothing for any other request. *)
Definition windowServer (start : Z) (events : list Api.EventResponse)
  : GetEventsRequest -> completion (list Api.EventResponse) :=
  fun request =>
    match cursor request, startLedger request with
    | None, Some n => if n =? start then Normal events else Normal []
    | _, _ => Normal []
    end.

(** An RPC server that holds [events] for requests that carry a cursor, and
    nothing for the others. *)
Definition cursorServer (events : list Api.EventResponse)
  : GetEventsRequest -> completion (list Api.EventResponse) :=
  fun request =>
    match cursor request with
    | Some _ => Normal events
    | None => Normal []
    end.

(** An RPC server that cannot be reached. *)
Definition unavailable : GetEventsRequest -> completion (list Api.EventResponse) :=
  fun _ => Throw "RpcUnavailable".

(** The state after the given inputs, from the start, with the stand-in
    host. *)
Definition stateAfter (inputs : list Input) : Welcome.t :=
  default initial (@run demoHost initial inputs).

(** A session start that succeeds: the seed, then the first live fetch. *)
Definition startInputs : list Input :=
  [Mount; MessagesSettled (Normal "rows"); LatestLedgerSettled None (Normal 600000);
   EventsSettled None (answering events34)].

(** The records [B] arrive as the events [events]: each event yields, on its
    own, the record at its position. *)
Definition arrives `{Host} (events : list Api.EventResponse) (B : list ChatEvent) : Prop :=
  Forall2 (fun event b => decodeEvent event = Some b) events B.

(** ** Further code of the component and of the live source *)

(** The sender shown for a record, [{truncate(event.addr, 4)}] in the
    template: [truncate] calls [str.slice], which throws on [undefined]. *)
Definition senderLabel (event : ChatEvent) : completion string :=
  match addr event with
  | Some a => Normal (truncate a 4)
  | None => Throw "TypeError"
  end.

(** The events whose callback cannot throw: those it returns early on, and
    those whose first topic is an address. *)
Definition harmless `{Host} (event : Api.EventResponse) : bool :=
  skipped event
  || match topic0_address event with Normal _ => true | Throw _ => false end.

(** The records of [l] are among those of [l']. *)
Definition keptIn (l l' : list ChatEvent) : Prop := forall m, m ∈ l -> m ∈ l'.

(** More of what holds of every state the component can be in: at most one
    interval is active; no callback has started while [onMount] has not
    returned; and [loading] is on exactly until [onMount] returns.  Nothing
    is said of [error]: [send] writes that variable as well. *)
Definition orderly (w : Welcome.t) : Prop :=
  consistent w
  /\ (length (Welcome.timers w) <= 1)%nat
  /\ (Welcome.mount w <> MountReturned -> Welcome.ticks w = [])
  /\ (Welcome.loading w = false <-> Welcome.mount w = MountReturned).

(** [onMount] has returned without an interval, and nothing is in flight. *)
Definition dormant (w : Welcome.t) : Prop :=
  Welcome.timers w = [] /\ Welcome.mount w = MountReturned /\ Welcome.ticks w = []
  /\ Welcome.interval w = None.

(** The list has been seeded: [callGetMessages] has assigned it. *)
Definition seeded (w : Welcome.t) : Prop :=
  Welcome.mount w <> NotMounted /\ Welcome.mount w <> AwaitMessages.

(** ** Sending a message: [send] of Welcome.svelte *)

(** The white space and line terminators of ECMAScript among the code units
    a [string] holds (up to 255): tab, line feed, vertical tab, form feed,
    carriage return, space and no-break space. *)
Definition isWhiteSpace (c : ascii) : bool :=
  let n := nat_of_ascii c in
  ((n =? 9) || (n =? 10) || (n =? 11) || (n =? 12) || (n =? 13)
   || (n =? 32) || (n =? 160))%nat.

Fixpoint trimStart (s : string) : string :=
  match s with
  | EmptyString => EmptyString
  | String c s' => if isWhiteSpace c then trimStart s' else s
  end.

Fixpoint trimEnd (s : string) : string :=
  match s with
  | EmptyString => EmptyString
  | String c s' =>
      match trimEnd s' with
      | EmptyString => if isWhiteSpace c then EmptyString else String c EmptyString
      | t => String c t
      end
  end.

(** [String.prototype.trim]. *)
Definition trim (s : string) : string := trimEnd (trimStart s).

(** A text of white space only (or empty). *)
Definition blank (s : string) : bool :=
  forallb isWhiteSpace (list_ascii_of_string s).

Module Composer.
(** The variables [send] reads and writes. *)
Record t : Type := {
  msg : string;
  sending : bool;
  error : option string;
}.
End Composer.

(** The three services [send] awaits, for transactions of type [Tx]:
    [chat.send({addr, msg})], [account.sign(at, {keyId})] and
    [server.send(at)]. *)
Record Services (Tx : Type) : Type := {
  chat_send : string -> string -> completion Tx;
  account_sign : Tx -> string -> completion Tx;
  server_send : Tx -> completion unit;
}.
Arguments chat_send {Tx} _ _ _.
Arguments account_sign {Tx} _ _ _.
Arguments server_send {Tx} _ _.

(** The calls [send] has made. *)
Inductive Call (Tx : Type) : Type :=
| Assemble (addr text : string)
| Sign (tx : Tx) (key : string)
| Submit (tx : Tx).
Arguments Assemble {Tx} addr text.
Arguments Sign {Tx} tx key.
Arguments Submit {Tx} tx.

(** The [catch] and [finally] of [send]. *)
Definition sendFailed (c : Composer.t) : Composer.t :=
  {| Composer.msg := Composer.msg c; Composer.sending := false;
     Composer.error := Some "Failed to send message. Please try again." |}.

(** [send()], run to its end with the stores holding [contractId] and
    [keyId] throughout: the variables afterwards and the calls made, in
    order. *)
Definition send {Tx : Type} (services : Services Tx) (contractId keyId : option string)
    (c : Composer.t) : Composer.t * list (Call Tx) :=
  if negb (truthy contractId) || negb (truthy keyId)
     || negb (truthy (Some (trim (Composer.msg c))))
  then (c, [])
  else
    let addr := default "" contractId in
    let key := default "" keyId in
    let text := Composer.msg c in
    match chat_send services addr text with
    | Throw _ => (sendFailed c, [Assemble addr text])
    | Normal assembled =>
        match account_sign services assembled key with
        | Throw _ => (sendFailed c, [Assemble addr text; Sign assembled key])
        | Normal signed =>
            match server_send services signed with
            | Throw _ =>
                (sendFailed c, [Assemble addr text; Sign assembled key; Submit signed])
            | Normal _ =>
                ({| Composer.msg := ""; Composer.sending := false;
                    Composer.error := None |},
                 [Assemble addr text; Sign assembled key; Submit signed])
            end
        end
    end.

(** ** The persisted stores: src/store/contractId.ts and src/store/keyId.ts *)

(** The values a store of [string | undefined] is given in the code. *)
Inductive JsVal : Type :=
| undefined
| null
| str (s : string).

#[global] Instance JsVal_eq_dec : EqDecision JsVal.
Proof. solve_decision. Defined.

Definition truthyVal (v : JsVal) : bool :=
  match v with
  | str s => negb (s =? "")%string
  | _ => false
  end.

(** [localStorage.getItem(key)]. *)
Definition getItem (storage : gmap string string) (key : string) : JsVal :=
  match storage !! key with
  | Some s => str s
  | None => null
  end.

(** What differs between the two store modules. *)
Record StoreModule : Type := {
  STORAGE_KEY : string;
  defaultValue : JsVal;
}.

Definition keyIdModule : StoreModule :=
  {| STORAGE_KEY := "chat_key_id"; defaultValue := undefined |}.

Definition contractIdModule `{Host} : StoreModule :=
  {| STORAGE_KEY := "chat_contract_id"; defaultValue := str PUBLIC_CHAT_CONTRACT_ID |}.

(** The subscriber of both modules:
    [if (browser && value) setItem(KEY, value)
     else if (browser && !value) removeItem(KEY)]. *)
Definition persist (browser : bool) (key : string) (value : JsVal)
    (storage : gmap string string) : gmap string string :=
  if browser && truthyVal value
  then <[key := match value with str s => s | _ => "" end]> storage
  else if browser && negb (truthyVal value) then delete key storage
  else storage.

Module Persisted.
(** A store and the [localStorage] its subscriber writes to. *)
Record t : Type := {
  value : JsVal;
  localStorage : gmap string string;
}.
End Persisted.

(** Evaluating the module: [stored = browser && localStorage.getItem(KEY)],
    [writable(stored || default)], and [subscribe], which calls the
    subscriber at once with the initial value. *)
Definition storeLoad (m : StoreModule) (browser : bool)
    (storage : gmap string string) : Persisted.t :=
  let stored := if browser then getItem storage (STORAGE_KEY m) else undefined in
  let initial := if truthyVal stored then stored else defaultValue m in
  {| Persisted.value := initial;
     Persisted.localStorage := persist browser (STORAGE_KEY m) initial storage |}.

(** [store.set(v)]: a writable store keeps the value and calls its
    subscribers when the value differs from the one it holds. *)
Definition storeSet (m : StoreModule) (browser : bool) (v : JsVal)
    (p : Persisted.t) : Persisted.t :=
  if decide (Persisted.value p = v) then p
  else {| Persisted.value := v;
          Persisted.localStorage :=
            persist browser (STORAGE_KEY m) v (Persisted.localStorage p) |}.

(** ** The header component: [login], [signUp], [logout], [onMount] *)

(** [key.includes(part)]. *)
Definition includes (key part : string) : bool :=
  match String.index 0 part key with
  | Some _ => true
  | None => false
  end.

(** [Object.keys(storage).forEach((key) => { if (key.includes("ssd:"))
    storage.removeItem(key); })]. *)
Definition removeSsdKeys (storage : gmap string string) : gmap string string :=
  foldl (fun st key => if includes key "ssd:" then delete key st else st)
        storage (map fst (map_to_list storage)).

Module Header.
Record t : Type := {
  keyId : JsVal;                         (** the store [keyId] *)
  contractId : JsVal;                    (** the store [contractId] *)
  localStorage : gmap string string;
  sessionStorage : gmap string string;
  creating : bool;
  loading : bool;
  error : option string;
  connecting : list string;   (** [connectWallet({keyId})] calls of the
                                  subscriber that have not settled *)
  reloading : bool;           (** [location.reload()] was called *)
}.
End Header.

Definition header_with_status (cr ld : bool) (e : option string) (h : Header.t) : Header.t :=
  {| Header.keyId := Header.keyId h; Header.contractId := Header.contractId h;
     Header.localStorage := Header.localStorage h;
     Header.sessionStorage := Header.sessionStorage h;
     Header.creating := cr; Header.loading := ld; Header.error := e;
     Header.connecting := Header.connecting h; Header.reloading := Header.reloading h |}.

(** The start of the component's subscriber [keyId.subscribe(async (value)
    => { if (value) { try { loading = true; await
    account.connectWallet({keyId: value}) ...]: up to its [await]. *)
Definition subscriberStarts (v : JsVal) (h : Header.t) : Header.t :=
  match v with
  | str s =>
      if truthyVal v then
        {| Header.keyId := Header.keyId h; Header.contractId := Header.contractId h;
           Header.localStorage := Header.localStorage h;
           Header.sessionStorage := Header.sessionStorage h;
           Header.creating := Header.creating h; Header.loading := true;
           Header.error := Header.error h;
           Header.connecting := (Header.connecting h ++ [s])%list;
           Header.reloading := Header.reloading h |}
      else h
  | _ => h
  end.

(** [keyId.set(v)] in the browser: the subscriber of the store module, then
    the component's. *)
Definition keyId_set (v : JsVal) (h : Header.t) : Header.t :=
  if decide (Header.keyId h = v) then h
  else
    subscriberStarts v
      {| Header.keyId := v; Header.contractId := Header.contractId h;
         Header.localStorage :=
           persist true (STORAGE_KEY keyIdModule) v (Header.localStorage h);
         Header.sessionStorage := Header.sessionStorage h;
         Header.creating := Header.creating h; Header.loading := Header.loading h;
         Header.error := Header.error h;
         Header.connecting := Header.connecting h;
         Header.reloading := Header.reloading h |}.

(** [contractId.set(v)] in the browser. *)
Definition contractId_set `{Host} (v : JsVal) (h : Header.t) : Header.t :=
  if decide (Header.contractId h = v) then h
  else
    {| Header.keyId := Header.keyId h; Header.contractId := v;
       Header.localStorage :=
         persist true (STORAGE_KEY contractIdModule) v (Header.localStorage h);
       Header.sessionStorage := Header.sessionStorage h;
       Header.creating := Header.creating h; Header.loading := Header.loading h;
       Header.error := Header.error h;
       Header.connecting := Header.connecting h;
       Header.reloading := Header.reloading h |}.

(** [localStorage.setItem(key, value)]. *)
Definition header_setItem (key value : string) (h : Header.t) : Header.t :=
  {| Header.keyId := Header.keyId h; Header.contractId := Header.contractId h;
     Header.localStorage := <[key := value]> (Header.localStorage h);
     Header.sessionStorage := Header.sessionStorage h;
     Header.creating := Header.creating h; Header.loading := Header.loading h;
     Header.error := Header.error h;
     Header.connecting := Header.connecting h;
     Header.reloading := Header.reloading h |}.

Section HeaderCode.
Context `{Host}.

(** A page load in the browser with the given storages: the two store
    modules are evaluated, then the component's script, whose
    [keyId.subscribe] calls the subscriber at once. *)
Definition pageLoad (ls ss : gmap string string) : Header.t :=
  let k := storeLoad keyIdModule true ls in
  let c := storeLoad contractIdModule true (Persisted.localStorage k) in
  subscriberStarts (Persisted.value k)
    {| Header.keyId := Persisted.value k;
       Header.contractId := Persisted.value c;
       Header.localStorage := Persisted.localStorage c;
       Header.sessionStorage := ss;
       Header.creating := false; Header.loading := false; Header.error := None;
       Header.connecting := []; Header.reloading := false |}.

(** [onMount]: [if (localStorage.hasOwnProperty("ssd:keyId"))
    keyId.set(localStorage.getItem("ssd:keyId")!)]. *)
Definition header_onMount (h : Header.t) : Header.t :=
  match Header.localStorage h !! "ssd:keyId" with
  | Some k => keyId_set (str k) h
  | None => h
  end.

(** [login()], given how [account.connectWallet()] settles, with the key id
    and the contract id it yields. *)
Definition login (connected : completion (string * string)) (h : Header.t) : Header.t :=
  let h1 := header_with_status (Header.creating h) true None h in
  match connected with
  | Normal (keyIdBase64, cid) =>
      let h2 := contractId_set (str cid)
                  (header_setItem "ssd:keyId" keyIdBase64
                     (keyId_set (str keyIdBase64) h1)) in
      header_with_status (Header.creating h2) false (Header.error h2) h2
  | Throw _ =>
      header_with_status (Header.creating h1) false (Some "Failed to login") h1
  end.

(** [signUp()], given how [account.createWallet(...)] settles and how
    [server.send] answers the signed transaction. *)
Definition signUp {Tx : Type} (created : completion (string * string * Tx))
    (server_send : Tx -> completion unit) (h : Header.t) : Header.t :=
  let h1 := header_with_status true (Header.loading h) None h in
  match created with
  | Normal (keyIdBase64, cid, signedTx) =>
      match server_send signedTx with
      | Normal _ =>
          let h2 := contractId_set (str cid)
                      (header_setItem "ssd:keyId" keyIdBase64
                         (keyId_set (str keyIdBase64) h1)) in
          header_with_status false (Header.loading h2) (Header.error h2) h2
      | Throw _ =>
          header_with_status false (Header.loading h1) (Some "Failed to create account") h1
      end
  | Throw _ =>
      header_with_status false (Header.loading h1) (Some "Failed to create account") h1
  end.

(** The rest of the component's subscriber, when its [connectWallet]
    settles. *)
Definition walletConnected (connected : completion string) (h : Header.t) : Header.t :=
  match Header.connecting h with
  | [] => h
  | _ :: rest =>
      let h1 :=
        {| Header.keyId := Header.keyId h; Header.contractId := Header.contractId h;
           Header.localStorage := Header.localStorage h;
           Header.sessionStorage := Header.sessionStorage h;
           Header.creating := Header.creating h; Header.loading := Header.loading h;
           Header.error := Header.error h;
           Header.connecting := rest; Header.reloading := Header.reloading h |} in
      match connected with
      | Normal cid =>
          let h2 := contractId_set (str cid) h1 in
          header_with_status (Header.creating h2) false (Header.error h2) h2
      | Throw _ =>
          header_with_status (Header.creating h1) false
            (Some "Failed to connect wallet") h1
      end
  end.

(** [logout()]. *)
Definition logout (h : Header.t) : Header.t :=
  let h1 := contractId_set null (keyId_set null h) in
  {| Header.keyId := Header.keyId h1; Header.contractId := Header.contractId h1;
     Header.localStorage := removeSsdKeys (Header.localStorage h1);
     Header.sessionStorage := removeSsdKeys (Header.sessionStorage h1);
     Header.creating := Header.creating h1; Header.loading := Header.loading h1;
     Header.error := Header.error h1;
     Header.connecting := Header.connecting h1;
     Header.reloading := true |}.

End HeaderCode.

(** Pending [connectWallet] calls of the subscriber settle one after the
    other, as [settled] says. *)
Definition walletsConnected `{Host} (settled : list (completion string))
    (h : Header.t) : Header.t :=
  fold_left (fun x connected => walletConnected connected x) settled h.

(** What the subscriber leaves under the storage key for a value: the
    string when it is a non-empty string, nothing otherwise. *)
Definition storedFor (v : JsVal) : option string :=
  match v with
  | str s => if truthyVal v then Some s else None
  | _ => None
  end.

(** A store value as [send] of Welcome.svelte reads it. *)
Definition asOption (v : JsVal) : option string :=
  match v with
  | str s => Some s
  | _ => None
  end.

(** The store after a series of [set] calls. *)
Definition applySets (m : StoreModule) (browser : bool) (values : list JsVal)
    (p : Persisted.t) : Persisted.t :=
  foldl (fun p v => storeSet m browser v p) p values.

(** What can happen to the header on one page. *)
Inductive HeaderAction (Tx : Type) : Type :=
| DoOnMount
| DoLogin (connected : completion (string * string))
| DoSignUp (created : completion (string * string * Tx))
           (server_send : Tx -> completion unit)
| DoWalletConnected (connected : completion string)
| DoLogout.
Arguments DoOnMount {Tx}.
Arguments DoLogin {Tx} connected.
Arguments DoSignUp {Tx} created server_send.
Arguments DoWalletConnected {Tx} connected.
Arguments DoLogout {Tx}.

Definition applyAction `{Host} {Tx : Type} (h : Header.t) (a : HeaderAction Tx) : Header.t :=
  match a with
  | DoOnMount => header_onMount h
  | DoLogin connected => login connected h
  | DoSignUp created server_send => signUp created server_send h
  | DoWalletConnected connected => walletConnected connected h
  | DoLogout => logout h
  end.

(** The storage keys of the two store modules hold what the stores hold. *)
Definition mirrored (h : Header.t) : Prop :=
  Header.localStorage h !! "chat_key_id" = storedFor (Header.keyId h)
  /\ Header.localStorage h !! "chat_contract_id" = storedFor (Header.contractId h).

(** ** The contract: [send] of contracts/chat-demo/src/lib.rs *)

(** An event as the contract publishes it: its topics and its data. *)
Record ContractEvent : Type := {
  topics : list ScAddress;
  data : string;
}.

(** One invocation of the contract: the addresses that authorized it, and
    the arguments of [send]. *)
Record Invocation : Type := {
  authorizers : list ScAddress;
  inv_addr : ScAddress;
  inv_msg : string;
}.

#[global] Instance byte_eq_dec : EqDecision Byte.byte := Byte.byte_eq_dec.

#[global] Instance ScAddress_eq_dec : EqDecision ScAddress.
Proof. solve_decision. Defined.

(** [addr.require_auth()]: traps unless [addr] authorized the invocation. *)
Definition require_auth (authorized : list ScAddress) (addr : ScAddress) : option unit :=
  if decide (addr ∈ authorized) then Some tt else None.

(** [Contract::send(env, addr, msg)]: the events of the invocation, or
    [None] when it traps. *)
Definition Contract_send (inv : Invocation) : option (list ContractEvent) :=
  match require_auth (authorizers inv) (inv_addr inv) with
  | Some _ => Some [ {| topics := [inv_addr inv]; data := inv_msg inv |} ]
  | None => None
  end.

(** The events on the ledger after the invocations, in order: an invocation
    that traps leaves none. *)
Definition ledgerEvents (invocations : list Invocation) : list ContractEvent :=
  flat_map (fun inv => default [] (Contract_send inv)) invocations.

(** ** Sample data for the further examples *)

(** A contract event without topics. *)
Definition badEvent : Api.EventResponse :=
  {| Api.type := "contract";
     Api.contractId := Some "CBUMOJAEAPLQUCWVIM6HJH5XKXW5OP7CRVOOYMJYSTZ6GFDNA72O2QW6";
     Api.id := "5";
     Api.topic := [];
     Api.value := scvOther "scvString" (list_byte_of_string "lost");
     Api.ledgerClosedAt := "50";
     Api.txHash := "tx5" |}.

(** An event of the system kind. *)
Definition systemEvent : Api.EventResponse :=
  {| Api.type := "system";
     Api.contractId := None;
     Api.id := "6";
     Api.topic := [];
     Api.value := scvOther "scvVoid" [];
     Api.ledgerClosedAt := "60";
     Api.txHash := "tx6" |}.

(** Services over transactions written as strings: signing fails for the
    key id "lost", submitting fails for a message "drop". *)
Definition demoServices : Services string :=
  {| chat_send := fun addr text => Normal (addr ++ ":" ++ text);
     account_sign := fun tx key =>
       if (key =? "lost")%string then Throw "NotAllowedError"
       else Normal ("signed:" ++ tx);
     server_send := fun tx =>
       if (tx =? "signed:CABC:drop")%string then Throw "Launchtube" else Normal tt |}.

Definition draft (text : string) : Composer.t :=
  {| Composer.msg := text; Composer.sending := false; Composer.error := None |}.

(** A browser storage with a key of the application, a key that has "ssd:"
    inside, and a key of something else. *)
Definition sampleStorage : gmap string string :=
  {[ "ssd:keyId" := "key1"; "myssd:draft" := "x"; "theme" := "dark" ]}.

Definition alice : ScAddress :=
  {| switch_name := "scAddressTypeAccount"; arm := list_byte_of_string "alice" |}.

Definition bob : ScAddress :=
  {| switch_name := "scAddressTypeAccount"; arm := list_byte_of_string "bob" |}.

(** Alice sends with her authorization; then someone sends in Bob's name
    with Alice's authorization only. *)
Definition sampleInvocations : list Invocation :=
  [ {| authorizers := [alice]; inv_addr := alice; inv_msg := "hello" |};
    {| authorizers := [alice]; inv_addr := bob; inv_msg := "forged" |} ].

(** * Properties *)

(** ** [truncate] *)

Lemma substring_clamp (s : string) : forall a m : nat,
  substring a m s = substring a (Nat.min m (String.length s - a)) s.
Proof.
  induction s as [|c s IH]; intros a m.
  - destruct a, m; reflexivity.
  - destruct a as [|a]; simpl.
    + destruct m as [|m]; [reflexivity|].
      simpl. f_equal. rewrite (IH 0%nat m). f_equal. f_equal. lia.
    + apply IH.
Qed.

Lemma substring_whole (s : string) : forall m : nat,
  (String.length s <= m)%nat -> substring 0 m s = s.
Proof.
  induction s as [|c s IH]; intros m Hm.
  - destruct m; reflexivity.
  - destruct m as [|m]; simpl in *; [lia|]. f_equal. apply IH. lia.
Qed.

Lemma substring_length (s : string) : forall a m : nat,
  String.length (substring a m s) = Nat.min m (String.length s - a).
Proof.
  induction s as [|c s IH]; intros a m.
  - destruct a, m; reflexivity.
  - destruct a as [|a]; simpl.
    + destruct m as [|m]; [reflexivity|]. simpl. rewrite IH. lia.
    + apply IH.
Qed.

Lemma append_length (s1 s2 : string) :
  String.length (s1 ++ s2) = (String.length s1 + String.length s2)%nat.
Proof. induction s1 as [|c s1 IH]; simpl; [reflexivity|]. now rewrite IH. Qed.

Lemma slice_prefix (s : string) (n : nat) :
  slice s 0 (Some (Z.of_nat n)) = firstChars n s.
Proof.
  unfold slice, sliceRange, relIndex, firstChars.
  change (0 <? 0) with false; cbv iota.
  destruct (Z.ltb_spec (Z.of_nat n) 0); [lia|].
  replace (Z.to_nat (Z.min 0 (Z.of_nat (String.length s)))) with 0%nat by lia.
  rewrite (substring_clamp s 0 n).
  f_equal. lia.
Qed.

Lemma slice_suffix (s : string) (n : nat) :
  (1 <= n)%nat -> slice s (- Z.of_nat n) None = lastChars n s.
Proof.
  intros Hn. unfold slice, sliceRange, relIndex, lastChars.
  destruct (Z.ltb_spec (- Z.of_nat n) 0); [|lia].
  replace (Z.to_nat (Z.max (Z.of_nat (String.length s) + - Z.of_nat n) 0))
    with (String.length s - n)%nat by lia.
  rewrite (substring_clamp s (String.length s - n) n).
  f_equal. lia.
Qed.

Lemma emitsTwice_iff (s : string) (n : nat) :
  (1 <= n)%nat ->
  emitsTwice s (Z.of_nat n) = true <-> (1 <= String.length s < 2 * n)%nat.
Proof.
  intros Hn. unfold emitsTwice, sliceRange, relIndex.
  change (0 <? 0) with false; cbv iota.
  destruct (Z.ltb_spec (Z.of_nat n) 0); [lia|].
  destruct (Z.ltb_spec (- Z.of_nat n) 0); [|lia].
  rewrite Z.ltb_lt. lia.
Qed.

(** C10, as amended: for every string [s] and every count [n >= 1],
    [truncate(s, n)] is the first [n] characters of [s], then "...", then
    the last [n] characters of [s], with no guard on the length of [s].  Its
    length is twice [min n (length s)] plus three; a string no longer than
    [n] appears whole on both sides; a position of [s] is emitted twice
    exactly when [s] is not empty and shorter than [2n]; and for every [s] of
    length at most [2n] the output is longer than [s]. *)
Theorem truncate_first_ellipsis_last (s : string) (n : nat) :
  (1 <= n)%nat ->
  truncate s (Z.of_nat n) = firstChars n s ++ "..." ++ lastChars n s
  /\ String.length (truncate s (Z.of_nat n))
     = (2 * Nat.min n (String.length s) + 3)%nat
  /\ ((String.length s <= n)%nat -> truncate s (Z.of_nat n) = s ++ "..." ++ s)
  /\ (emitsTwice s (Z.of_nat n) = true <-> (1 <= String.length s < 2 * n)%nat)
  /\ ((String.length s <= 2 * n)%nat ->
      (String.length s < String.length (truncate s (Z.of_nat n)))%nat).
Proof.
  intros Hn.
  assert (Heq : truncate s (Z.of_nat n) = firstChars n s ++ "..." ++ lastChars n s).
  { unfold truncate. now rewrite slice_prefix, slice_suffix. }
  assert (Hlen : String.length (truncate s (Z.of_nat n))
                 = (2 * Nat.min n (String.length s) + 3)%nat).
  { rewrite Heq, !append_length. unfold firstChars, lastChars.
    rewrite !substring_length. simpl. lia. }
  split; [exact Heq|]. split; [exact Hlen|]. split; [|split].
  - intros Hs. rewrite Heq. unfold firstChars, lastChars.
    replace (String.length s - n)%nat with 0%nat by lia.
    now rewrite substring_whole.
  - now apply emitsTwice_iff.
  - intros Hs. rewrite Hlen. lia.
Qed.

(** The example of C10: three characters, [n = 4]. *)
Lemma truncate_first_ellipsis_last_witness :
  (1 <= 4)%nat
  /\ truncate "abc" 4 = "abc...abc"
  /\ emitsTwice "abc" 4 = true
  /\ (String.length "abc" < String.length (truncate "abc" 4))%nat.
Proof.
  pose proof (truncate_first_ellipsis_last "abc" 4 ltac:(lia))
    as (_ & _ & Hwhole & Htwice & Hlonger).
  split; [lia|]. split; [|split].
  - apply Hwhole. simpl. lia.
  - apply Htwice. simpl. lia.
  - apply Hlonger. simpl. lia.
Defined.

(** C10 as stated fails twice.  With [n = 0] the second slice is
    [str.slice(-0)], the whole string, not its last zero characters; and a
    string of length exactly [2n] is cut into two halves that share no
    position. *)
Lemma truncate_zero_and_exact_halves :
  truncate "abc" 0 = "...abc"
  /\ truncate "abc" 0 <> firstChars 0 "abc" ++ "..." ++ lastChars 0 "abc"
  /\ (String.length "ab" <= 2 * 1)%nat
  /\ truncate "ab" 1 = "a...b"
  /\ emitsTwice "ab" 1 = false.
Proof.
  split; [reflexivity|]. split; [|split; [simpl; lia|split; reflexivity]].
  vm_compute. discriminate.
Qed.

(** ** The sort *)

Lemma sortInsert_perm (x : ChatEvent) (l : list ChatEvent) :
  Permutation (sortInsert byTimestamp x l) (x :: l).
Proof.
  induction l as [|y l IH]; simpl; [reflexivity|].
  destruct (byTimestamp x y <=? 0); [reflexivity|].
  rewrite IH. apply perm_swap.
Qed.

Lemma Array_sort_perm (l : list ChatEvent) :
  Permutation (Array_sort byTimestamp l) l.
Proof.
  induction l as [|x l IH]; simpl; [reflexivity|].
  rewrite sortInsert_perm. now rewrite IH.
Qed.

Lemma sortInsert_chronological (x : ChatEvent) (l : list ChatEvent) :
  chronological l -> chronological (sortInsert byTimestamp x l).
Proof.
  unfold chronological.
  induction l as [|y l IH]; intros Hl; simpl.
  - constructor; constructor.
  - apply StronglySorted_inv in Hl as [Hl Hy].
    unfold byTimestamp at 1.
    destruct (Z.leb_spec (timestamp x - timestamp y) 0) as [Hle|Hgt].
    + constructor; [constructor; assumption|].
      constructor; [lia|].
      eapply Forall_impl; [exact Hy|]. simpl. intros z Hz. lia.
    + constructor; [apply IH; assumption|].
      eapply Permutation_Forall; [symmetry; apply sortInsert_perm|].
      constructor; [lia|exact Hy].
Qed.

Lemma Array_sort_chronological (l : list ChatEvent) :
  chronological (Array_sort byTimestamp l).
Proof.
  induction l as [|x l IH]; simpl; [constructor|].
  now apply sortInsert_chronological.
Qed.

Lemma sortInsert_at_time (t : Z) (x : ChatEvent) (l : list ChatEvent) :
  at_time t (sortInsert byTimestamp x l) = at_time t (x :: l).
Proof.
  unfold at_time.
  induction l as [|y l IH]; [reflexivity|].
  simpl sortInsert. unfold byTimestamp at 1.
  destruct (Z.leb_spec (timestamp x - timestamp y) 0) as [Hle|Hgt]; [reflexivity|].
  simpl in *. rewrite IH.
  destruct (Z.eqb_spec (timestamp x) t), (Z.eqb_spec (timestamp y) t);
    try reflexivity; lia.
Qed.

(** The sort is stable: records of one timestamp keep their order. *)
Lemma Array_sort_at_time (t : Z) (l : list ChatEvent) :
  at_time t (Array_sort byTimestamp l) = at_time t l.
Proof.
  induction l as [|x l IH]; [reflexivity|].
  simpl Array_sort. rewrite sortInsert_at_time.
  unfold at_time in *. simpl. now rewrite IH.
Qed.

(** Sorting a list that is in order changes nothing. *)
Lemma Array_sort_fixed (l : list ChatEvent) :
  chronological l -> Array_sort byTimestamp l = l.
Proof.
  unfold chronological.
  induction l as [|x l IH]; intros Hl; [reflexivity|].
  apply StronglySorted_inv in Hl as [Hl Hx].
  simpl. rewrite (IH Hl).
  destruct l as [|y l]; [reflexivity|].
  simpl. unfold byTimestamp.
  apply Forall_cons in Hx as [Hxy _].
  destruct (Z.leb_spec (timestamp x - timestamp y) 0); [reflexivity|lia].
Qed.

Lemma Array_sort_ids (l : list ChatEvent) :
  Permutation (ids (Array_sort byTimestamp l)) (ids l).
Proof. unfold ids. apply Permutation_map, Array_sort_perm. Qed.

(** ** [findIndex] and the loop of [getEvents] *)

Lemma findIndexFrom_none {A : Type} (p : A -> bool) (l : list A) : forall i : Z,
  0 <= i -> (findIndexFrom i p l = -1 <-> Forall (fun x => p x = false) l).
Proof.
  induction l as [|x l IH]; intros i Hi; simpl.
  - split; [constructor|reflexivity].
  - destruct (p x) eqn:Hp.
    + split; [lia|]. intros Hall. apply Forall_cons in Hall as [Hx _]. congruence.
    + rewrite (IH (i + 1)) by lia. split.
      * intros Hall. now constructor.
      * intros Hall. now apply Forall_cons in Hall as [_ Hall].
Qed.

Section Reconcile.
Context `{Host}.

Lemma unseen_spec (msgs : list ChatEvent) (event : Api.EventResponse) :
  unseen msgs event = true <-> Api.id event ∉ ids msgs.
Proof.
  unfold unseen, findIndex. rewrite Z.eqb_eq, findIndexFrom_none by lia.
  unfold ids. rewrite Forall_forall. split.
  - intros Hall Hin. apply list_elem_of_fmap in Hin as (m & Hid & Hm).
    specialize (Hall m Hm). apply String.eqb_neq in Hall. congruence.
  - intros Hnin m Hm. apply String.eqb_neq. intros Hid.
    apply Hnin. apply list_elem_of_fmap. exists m. split; [congruence|assumption].
Qed.

Lemma unseen_ids (msgs msgs' : list ChatEvent) (event : Api.EventResponse) :
  (forall i, i ∈ ids msgs <-> i ∈ ids msgs') ->
  unseen msgs event = unseen msgs' event.
Proof.
  intros Hsame.
  destruct (unseen msgs event) eqn:E1, (unseen msgs' event) eqn:E2; try reflexivity.
  - apply unseen_spec in E1. apply not_true_iff_false in E2.
    exfalso. apply E2. apply unseen_spec. now rewrite <- Hsame.
  - apply unseen_spec in E2. apply not_true_iff_false in E1.
    exfalso. apply E1. apply unseen_spec. now rewrite Hsame.
Qed.

(** What one call of the callback does, by cases. *)
Lemma processEvent_cases (msgs : list ChatEvent) (event : Api.EventResponse) :
  (processEvent msgs event = Normal msgs
   /\ (skipped event = true \/ Api.id event ∈ ids msgs))
  \/ (exists topic0,
        skipped event = false /\ (Api.id event ∉ ids msgs)
        /\ topic0_address event = Normal topic0
        /\ processEvent msgs event
           = Normal (msgs ++ [makeChatEvent event (decodeAddr topic0)])%list)
  \/ (exists e,
        skipped event = false /\ (Api.id event ∉ ids msgs)
        /\ topic0_address event = Throw e
        /\ processEvent msgs event = Throw e).
Proof.
  unfold processEvent.
  destruct (skipped event) eqn:Hs; [left; auto|].
  destruct (unseen msgs event) eqn:Hu.
  - apply unseen_spec in Hu.
    destruct (topic0_address event) as [topic0|e] eqn:Ht.
    + right; left. exists topic0. auto.
    + right; right. exists e. auto.
  - left. split; [reflexivity|]. right.
    apply not_true_iff_false in Hu. rewrite unseen_spec in Hu.
    destruct (decide (Api.id event ∈ ids msgs)); [assumption|contradiction].
Qed.

Lemma ids_snoc (msgs : list ChatEvent) (m : ChatEvent) :
  ids (msgs ++ [m]) = (ids msgs ++ [id m])%list.
Proof. unfold ids. now rewrite map_app. Qed.

(** The loop only appends: the records present at the start stay, in place
    and unchanged. *)
Lemma forEachEvent_appends (events : list Api.EventResponse) :
  forall msgs, exists added, fst (forEachEvent msgs events) = (msgs ++ added)%list.
Proof.
  induction events as [|event rest IH]; intros msgs; simpl.
  - exists []. now rewrite app_nil_r.
  - destruct (processEvent_cases msgs event)
      as [[-> _]|[(topic0 & _ & _ & _ & ->)|(e & _ & _ & _ & ->)]].
    + apply IH.
    + destruct (IH (msgs ++ [makeChatEvent event (decodeAddr topic0)])%list)
        as [added ->].
      eexists. now rewrite <- app_assoc.
    + exists []. now rewrite app_nil_r.
Qed.

Lemma forEachEvent_keeps_ids (events : list Api.EventResponse) (msgs : list ChatEvent) (i : string) :
  i ∈ ids msgs -> i ∈ ids (fst (forEachEvent msgs events)).
Proof.
  intros Hi. destruct (forEachEvent_appends events msgs) as [added ->].
  unfold ids in *. rewrite map_app. apply elem_of_app. now left.
Qed.

(** The loop never pushes an id that is already there. *)
Lemma forEachEvent_NoDup (events : list Api.EventResponse) :
  forall msgs, NoDup (ids msgs) -> NoDup (ids (fst (forEachEvent msgs events))).
Proof.
  induction events as [|event rest IH]; intros msgs Hnd; simpl; [assumption|].
  destruct (processEvent_cases msgs event)
    as [[-> _]|[(topic0 & _ & Hnew & _ & ->)|(e & _ & _ & _ & ->)]].
  - now apply IH.
  - apply IH. rewrite ids_snoc. apply NoDup_app. split; [assumption|].
    split; [|apply NoDup_singleton].
    intros i Hi Hi'. apply list_elem_of_singleton in Hi'. simpl in Hi'. now subst.
  - assumption.
Qed.

(** Every id in the result was there at the start or came with an event
    that was not skipped. *)
Lemma forEachEvent_ids_from (events : list Api.EventResponse) :
  forall msgs i,
    i ∈ ids (fst (forEachEvent msgs events)) ->
    i ∈ ids msgs \/ exists event, event ∈ events /\ skipped event = false /\ Api.id event = i.
Proof.
  induction events as [|event rest IH]; intros msgs i; simpl; [auto|].
  destruct (processEvent_cases msgs event)
    as [[-> _]|[(topic0 & Hs & _ & _ & ->)|(e & _ & _ & _ & ->)]].
  - intros Hi. destruct (IH _ _ Hi) as [?|(ev & ? & ? & ?)]; [auto|].
    right. exists ev. split; [now apply elem_of_cons; right|auto].
  - intros Hi. destruct (IH _ _ Hi) as [Hin|(ev & ? & ? & ?)].
    + rewrite ids_snoc in Hin. apply elem_of_app in Hin as [?|Hin]; [auto|].
      apply list_elem_of_singleton in Hin. simpl in Hin. subst i.
      right. exists event. split; [now apply elem_of_cons; left|auto].
    + right. exists ev. split; [now apply elem_of_cons; right|auto].
  - simpl. auto.
Qed.

(** When the loop runs to its end, every event that was not skipped has its
    id in the result. *)
Lemma forEachEvent_ids_to (events : list Api.EventResponse) :
  forall msgs event,
    snd (forEachEvent msgs events) = None ->
    event ∈ events -> skipped event = false ->
    Api.id event ∈ ids (fst (forEachEvent msgs events)).
Proof.
  induction events as [|ev rest IH]; intros msgs event; simpl.
  - intros _ Hin. now apply elem_of_nil in Hin.
  - destruct (processEvent_cases msgs ev)
      as [[-> Hwhy]|[(topic0 & Hs & _ & _ & ->)|(e & _ & _ & _ & ->)]].
    + intros Hend Hin Hsk. apply elem_of_cons in Hin as [->|Hin].
      * destruct Hwhy as [?|Hseen]; [congruence|].
        now apply forEachEvent_keeps_ids.
      * now apply IH.
    + intros Hend Hin Hsk. apply elem_of_cons in Hin as [->|Hin].
      * apply forEachEvent_keeps_ids. rewrite ids_snoc.
        apply elem_of_app. right. now apply list_elem_of_singleton.
      * now apply IH.
    + simpl. discriminate.
Qed.

(** The loop runs to its end when every event yields a record on its own. *)
Lemma forEachEvent_ends (events : list Api.EventResponse) :
  forall msgs,
    Forall (fun event => is_Some (decodeEvent event)) events ->
    snd (forEachEvent msgs events) = None.
Proof.
  induction events as [|ev rest IH]; intros msgs Hall; simpl; [reflexivity|].
  apply Forall_cons in Hall as [Hev Hall].
  destruct (processEvent_cases msgs ev)
    as [[-> _]|[(topic0 & _ & _ & _ & ->)|(e & Hs & _ & Ht & ->)]].
  - now apply IH.
  - now apply IH.
  - unfold decodeEvent in Hev. rewrite Hs, Ht in Hev. now destruct Hev.
Qed.

(** Running the loop again over the same events, on any list with the ids
    of the first result, changes nothing. *)
Lemma forEachEvent_again (events : list Api.EventResponse) :
  forall msgs msgs',
    (forall i, i ∈ ids msgs' <-> i ∈ ids (fst (forEachEvent msgs events))) ->
    fst (forEachEvent msgs' events) = msgs'.
Proof.
  induction events as [|ev rest IH]; intros msgs msgs' Hsame; simpl; [reflexivity|].
  simpl in Hsame.
  destruct (processEvent_cases msgs ev)
    as [[Heq Hwhy]|[(topic0 & Hs & _ & _ & Heq)|(e & Hs & Hnew & Ht & Heq)]];
    rewrite Heq in Hsame.
  - assert (Hstay : processEvent msgs' ev = Normal msgs').
    { unfold processEvent. destruct Hwhy as [->|Hseen]; [reflexivity|].
      destruct (skipped ev); [reflexivity|].
      destruct (unseen msgs' ev) eqn:Hu; [|reflexivity].
      apply unseen_spec in Hu. exfalso. apply Hu. apply Hsame.
      now apply forEachEvent_keeps_ids. }
    rewrite Hstay. now apply (IH msgs).
  - assert (Hstay : processEvent msgs' ev = Normal msgs').
    { unfold processEvent. rewrite Hs.
      destruct (unseen msgs' ev) eqn:Hu; [|reflexivity].
      apply unseen_spec in Hu. exfalso. apply Hu. apply Hsame.
      apply forEachEvent_keeps_ids. rewrite ids_snoc.
      apply elem_of_app. right. now apply list_elem_of_singleton. }
    rewrite Hstay. now apply (IH (msgs ++ [makeChatEvent ev (decodeAddr topic0)])%list).
  - simpl in Hsame.
    assert (Hthrow : processEvent msgs' ev = Throw e).
    { unfold processEvent. rewrite Hs, Ht.
      destruct (unseen msgs' ev) eqn:Hu; [reflexivity|].
      apply not_true_iff_false in Hu. rewrite unseen_spec in Hu.
      exfalso. apply Hu. intros Hin. apply Hnew. now apply Hsame. }
    now rewrite Hthrow.
Qed.

End Reconcile.

(** ** Reconciling: [callGetEvents] *)

Section Merge.
Context `{Host}.

Lemma decodeEvent_Some (event : Api.EventResponse) (b : ChatEvent) :
  decodeEvent event = Some b -> skipped event = false /\ id b = Api.id event.
Proof.
  unfold decodeEvent. destruct (skipped event); [discriminate|].
  destruct (topic0_address event); [|discriminate].
  intros [= <-]. auto.
Qed.

Lemma arrives_decodable (events : list Api.EventResponse) (B : list ChatEvent) :
  arrives events B -> Forall (fun event => is_Some (decodeEvent event)) events.
Proof.
  unfold arrives. induction 1 as [|event b events B Hb _ IH]; constructor; eauto.
Qed.

Lemma arrives_ids (events : list Api.EventResponse) (B : list ChatEvent) (i : string) :
  arrives events B ->
  i ∈ ids B <-> exists event, event ∈ events /\ skipped event = false /\ Api.id event = i.
Proof.
  unfold arrives, ids. induction 1 as [|event b events B Hb _ IH]; simpl.
  - split; [intros Hin; now apply elem_of_nil in Hin|].
    intros (event & Hin & _). now apply elem_of_nil in Hin.
  - apply decodeEvent_Some in Hb as [Hs Hid].
    rewrite elem_of_cons, IH. split.
    + intros [->|(ev & Hin & ? & ?)].
      * exists event. split; [now apply elem_of_cons; left|auto].
      * exists ev. split; [now apply elem_of_cons; right|auto].
    + intros (ev & Hin & Hsk & Hi). apply elem_of_cons in Hin as [->|Hin].
      * left. congruence.
      * right. eauto.
Qed.

(** Events that are skipped or already present leave the list as it is. *)
Lemma forEachEvent_nothing_new (events : list Api.EventResponse) (msgs : list ChatEvent) :
  Forall (fun event => skipped event = true \/ Api.id event ∈ ids msgs) events ->
  fst (forEachEvent msgs events) = msgs.
Proof.
  induction 1 as [|event rest Hev _ IH]; simpl; [reflexivity|].
  destruct (processEvent_cases msgs event)
    as [[-> _]|[(topic0 & Hs & Hnew & _ & _)|(e & Hs & Hnew & _ & _)]].
  - exact IH.
  - destruct Hev; [congruence|contradiction].
  - destruct Hev; [congruence|contradiction].
Qed.

Lemma exactly_once (l : list string) (i : string) :
  NoDup l -> i ∈ l -> count_occ string_dec l i = 1%nat.
Proof.
  intros Hnd Hin. apply NoDup_ListNoDup in Hnd. apply list_elem_of_In in Hin.
  revert i Hin. now apply NoDup_count_occ'.
Qed.

Lemma callGetEvents_ids (msgs : list ChatEvent) (lim : Limit) (found : bool)
    (rpc_getEvents : GetEventsRequest -> completion (list Api.EventResponse)) (i : string) :
  i ∈ ids (callGetEvents msgs lim found rpc_getEvents)
  <-> i ∈ ids (getEvents msgs lim found rpc_getEvents).
Proof. unfold callGetEvents. now rewrite Array_sort_ids. Qed.

Lemma getEvents_NoDup (msgs : list ChatEvent) (lim : Limit) (found : bool)
    (rpc_getEvents : GetEventsRequest -> completion (list Api.EventResponse)) :
  NoDup (ids msgs) -> NoDup (ids (getEvents msgs lim found rpc_getEvents)).
Proof.
  intros Hnd. unfold getEvents.
  destruct (rpc_getEvents (getEventsRequest lim)); [|assumption].
  now apply forEachEvent_NoDup.
Qed.

(** C1, as amended: if no two records of [A] share an id, then for all
    records [B] arriving as events, the result of [callGetEvents] (the
    [findIndex] check on the id at fetch time, then the sort) has no two
    records with the same id, every id of [A] or of [B] is in it exactly
    once, and it has no other ids. *)
Theorem reconcile_ids_once (A B : list ChatEvent) (events : list Api.EventResponse)
    (lim : Limit) (found : bool)
    (rpc_getEvents : GetEventsRequest -> completion (list Api.EventResponse)) :
  NoDup (ids A) ->
  rpc_getEvents (getEventsRequest lim) = Normal events ->
  arrives events B ->
  NoDup (ids (callGetEvents A lim found rpc_getEvents))
  /\ (forall i, i ∈ ids A \/ i ∈ ids B ->
        count_occ string_dec (ids (callGetEvents A lim found rpc_getEvents)) i = 1%nat)
  /\ (forall i, i ∈ ids (callGetEvents A lim found rpc_getEvents) ->
        i ∈ ids A \/ i ∈ ids B).
Proof.
  intros HA Hrpc HB.
  assert (Hnd : NoDup (ids (callGetEvents A lim found rpc_getEvents))).
  { unfold callGetEvents. rewrite Array_sort_ids. now apply getEvents_NoDup. }
  split; [exact Hnd|]. split.
  - intros i Hi. apply exactly_once; [exact Hnd|].
    apply callGetEvents_ids. unfold getEvents. rewrite Hrpc.
    destruct Hi as [Hi|Hi].
    + now apply forEachEvent_keeps_ids.
    + apply (arrives_ids events B i HB) in Hi as (event & Hin & Hs & <-).
      apply forEachEvent_ids_to; [|assumption..].
      apply forEachEvent_ends. now apply arrives_decodable with B.
  - intros i Hi. apply callGetEvents_ids in Hi. unfold getEvents in Hi.
    rewrite Hrpc in Hi. apply forEachEvent_ids_from in Hi as [Hi|Hi]; [auto|].
    right. now apply (arrives_ids events B i HB).
Qed.

End Merge.

Section Idempotence.
Context `{Host}.

Lemma arrives_already_there (events : list Api.EventResponse) (A : list ChatEvent) :
  arrives events A ->
  Forall (fun event => skipped event = true \/ Api.id event ∈ ids A) events.
Proof.
  intros HA. apply Forall_forall. intros event Hin. right.
  destruct (decide (skipped event = false)) as [Hs|Hs].
  - apply (arrives_ids events A (Api.id event) HA). eauto.
  - apply arrives_decodable in HA.
    rewrite Forall_forall in HA. destruct (HA event Hin) as [b Hb].
    apply decodeEvent_Some in Hb as [? _]. contradiction.
Qed.

(** C3: reconciling [A] with nothing yields [A] sorted by timestamp (a
    reordering of [A], ascending, equal timestamps in the order of [A]);
    reconciling [A] with the records of [A] itself yields the same as
    reconciling it with nothing; and running a merge again on its own result
    with the same answer from the server changes nothing. *)
Theorem reconcile_idempotent (A : list ChatEvent) (lim : Limit) (found : bool)
    (rpc_getEvents : GetEventsRequest -> completion (list Api.EventResponse)) :
  (rpc_getEvents (getEventsRequest lim) = Normal [] ->
     callGetEvents A lim found rpc_getEvents = Array_sort byTimestamp A
     /\ chronological (callGetEvents A lim found rpc_getEvents)
     /\ Permutation (callGetEvents A lim found rpc_getEvents) A
     /\ forall t, at_time t (callGetEvents A lim found rpc_getEvents) = at_time t A)
  /\ (forall events,
        arrives events A ->
        rpc_getEvents (getEventsRequest lim) = Normal events ->
        callGetEvents A lim found rpc_getEvents
        = callGetEvents A lim found (answering []))
  /\ callGetEvents (callGetEvents A lim found rpc_getEvents) lim found rpc_getEvents
     = callGetEvents A lim found rpc_getEvents.
Proof.
  split; [|split].
  - intros Hrpc. unfold callGetEvents, getEvents. rewrite Hrpc. simpl.
    split; [reflexivity|]. split; [apply Array_sort_chronological|].
    split; [apply Array_sort_perm|]. intros t. apply Array_sort_at_time.
  - intros events HA Hrpc. unfold callGetEvents, getEvents, answering.
    rewrite Hrpc. simpl. f_equal.
    apply forEachEvent_nothing_new. now apply arrives_already_there.
  - unfold callGetEvents at 1. unfold getEvents at 1.
    destruct (rpc_getEvents (getEventsRequest lim)) as [events|e] eqn:Hrpc.
    + rewrite (forEachEvent_again events A).
      * apply Array_sort_fixed, Array_sort_chronological.
      * intros i. rewrite callGetEvents_ids. unfold getEvents. now rewrite Hrpc.
    + apply Array_sort_fixed, Array_sort_chronological.
Qed.

(** What the [switch] without a default arm does: for every raw event that
    passes the filter, is not in the list yet and whose first topic is an
    address with a discriminator that is neither [scAddressTypeAccount] nor
    [scAddressTypeContract], the callback does not throw and appends one
    record for it; the record has the event's id and its sender is
    undefined. *)
Theorem other_discriminator_sender_undefined (msgs : list ChatEvent)
    (event : Api.EventResponse) (topic0 : ScAddress) (rest : list ScVal) :
  skipped event = false ->
  Api.id event ∉ ids msgs ->
  Api.topic event = scvAddress topic0 :: rest ->
  switch_name topic0 <> "scAddressTypeAccount" ->
  switch_name topic0 <> "scAddressTypeContract" ->
  exists record,
    processEvent msgs event = Normal (msgs ++ [record])%list
    /\ id record = Api.id event
    /\ addr record = None
    /\ forall lim found, getEvents msgs lim found (answering [event])
                         = (msgs ++ [record])%list.
Proof.
  intros Hs Hnew Htopic Hacc Hcon.
  exists (makeChatEvent event None).
  assert (Hdec : decodeAddr topic0 = None).
  { unfold decodeAddr.
    apply String.eqb_neq in Hacc. apply String.eqb_neq in Hcon.
    now rewrite Hacc, Hcon. }
  assert (Hp : processEvent msgs event = Normal (msgs ++ [makeChatEvent event None])%list).
  { unfold processEvent. rewrite Hs.
    apply unseen_spec in Hnew. rewrite Hnew.
    unfold topic0_address. rewrite Htopic. now rewrite Hdec. }
  split; [exact Hp|]. split; [reflexivity|]. split; [reflexivity|].
  intros lim found. unfold getEvents, answering. simpl. now rewrite Hp.
Qed.

(** C8: when the fetch of the indexer is rejected, or the body it returns
    is malformed, [getMessages] returns an empty list; it never throws; and
    [onMount] goes on to the live fetch with an empty list and no error
    shown. *)
Theorem historical_failure_empty :
  (forall e, getMessages (Throw e) = Normal [])
  /\ (forall body e, processResponse body = Throw e ->
        getMessages (Normal body) = Normal [])
  /\ (forall fetched, exists rows, getMessages fetched = Normal rows)
  /\ (forall w e,
        Welcome.mount w = AwaitMessages ->
        exists w',
          step w (MessagesSettled (Throw e)) = Some w'
          /\ Welcome.msgs w' = []
          /\ Welcome.mount w' = AwaitLatestLedger
          /\ Welcome.error w' = Welcome.error w).
Proof.
  split; [reflexivity|]. split; [|split].
  - intros body e Hbody. unfold getMessages. now rewrite Hbody.
  - intros [body|e]; simpl; [|eauto]. destruct (processResponse body); eauto.
  - intros w e Hm. simpl. unfold onMount_step. rewrite Hm. simpl.
    eexists. split; [reflexivity|]. simpl. auto.
Qed.

End Idempotence.

(** ** The lifecycle *)

Section LifecycleFacts.
Context `{Host}.

Ltac step_cases Hstep :=
  unfold step, onMount_step, tick_step in Hstep;
  repeat case_match; simplify_eq; simpl in *.

Lemma consistent_initial : consistent initial.
Proof.
  unfold consistent, initial. simpl. split; [|split].
  - intros h Hh. now apply elem_of_nil in Hh.
  - discriminate.
  - constructor.
Qed.

Lemma callGetMessages_chronological (fetched : completion string) (l : list ChatEvent) :
  callGetMessages fetched = Normal l -> chronological l.
Proof.
  unfold callGetMessages. destruct (getMessages fetched); [|discriminate].
  intros [= <-]. apply Array_sort_chronological.
Qed.

Lemma onDestroy_fields (w : Welcome.t) :
  Welcome.interval (onDestroy w) = Welcome.interval w
  /\ Welcome.mount (onDestroy w) = Welcome.mount w
  /\ Welcome.msgs (onDestroy w) = Welcome.msgs w
  /\ Welcome.ticks (onDestroy w) = Welcome.ticks w
  /\ Welcome.destroyed (onDestroy w) = true
  /\ Welcome.timers (onDestroy w)
     = match Welcome.interval w with
       | Some h => if (h =? 0)%nat then Welcome.timers w
                   else List.filter (fun h' => negb (h' =? h)%nat) (Welcome.timers w)
       | None => Welcome.timers w
       end.
Proof.
  unfold onDestroy, clearInterval.
  destruct (Welcome.interval w) as [h|] eqn:Hint; [destruct (h =? 0)%nat|]; simpl;
    rewrite ?Hint; auto 10.
Qed.

Lemma consistent_onDestroy (w : Welcome.t) :
  consistent w -> consistent (onDestroy w).
Proof.
  intros (Ht & Hi & Hm). unfold consistent.
  destruct (onDestroy_fields w) as (-> & -> & -> & _ & _ & ->).
  split; [|split]; try assumption.
  intros h' Hin. destruct (Welcome.interval w) as [h|]; [|auto].
  destruct (h =? 0)%nat; [auto|].
  apply list_elem_of_In, filter_In in Hin as [Hin _].
  apply list_elem_of_In in Hin. auto.
Qed.

Lemma consistent_step (w w' : Welcome.t) (i : Input) :
  consistent w -> step w i = Some w' -> consistent w'.
Proof.
  intros Hw Hstep. destruct i.
  - (* Mount *)
    destruct Hw as (Ht & Hi & Hm). step_cases Hstep. split; [|split]; try assumption.
    intros h Hh. apply Hi in Hh as [_ ?]. congruence.
  - (* Destroy *)
    unfold step in Hstep. repeat case_match; simplify_eq.
    all: now apply consistent_onDestroy.
  - (* MessagesSettled *)
    destruct Hw as (Ht & Hi & Hm). step_cases Hstep.
    + split; [|split]; try assumption.
      * intros h Hh. apply Hi in Hh as [_ ?]. congruence.
      * eapply callGetMessages_chronological; eassumption.
    + split; [|split]; try assumption.
      intros h Hh. apply Hi in Hh as [? _]. auto.
  - (* LatestLedgerSettled *)
    destruct Hw as (Ht & Hi & Hm). step_cases Hstep.
    all: split; [|split]; try assumption.
    all: intros h Hh; apply Hi in Hh as [? ?]; try congruence; auto.
  - (* EventsSettled *)
    destruct Hw as (Ht & Hi & Hm). step_cases Hstep.
    + split; [|split]; try assumption.
      apply Array_sort_chronological.
    + split; [|split].
      * intros h Hh. apply elem_of_cons in Hh as [->|Hh]; [reflexivity|].
        apply Ht in Hh. apply Hi in Hh as [_ ?]. congruence.
      * intros h [= <-]. auto.
      * apply Array_sort_chronological.
  - (* TimerFired *)
    destruct Hw as (Ht & Hi & Hm). step_cases Hstep. split; [|split]; assumption.
Qed.

Lemma consistent_run (inputs : list Input) : forall w w',
  consistent w -> run w inputs = Some w' -> consistent w'.
Proof.
  induction inputs as [|i rest IH]; intros w w' Hw Hrun; simpl in Hrun.
  - now injection Hrun as <-.
  - destruct (step w i) as [w1|] eqn:Hstep; [|discriminate].
    eapply IH; [|eassumption]. eapply consistent_step; eassumption.
Qed.

(** The list of every state reached from the start is in order. *)
Lemma run_chronological (inputs : list Input) (w : Welcome.t) :
  run initial inputs = Some w -> chronological (Welcome.msgs w).
Proof.
  intros Hrun. now apply (consistent_run inputs initial w consistent_initial) in Hrun as (_ & _ & ?).
Qed.

Lemma quiet_step (w w' : Welcome.t) (i : Input) :
  quiet w -> step w i = Some w' -> quiet w' /\ isTimerFired i = false.
Proof.
  intros [Ht Hm] Hstep. destruct i; simpl.
  - step_cases Hstep.
  - unfold step in Hstep. rewrite Hm in Hstep.
    destruct (Welcome.destroyed w); [discriminate|]. injection Hstep as <-.
    split; [|reflexivity]. unfold quiet.
    destruct (onDestroy_fields w) as (_ & -> & _ & _ & _ & ->). rewrite Ht.
    destruct (Welcome.interval w) as [h|]; [destruct (h =? 0)%nat|]; auto.
  - step_cases Hstep.
  - step_cases Hstep; split; auto; split; assumption.
  - step_cases Hstep; split; auto; split; assumption.
  - unfold step in Hstep. rewrite Ht in Hstep. discriminate.
Qed.

Lemma quiet_run (later : list Input) : forall w w',
  quiet w -> run w later = Some w' ->
  quiet w' /\ Forall (fun i => isTimerFired i = false) later.
Proof.
  induction later as [|i rest IH]; intros w w' Hw Hrun; simpl in Hrun.
  - injection Hrun as <-. split; [assumption|constructor].
  - destruct (step w i) as [w1|] eqn:Hstep; [|discriminate].
    destruct (quiet_step w w1 i Hw Hstep) as [Hw1 Hi].
    destruct (IH w1 w' Hw1 Hrun) as [Hq Hall].
    split; [assumption|]. now constructor.
Qed.

Lemma destroyed_step (w w' : Welcome.t) (i : Input) :
  Welcome.destroyed w = true -> step w i = Some w' -> Welcome.destroyed w' = true.
Proof.
  intros Hd Hstep. destruct i; step_cases Hstep; try assumption; try congruence.
Qed.

Lemma destroyed_run (later : list Input) : forall w w',
  Welcome.destroyed w = true -> run w later = Some w' -> Welcome.destroyed w' = true.
Proof.
  induction later as [|i rest IH]; intros w w' Hw Hrun; simpl in Hrun.
  - now injection Hrun as <-.
  - destruct (step w i) as [w1|] eqn:Hstep; [|discriminate].
    eapply IH; [|eassumption]. eapply destroyed_step; eassumption.
Qed.

End LifecycleFacts.

Section Scheduler.
Context `{Host}.

Lemma filter_out_only (h : nat) (l : list nat) :
  (forall h', h' ∈ l -> h' = h) ->
  List.filter (fun h' => negb (h' =? h)%nat) l = [].
Proof.
  induction l as [|x l IH]; intros Hall; simpl; [reflexivity|].
  rewrite (Hall x) by (apply elem_of_cons; now left).
  rewrite Nat.eqb_refl. simpl. apply IH.
  intros h' Hin. apply Hall. apply elem_of_cons. now right.
Qed.

Lemma scheduler_destroyed (w : Welcome.t) :
  Welcome.destroyed w = true -> scheduler w = Stopped.
Proof. intros Hd. unfold scheduler. now rewrite Hd. Qed.

Lemma stop_quiet (w : Welcome.t) (h : nat) :
  consistent w -> Welcome.destroyed w = false -> Welcome.interval w = Some h ->
  step w Destroy = Some (onDestroy w) /\ quiet (onDestroy w).
Proof.
  intros (Ht & Hi & _) Hd Hint.
  destruct (Hi h Hint) as [Hh Hm].
  split.
  - unfold step. now rewrite Hm, Hd.
  - unfold quiet. destruct (onDestroy_fields w) as (_ & -> & _ & _ & _ & ->).
    split; [|assumption]. rewrite Hint.
    apply Nat.eqb_neq in Hh. rewrite Hh.
    apply filter_out_only. intros h' Hin. apply Ht in Hin. congruence.
Qed.

(** C2: after the historical seed and after every live merge the list is in
    ascending order of timestamp, whatever the order of the two sources, and
    records of one timestamp are in the order in which they were in the list
    before the sort (a stable sort, no second key); so the list is in order
    in every state the component reaches. *)
Theorem merges_chronological_stable :
  (forall msgs lim found rpc_getEvents,
      chronological (callGetEvents msgs lim found rpc_getEvents)
      /\ Permutation (callGetEvents msgs lim found rpc_getEvents)
                     (getEvents msgs lim found rpc_getEvents)
      /\ forall t, at_time t (callGetEvents msgs lim found rpc_getEvents)
                   = at_time t (getEvents msgs lim found rpc_getEvents))
  /\ (forall fetched, exists rows sorted,
        getMessages fetched = Normal rows
        /\ callGetMessages fetched = Normal sorted
        /\ chronological sorted
        /\ Permutation sorted rows
        /\ forall t, at_time t sorted = at_time t rows)
  /\ (forall inputs w,
        run initial inputs = Some w -> chronological (Welcome.msgs w)).
Proof.
  split; [|split].
  - intros msgs lim found rpc_getEvents. unfold callGetEvents.
    split; [apply Array_sort_chronological|].
    split; [apply Array_sort_perm|]. intros t. apply Array_sort_at_time.
  - intros fetched. unfold callGetMessages.
    assert (Hrows : exists rows, getMessages fetched = Normal rows).
    { unfold getMessages. destruct fetched as [body|e]; [|eauto].
      destruct (processResponse body); eauto. }
    destruct Hrows as [rows ->].
    exists rows, (Array_sort byTimestamp rows).
    split; [reflexivity|]. split; [reflexivity|].
    split; [apply Array_sort_chronological|].
    split; [apply Array_sort_perm|]. intros t. apply Array_sort_at_time.
  - apply run_chronological.
Qed.

(** C5: when the query of the live fetch is rejected, [getEvents] returns
    the list it was given; and in every state the component can reach, a
    tick whose query is rejected, or whose [getLatestLedger] is rejected,
    leaves the list as it was before the tick. *)
Theorem failed_fetch_keeps_list :
  (forall existing lim found rpc_getEvents e,
      rpc_getEvents (getEventsRequest lim) = Throw e ->
      getEvents existing lim found rpc_getEvents = existing)
  /\ (forall inputs w k lim rpc_getEvents e,
        run initial inputs = Some w ->
        Welcome.ticks w !! k = Some (TickAwaitEvents lim) ->
        rpc_getEvents (getEventsRequest lim) = Throw e ->
        exists w',
          step w (EventsSettled (Some k) rpc_getEvents) = Some w'
          /\ Welcome.msgs w' = Welcome.msgs w)
  /\ (forall w k e,
        Welcome.ticks w !! k = Some TickAwaitLatestLedger ->
        exists w',
          step w (LatestLedgerSettled (Some k) (Throw e)) = Some w'
          /\ Welcome.msgs w' = Welcome.msgs w).
Proof.
  split; [|split].
  - intros existing lim found rpc_getEvents e Hrpc. unfold getEvents. now rewrite Hrpc.
  - intros inputs w k lim rpc_getEvents e Hrun Hk Hrpc.
    simpl. unfold tick_step. rewrite Hk.
    eexists. split; [reflexivity|]. simpl.
    unfold callGetEvents, getEvents. rewrite Hrpc.
    apply Array_sort_fixed. now apply run_chronological with inputs.
  - intros w k e Hk. simpl. unfold tick_step. rewrite Hk.
    eexists. split; reflexivity.
Qed.

(** C6, as amended: every firing of an active interval starts a callback,
    and every started callback, once it knows the latest ledger [sequence],
    invokes the live fetch for the ledgers from [sequence - 17280] on, a
    window of fixed length behind the latest ledger: the one request the
    server is asked carries that start ledger, the limit 10000 and no cursor,
    whatever was fetched before, and the list becomes the sorted merge of the
    answer to that request. *)
Theorem tick_scans_look_back_window :
  (forall w handle,
      handle ∈ Welcome.timers w ->
      step w (TimerFired handle)
      = Some (with_ticks (Welcome.ticks w ++ [TickAwaitLatestLedger])%list w))
  /\ (forall w k sequence rpc_getEvents,
        Welcome.ticks w !! k = Some TickAwaitLatestLedger ->
        exists w1 w2,
          step w (LatestLedgerSettled (Some k) (Normal sequence)) = Some w1
          /\ Welcome.ticks w1 !! k = Some (TickAwaitEvents (lookBack sequence))
          /\ Welcome.msgs w1 = Welcome.msgs w
          /\ step w1 (EventsSettled (Some k) rpc_getEvents) = Some w2
          /\ Welcome.msgs w2
             = Array_sort byTimestamp
                 (match rpc_getEvents
                          {| filters := [ {| filter_type := "contract";
                                             contractIds := [PUBLIC_CHAT_CONTRACT_ID] |} ];
                             startLedger := Some (sequence - 17280);
                             limit := 10000;
                             cursor := None |} with
                  | Normal events => fst (forEachEvent (Welcome.msgs w) events)
                  | Throw _ => Welcome.msgs w
                  end))
  /\ (forall w k lim rpc_getEvents,
        Welcome.ticks w !! k = Some (TickAwaitEvents lim) ->
        exists w',
          step w (EventsSettled (Some k) rpc_getEvents) = Some w'
          /\ Welcome.msgs w'
             = Array_sort byTimestamp
                 (match rpc_getEvents (getEventsRequest lim) with
                  | Normal events => fst (forEachEvent (Welcome.msgs w) events)
                  | Throw _ => Welcome.msgs w
                  end))
  /\ (forall sequence,
        getEventsRequest (lookBack sequence)
        = {| filters := [ {| filter_type := "contract";
                             contractIds := [PUBLIC_CHAT_CONTRACT_ID] |} ];
             startLedger := Some (sequence - 17280);
             limit := 10000;
             cursor := None |}).
Proof.
  assert (Hsettle : forall w k lim rpc_getEvents,
            Welcome.ticks w !! k = Some (TickAwaitEvents lim) ->
            exists w',
              step w (EventsSettled (Some k) rpc_getEvents) = Some w'
              /\ Welcome.msgs w'
                 = Array_sort byTimestamp
                     (match rpc_getEvents (getEventsRequest lim) with
                      | Normal events => fst (forEachEvent (Welcome.msgs w) events)
                      | Throw _ => Welcome.msgs w
                      end)).
  { intros w k lim rpc_getEvents Hk. simpl. unfold tick_step. rewrite Hk.
    eexists. split; [reflexivity|]. simpl. unfold callGetEvents, getEvents.
    destruct (rpc_getEvents (getEventsRequest lim)); reflexivity. }
  split; [|split; [|split; [exact Hsettle|reflexivity]]].
  - intros w handle Hin. unfold step.
    assert (Hex : existsb (fun h => (h =? handle)%nat) (Welcome.timers w) = true).
    { apply existsb_exists. exists handle. split; [now apply list_elem_of_In|].
      apply Nat.eqb_refl. }
    now rewrite Hex.
  - intros w k sequence rpc_getEvents Hk.
    assert (Hk1 : Welcome.ticks
                    (with_ticks (<[k := TickAwaitEvents (lookBack sequence)]> (Welcome.ticks w)) w)
                  !! k = Some (TickAwaitEvents (lookBack sequence))).
    { simpl. apply list_lookup_insert_eq. now apply lookup_lt_Some in Hk. }
    destruct (Hsettle _ k (lookBack sequence) rpc_getEvents Hk1) as (w2 & Hstep2 & Hmsgs).
    exists (with_ticks (<[k := TickAwaitEvents (lookBack sequence)]> (Welcome.ticks w)) w), w2.
    split; [simpl; unfold tick_step; now rewrite Hk|].
    split; [exact Hk1|]. split; [reflexivity|]. split; [exact Hstep2|].
    exact Hmsgs.
Qed.

(** Teardown once the interval is set: from every state the component can
    reach in which [interval] holds a handle, [onDestroy] cancels the
    interval whatever is in flight.  In every run from there no input is a
    timer firing; started callbacks may still finish; and in the state
    reached the scheduler is stopped, no interval is active, no timer can
    fire, and the list is in order. *)
Lemma teardown_after_interval_cancels (inputs later : list Input) (w w' : Welcome.t)
    (h : nat) :
  run initial inputs = Some w ->
  Welcome.destroyed w = false ->
  Welcome.interval w = Some h ->
  (exists w1, step w Destroy = Some w1
              /\ scheduler w1 = Stopped
              /\ Welcome.timers w1 = []
              /\ Welcome.ticks w1 = Welcome.ticks w)
  /\ (run w (Destroy :: later) = Some w' ->
      Forall (fun i => isTimerFired i = false) later
      /\ scheduler w' = Stopped
      /\ Welcome.timers w' = []
      /\ (forall handle, step w' (TimerFired handle) = None)
      /\ chronological (Welcome.msgs w')).
Proof.
  intros Hreach Hlive Hint.
  assert (Hw : consistent w) by (eapply consistent_run; [apply consistent_initial|eassumption]).
  destruct (stop_quiet w h Hw Hlive Hint) as [Hstep Hquiet].
  assert (Hd : Welcome.destroyed (onDestroy w) = true) by apply onDestroy_fields.
  split.
  - exists (onDestroy w). split; [assumption|].
    split; [now apply scheduler_destroyed|].
    split; [apply Hquiet|apply onDestroy_fields].
  - intros Hlater.
    change (run w (Destroy :: later))
      with (match step w Destroy with Some w1 => run w1 later | None => None end)
      in Hlater.
    rewrite Hstep in Hlater.
    destruct (quiet_run later _ _ Hquiet Hlater) as [[Ht Hm] Hnone].
    split; [assumption|].
    split; [apply scheduler_destroyed; now rewrite (destroyed_run later _ _ Hd Hlater)|].
    split; [assumption|].
    split; [intros handle; unfold step; now rewrite Ht|].
    assert (Hc : consistent w').
    { eapply consistent_run; [|exact Hlater]. now apply consistent_onDestroy. }
    apply Hc.
Qed.

End Scheduler.

(** ** The store: what a merge does to the array *)

Section StoreFacts.
Context `{Host}.

Lemma alter_present (f : list ChatEvent -> list ChatEvent) (r : nat)
    (elems : list ChatEvent) (s : gmap nat (list ChatEvent)) :
  s !! r = Some elems -> alter f r s = <[r := f elems]> s.
Proof.
  intros Hr. apply map_eq. intros k.
  rewrite lookup_alter, lookup_insert.
  case_decide; [subst; now rewrite Hr|reflexivity].
Qed.

(** One call of the callback changes the array at [msgs] as [processEvent]
    says, and nothing else. *)
Lemma Store_callback_spec (msgs : nat) (elems : list ChatEvent)
    (s : gmap nat (list ChatEvent)) (event : Api.EventResponse) :
  s !! msgs = Some elems ->
  Store.callback msgs event s
  = match processEvent elems event with
    | Normal elems' => (Normal tt, <[msgs := elems']> s)
    | Throw e => (Throw e, <[msgs := elems]> s)
    end.
Proof.
  intros Hr. unfold Store.callback, processEvent, unseen.
  destruct (skipped event).
  { unfold mret, St_ret. now rewrite insert_id. }
  unfold mbind, St_bind, Store.read, lift, Store.push. rewrite Hr. simpl.
  destruct (findIndex _ elems =? -1).
  - destruct (topic0_address event) as [topic0|e].
    + now rewrite (alter_present _ msgs elems).
    + now rewrite insert_id.
  - unfold mret, St_ret. now rewrite insert_id.
Qed.

Lemma Store_forEach_spec (msgs : nat) (events : list Api.EventResponse) :
  forall (elems : list ChatEvent) (s : gmap nat (list ChatEvent)),
    s !! msgs = Some elems ->
    Store.forEach events (Store.callback msgs) s
    = (match snd (forEachEvent elems events) with
       | None => Normal tt
       | Some e => Throw e
       end,
       <[msgs := fst (forEachEvent elems events)]> s).
Proof.
  induction events as [|event rest IH]; intros elems s Hr; simpl.
  - unfold mret, St_ret. now rewrite insert_id.
  - unfold mbind, St_bind. rewrite (Store_callback_spec msgs elems s event Hr).
    destruct (processEvent elems event) as [elems'|e]; simpl; [|reflexivity].
    rewrite (IH elems' (<[msgs := elems']> s)) by apply lookup_insert_eq.
    now rewrite insert_insert_eq.
Qed.

(** [getEvents] returns the reference it was given; the array behind it
    now holds what [getEvents] computes on its elements. *)
Lemma Store_getEvents_spec (msgs : nat) (elems : list ChatEvent)
    (s : gmap nat (list ChatEvent)) (lim : Limit) (found : bool)
    (rpc_getEvents : GetEventsRequest -> completion (list Api.EventResponse)) :
  s !! msgs = Some elems ->
  Store.getEvents msgs lim found rpc_getEvents s
  = (Normal msgs, <[msgs := getEvents elems lim found rpc_getEvents]> s).
Proof.
  intros Hr. unfold Store.getEvents, getEvents, try_catch, mbind, St_bind, lift.
  destruct (rpc_getEvents (getEventsRequest lim)) as [events|e].
  - rewrite (Store_forEach_spec msgs events elems s Hr).
    destruct (snd (forEachEvent elems events)); reflexivity.
  - unfold mret, St_ret. now rewrite insert_id.
Qed.

Lemma Store_callGetEvents_spec (msgs : nat) (elems : list ChatEvent)
    (s : gmap nat (list ChatEvent)) (lim : Limit) (found : bool)
    (rpc_getEvents : GetEventsRequest -> completion (list Api.EventResponse)) :
  s !! msgs = Some elems ->
  Store.callGetEvents msgs lim found rpc_getEvents s
  = (Normal msgs, <[msgs := callGetEvents elems lim found rpc_getEvents]> s).
Proof.
  intros Hr. unfold Store.callGetEvents, mbind, St_bind.
  rewrite (Store_getEvents_spec msgs elems s lim found rpc_getEvents Hr).
  unfold Store.sort, callGetEvents.
  rewrite (alter_present _ msgs (getEvents elems lim found rpc_getEvents))
    by apply lookup_insert_eq.
  now rewrite insert_insert_eq.
Qed.

Lemma Store_callGetMessages_spec (fetched : completion string)
    (s : gmap nat (list ChatEvent)) :
  exists rows,
    getMessages fetched = Normal rows
    /\ Store.callGetMessages fetched s
       = (Normal (fresh (dom s)),
          <[fresh (dom s) := Array_sort byTimestamp rows]> s).
Proof.
  assert (Hnew : forall rows,
    (msgs ← Store.alloc rows; Store.sort msgs byTimestamp) s
    = (Normal (fresh (dom s)), <[fresh (dom s) := Array_sort byTimestamp rows]> s)).
  { intros rows. unfold mbind, St_bind, Store.alloc, Store.sort.
    rewrite (alter_present _ _ rows) by apply lookup_insert_eq.
    now rewrite insert_insert_eq. }
  unfold Store.callGetMessages, Store.getMessages, getMessages.
  destruct fetched as [body|e].
  - destruct (processResponse body) as [rows|e] eqn:Hbody.
    + exists rows. split; [reflexivity|]. rewrite <- Hnew.
      unfold try_catch, mbind, St_bind, lift, Store.alloc. now rewrite Hbody.
    + exists []. split; [reflexivity|]. rewrite <- Hnew.
      unfold try_catch, mbind, St_bind, lift, Store.alloc. now rewrite Hbody.
  - exists []. split; [reflexivity|]. rewrite <- Hnew.
    unfold try_catch, mbind, St_bind, lift, Store.alloc. reflexivity.
Qed.

(** C7, as amended: a live merge builds no new list.  [getEvents] appends
    to the very array it was given and returns it; [callGetEvents] sorts
    that same array in place and assigns the same reference back to [msgs].
    In the store only that array changes and no array is added.  Only the
    historical seed publishes another array: a new one, then sorted in
    place, which leaves the array published before as it was. *)
Theorem live_merge_in_place (msgs : nat) (elems : list ChatEvent)
    (s : gmap nat (list ChatEvent)) (lim : Limit) (found : bool)
    (rpc_getEvents : GetEventsRequest -> completion (list Api.EventResponse)) :
  s !! msgs = Some elems ->
  Store.getEvents msgs lim found rpc_getEvents s
  = (Normal msgs, <[msgs := getEvents elems lim found rpc_getEvents]> s)
  /\ (exists added, getEvents elems lim found rpc_getEvents = (elems ++ added)%list)
  /\ Store.callGetEvents msgs lim found rpc_getEvents s
     = (Normal msgs, <[msgs := callGetEvents elems lim found rpc_getEvents]> s)
  /\ dom (<[msgs := callGetEvents elems lim found rpc_getEvents]> s) = dom s
  /\ (forall fetched, exists r rows s',
        getMessages fetched = Normal rows
        /\ Store.callGetMessages fetched s = (Normal r, s')
        /\ r <> msgs
        /\ s' !! r = Some (Array_sort byTimestamp rows)
        /\ s' !! msgs = Some elems).
Proof.
  intros Hr.
  split; [now apply Store_getEvents_spec|]. split; [|split; [|split]].
  - unfold getEvents. destruct (rpc_getEvents (getEventsRequest lim)) as [events|e].
    + apply forEachEvent_appends.
    + exists []. now rewrite app_nil_r.
  - now apply Store_callGetEvents_spec.
  - rewrite dom_insert_L.
    apply subseteq_union_1_L, singleton_subseteq_l, elem_of_dom. eauto.
  - intros fetched.
    destruct (Store_callGetMessages_spec fetched s) as (rows & Hrows & Hcall).
    assert (Hfresh : fresh (dom s) <> msgs).
    { intros Heq. apply (is_fresh (dom s)). rewrite Heq. apply elem_of_dom. eauto. }
    exists (fresh (dom s)), rows, (<[fresh (dom s) := Array_sort byTimestamp rows]> s).
    split; [assumption|]. split; [assumption|]. split; [assumption|].
    split; [apply lookup_insert_eq|]. now rewrite lookup_insert_ne.
Qed.

End StoreFacts.

(** ** The claims at concrete inputs *)

Lemma sample_arrives : @arrives demoHost events34 live34.
Proof. repeat constructor. Qed.

Lemma NoDup_ids_historical123 : NoDup (ids historical123).
Proof. apply (bool_decide_unpack _). vm_compute. exact I. Qed.

(** The scenario of the specification: ids 1, 2, 3 merged with ids 3, 4
    give 1, 2, 3, 4, each once. *)
Lemma reconcile_ids_once_witness :
  NoDup (ids historical123)
  /\ @arrives demoHost events34 live34
  /\ ids (@callGetEvents demoHost historical123 (LimitNumber 0) false (answering events34))
     = ["1"; "2"; "3"; "4"]
  /\ NoDup (ids (@callGetEvents demoHost historical123 (LimitNumber 0) false
                   (answering events34)))
  /\ count_occ string_dec
       (ids (@callGetEvents demoHost historical123 (LimitNumber 0) false
               (answering events34))) "3" = 1%nat.
Proof.
  destruct (@reconcile_ids_once demoHost historical123 live34 events34
              (LimitNumber 0) false (answering events34)
              NoDup_ids_historical123 eq_refl sample_arrives)
    as (Hnd & Honce & _).
  split; [exact NoDup_ids_historical123|]. split; [exact sample_arrives|].
  split; [reflexivity|]. split; [exact Hnd|].
  apply Honce. right. apply (bool_decide_unpack _). vm_compute. exact I.
Defined.

(** C1 as stated fails for a list that already holds an id twice: nothing
    is fetched, and the id is in the result twice. *)
Lemma reconcile_keeps_duplicates_of_current :
  @arrives demoHost [] []
  /\ "1" ∈ ids twice1
  /\ count_occ string_dec
       (ids (@callGetEvents demoHost twice1 (LimitNumber 0) false (answering []))) "1"
     = 2%nat
  /\ ~ NoDup (ids (@callGetEvents demoHost twice1 (LimitNumber 0) false (answering []))).
Proof.
  split; [constructor|]. split; [apply (bool_decide_unpack _); vm_compute; exact I|].
  split; [reflexivity|].
  apply (bool_decide_unpack _). vm_compute. exact I.
Qed.

Lemma reconcile_idempotent_witness :
  @callGetEvents demoHost live34 (LimitNumber 0) false (answering [])
  = Array_sort byTimestamp live34
  /\ @callGetEvents demoHost live34 (LimitNumber 0) false (answering events34)
     = @callGetEvents demoHost live34 (LimitNumber 0) false (answering [])
  /\ @callGetEvents demoHost
       (@callGetEvents demoHost historical123 (LimitNumber 0) false (answering events34))
       (LimitNumber 0) false (answering events34)
     = @callGetEvents demoHost historical123 (LimitNumber 0) false (answering events34).
Proof.
  destruct (@reconcile_idempotent demoHost live34 (LimitNumber 0) false (answering []))
    as (Hnothing & _ & _).
  destruct (@reconcile_idempotent demoHost live34 (LimitNumber 0) false
              (answering events34)) as (_ & Hitself & _).
  destruct (@reconcile_idempotent demoHost historical123 (LimitNumber 0) false
              (answering events34)) as (_ & _ & Hagain).
  split; [exact (proj1 (Hnothing eq_refl))|].
  split; [exact (Hitself events34 sample_arrives eq_refl)|exact Hagain].
Defined.

Lemma other_discriminator_sender_undefined_witness :
  @skipped muxedEvent = false
  /\ (Api.id muxedEvent ∉ ids historical123)
  /\ exists record,
       @processEvent demoHost historical123 muxedEvent
       = Normal (historical123 ++ [record])%list
       /\ id record = "7" /\ addr record = None.
Proof.
  assert (Hnew : Api.id muxedEvent ∉ ids historical123).
  { apply (bool_decide_unpack _). vm_compute. exact I. }
  split; [reflexivity|]. split; [exact Hnew|].
  destruct (@other_discriminator_sender_undefined demoHost historical123 muxedEvent
              {| switch_name := "scAddressTypeMuxedAccount";
                 arm := list_byte_of_string "ABC" |} []
              eq_refl Hnew eq_refl ltac:(discriminate) ltac:(discriminate))
    as (record & Hp & Hid & Haddr & _).
  exists record. auto.
Defined.

(** C4 fails on the code for an address of a third kind: the record is
    produced, but its sender is undefined, not the string "unknown", although
    [ChatEvent] declares [addr: string]; the sender expression of the
    template then throws. *)
Lemma muxed_sender_is_not_unknown :
  map addr (@getEvents demoHost [] (LimitNumber 0) false (answering [muxedEvent]))
  = [None]
  /\ map addr (@getEvents demoHost [] (LimitNumber 0) false (answering [muxedEvent]))
     <> [Some "unknown"]
  /\ map senderLabel
       (@getEvents demoHost [] (LimitNumber 0) false (answering [muxedEvent]))
     = [Throw "TypeError"].
Proof.
  split; [reflexivity|]. split; [vm_compute; discriminate|reflexivity].
Qed.

(** Two records that closed at the same time arrive after a later one:
    they are moved before it and stay in the order of their arrival. *)
Lemma merges_chronological_stable_witness :
  let rpc := answering [sampleEvent "9" "scAddressTypeAccount" "50" "late";
                        sampleEvent "8" "scAddressTypeAccount" "40" "x";
                        sampleEvent "4" "scAddressTypeAccount" "40" "d"] in
  ids (@getEvents demoHost historical123 (LimitNumber 0) false rpc)
  = ["1"; "2"; "3"; "9"; "8"; "4"]
  /\ ids (@callGetEvents demoHost historical123 (LimitNumber 0) false rpc)
     = ["1"; "2"; "3"; "8"; "4"; "9"]
  /\ chronological (@callGetEvents demoHost historical123 (LimitNumber 0) false rpc)
  /\ at_time 40 (@callGetEvents demoHost historical123 (LimitNumber 0) false rpc)
     = at_time 40 (@getEvents demoHost historical123 (LimitNumber 0) false rpc)
  /\ @run demoHost initial startInputs = Some (stateAfter startInputs)
  /\ chronological (Welcome.msgs (stateAfter startInputs)).
Proof.
  intros rpc.
  destruct (@merges_chronological_stable demoHost) as (Hlive & _ & Hstate).
  destruct (Hlive historical123 (LimitNumber 0) false rpc) as (Hsorted & _ & Hstable).
  assert (Hrun : @run demoHost initial startInputs = Some (stateAfter startInputs))
    by (vm_compute; reflexivity).
  split; [vm_compute; reflexivity|]. split; [vm_compute; reflexivity|].
  split; [exact Hsorted|]. split; [exact (Hstable 40)|].
  split; [exact Hrun|]. exact (Hstate startInputs _ Hrun).
Defined.

Lemma failed_fetch_keeps_list_witness :
  @getEvents demoHost historical123 (LimitNumber 0) false unavailable = historical123
  /\ (let inputs := (startInputs
                      ++ [TimerFired 1; LatestLedgerSettled (Some 0%nat) (Normal 600010)])%list in
      let w := stateAfter inputs in
      @run demoHost initial inputs = Some w
      /\ Welcome.ticks w !! 0%nat = Some (TickAwaitEvents (LimitNumber 582730))
      /\ ids (Welcome.msgs w) = ["1"; "2"; "3"; "4"]
      /\ exists w', @step demoHost w (EventsSettled (Some 0%nat) unavailable) = Some w'
                    /\ Welcome.msgs w' = Welcome.msgs w)
  /\ (let w := stateAfter (startInputs ++ [TimerFired 1]) in
      Welcome.ticks w !! 0%nat = Some TickAwaitLatestLedger
      /\ exists w', @step demoHost w (LatestLedgerSettled (Some 0%nat) (Throw "RpcUnavailable"))
                    = Some w'
                    /\ Welcome.msgs w' = Welcome.msgs w).
Proof.
  destruct (@failed_fetch_keeps_list demoHost) as (Hsame & Hquery & Hledger).
  split; [|split].
  - exact (Hsame historical123 (LimitNumber 0) false unavailable "RpcUnavailable" eq_refl).
  - intros inputs w.
    assert (Hrun : @run demoHost initial inputs = Some w) by (vm_compute; reflexivity).
    assert (Hk : Welcome.ticks w !! 0%nat = Some (TickAwaitEvents (LimitNumber 582730)))
      by (vm_compute; reflexivity).
    split; [exact Hrun|]. split; [exact Hk|]. split; [vm_compute; reflexivity|].
    exact (Hquery inputs w 0%nat (LimitNumber 582730) unavailable "RpcUnavailable"
             Hrun Hk eq_refl).
  - intros w.
    assert (Hk : Welcome.ticks w !! 0%nat = Some TickAwaitLatestLedger)
      by (vm_compute; reflexivity).
    split; [exact Hk|]. exact (Hledger w 0%nat "RpcUnavailable" Hk).
Defined.

Lemma tick_scans_look_back_window_witness :
  (let w := stateAfter startInputs in
   1%nat ∈ Welcome.timers w
   /\ @step demoHost w (TimerFired 1)
      = Some (with_ticks (Welcome.ticks w ++ [TickAwaitLatestLedger])%list w))
  /\ (let w := stateAfter (startInputs ++ [TimerFired 1]) in
      Welcome.ticks w !! 0%nat = Some TickAwaitLatestLedger
      /\ exists w1 w2,
           @step demoHost w (LatestLedgerSettled (Some 0%nat) (Normal 600010)) = Some w1
           /\ Welcome.ticks w1 !! 0%nat = Some (TickAwaitEvents (lookBack 600010))
           /\ @step demoHost w1
                (EventsSettled (Some 0%nat) (windowServer 582730 [earlyEvent])) = Some w2
           /\ ids (Welcome.msgs w2) = ["0"; "1"; "2"; "3"; "4"])
  /\ startLedger (@getEventsRequest demoHost (lookBack 600010)) = Some 582730
  /\ cursor (@getEventsRequest demoHost (lookBack 600010)) = None.
Proof.
  destruct (@tick_scans_look_back_window demoHost) as (Hfire & Htick & _ & Hreq).
  split; [|split; [|split]].
  - intros w.
    assert (Hin : 1%nat ∈ Welcome.timers w).
    { apply (bool_decide_unpack _). vm_compute. exact I. }
    split; [exact Hin|]. exact (Hfire w 1%nat Hin).
  - intros w.
    assert (Hk : Welcome.ticks w !! 0%nat = Some TickAwaitLatestLedger)
      by (vm_compute; reflexivity).
    split; [exact Hk|].
    destruct (Htick w 0%nat 600010 (windowServer 582730 [earlyEvent]) Hk)
      as (w1 & w2 & Hs1 & Hk1 & _ & Hs2 & Hmsgs).
    exists w1, w2. split; [exact Hs1|]. split; [exact Hk1|]. split; [exact Hs2|].
    rewrite Hmsgs. vm_compute. reflexivity.
  - now rewrite (Hreq 600010).
  - now rewrite (Hreq 600010).
Defined.

(** C6 as stated fails.  The first fetch of the session asks for the ledgers
    from 582720 on, without a cursor.  A tick then fetches a new record; the
    tick after it, with the same latest ledger, still gets what the server
    holds for the request that starts at 582720 without a cursor, and gets
    nothing of what the server holds for requests that carry a cursor. *)
Lemma second_tick_scans_same_window :
  let first := [Mount; MessagesSettled (Normal "rows");
                LatestLedgerSettled None (Normal 600000);
                EventsSettled None (windowServer 582720 events34)] in
  let tick1 := [TimerFired 1; LatestLedgerSettled (Some 0%nat) (Normal 600000);
                EventsSettled (Some 0%nat) (windowServer 582720 [earlyEvent])] in
  let tick2 (rpc : GetEventsRequest -> completion (list Api.EventResponse)) :=
    [TimerFired 1; LatestLedgerSettled (Some 0%nat) (Normal 600000);
     EventsSettled (Some 0%nat) rpc] in
  ids (Welcome.msgs (stateAfter first)) = ["1"; "2"; "3"; "4"]
  /\ ids (Welcome.msgs (stateAfter (first ++ tick1))) = ["0"; "1"; "2"; "3"; "4"]
  /\ @run demoHost initial
       (first ++ tick1
        ++ tick2 (windowServer 582720
                    [sampleEvent "9" "scAddressTypeAccount" "90" "late"]))
     <> None
  /\ ids (Welcome.msgs
            (stateAfter
               (first ++ tick1
                ++ tick2 (windowServer 582720
                            [sampleEvent "9" "scAddressTypeAccount" "90" "late"]))))
     = ["0"; "1"; "2"; "3"; "4"; "9"]
  /\ ids (Welcome.msgs
            (stateAfter
               (first ++ tick1
                ++ tick2 (cursorServer
                            [sampleEvent "9" "scAddressTypeAccount" "90" "late"]))))
     = ["0"; "1"; "2"; "3"; "4"].
Proof.
  intros first tick1 tick2.
  split; [vm_compute; reflexivity|]. split; [vm_compute; reflexivity|].
  split; [vm_compute; discriminate|].
  split; vm_compute; reflexivity.
Qed.

Lemma historical_failure_empty_witness :
  @getMessages demoHost (Throw "IndexerUnavailable") = Normal []
  /\ @processResponse demoHost "" = Throw "SyntaxError"
  /\ @getMessages demoHost (Normal "") = Normal []
  /\ Welcome.mount (stateAfter [Mount]) = AwaitMessages
  /\ exists w', @step demoHost (stateAfter [Mount]) (MessagesSettled (Throw "IndexerUnavailable"))
                = Some w'
                /\ Welcome.msgs w' = [] /\ Welcome.mount w' = AwaitLatestLedger
                /\ Welcome.error w' = Welcome.error (stateAfter [Mount]).
Proof.
  destruct (@historical_failure_empty demoHost) as (Hrejected & Hmalformed & _ & Hmount).
  assert (Hm : Welcome.mount (stateAfter [Mount]) = AwaitMessages)
    by (vm_compute; reflexivity).
  split; [exact (Hrejected "IndexerUnavailable")|].
  split; [reflexivity|].
  split; [exact (Hmalformed "" "SyntaxError" eq_refl)|].
  split; [exact Hm|].
  exact (Hmount (stateAfter [Mount]) "IndexerUnavailable" Hm).
Defined.

(** A session that is torn down, after the interval was set, while a
    callback is in flight: the callback still merges what it fetched, and
    then nothing more can happen. *)
Lemma teardown_after_interval_cancels_example :
  let inputs := (startInputs ++ [TimerFired 1])%list in
  let later := [LatestLedgerSettled (Some 0%nat) (Normal 600010);
                EventsSettled (Some 0%nat) (answering [earlyEvent])] in
  let w := stateAfter inputs in
  let w' := stateAfter (inputs ++ Destroy :: later) in
  @run demoHost initial inputs = Some w
  /\ Welcome.interval w = Some 1%nat
  /\ @run demoHost w (Destroy :: later) = Some w'
  /\ Forall (fun i => isTimerFired i = false) later
  /\ scheduler w' = Stopped
  /\ Welcome.timers w' = []
  /\ @step demoHost w' (TimerFired 1) = None
  /\ ids (Welcome.msgs w') = ["0"; "1"; "2"; "3"; "4"].
Proof.
  intros inputs later w w'.
  assert (Hrun : @run demoHost initial inputs = Some w) by (vm_compute; reflexivity).
  assert (Hlive : Welcome.destroyed w = false) by (vm_compute; reflexivity).
  assert (Hint : Welcome.interval w = Some 1%nat) by (vm_compute; reflexivity).
  assert (Hlater : @run demoHost w (Destroy :: later) = Some w') by (vm_compute; reflexivity).
  destruct (@teardown_after_interval_cancels demoHost inputs later w w' 1%nat
              Hrun Hlive Hint) as (_ & Hafter).
  destruct (Hafter Hlater) as (Hnone & Hstopped & Htimers & Hfire & _).
  split; [exact Hrun|]. split; [exact Hint|]. split; [exact Hlater|].
  split; [exact Hnone|]. split; [exact Hstopped|]. split; [exact Htimers|].
  split; [exact (Hfire 1%nat)|vm_compute; reflexivity].
Qed.

Lemma live_merge_in_place_witness :
  let s : gmap nat (list ChatEvent) := {[ 0%nat := historical123 ]} in
  s !! 0%nat = Some historical123
  /\ @Store.callGetEvents demoHost 0%nat (LimitNumber 0) false (answering events34) s
     = (Normal 0%nat,
        <[0%nat := @callGetEvents demoHost historical123 (LimitNumber 0) false
                     (answering events34)]> s)
  /\ exists r rows s',
       @getMessages demoHost (Normal "rows") = Normal rows
       /\ @Store.callGetMessages demoHost (Normal "rows") s = (Normal r, s')
       /\ r <> 0%nat
       /\ s' !! r = Some (Array_sort byTimestamp rows)
       /\ s' !! 0%nat = Some historical123.
Proof.
  intros s.
  assert (Hs : s !! 0%nat = Some historical123) by apply lookup_singleton_eq.
  destruct (@live_merge_in_place demoHost 0%nat historical123 s (LimitNumber 0) false
              (answering events34) Hs) as (_ & _ & Hcall & _ & Hseed).
  split; [exact Hs|]. split; [exact Hcall|]. exact (Hseed (Normal "rows")).
Defined.

(** C7 as stated fails: a live fetch appends the new record to the array
    that is published, moves it to the front of that same array, and
    publishes the same reference again. *)
Lemma live_merge_appends_and_reorders_published_array :
  let s : gmap nat (list ChatEvent) := {[ 0%nat := historical123 ]} in
  let after := @Store.callGetEvents demoHost 0%nat (LimitNumber 0) false
                 (answering [earlyEvent]) s in
  ids <$> (s !! 0%nat) = Some ["1"; "2"; "3"]
  /\ fst (@Store.getEvents demoHost 0%nat (LimitNumber 0) false (answering [earlyEvent]) s)
     = Normal 0%nat
  /\ ids <$> (snd (@Store.getEvents demoHost 0%nat (LimitNumber 0) false
                     (answering [earlyEvent]) s) !! 0%nat)
     = Some ["1"; "2"; "3"; "0"]
  /\ fst after = Normal 0%nat
  /\ ids <$> (snd after !! 0%nat) = Some ["0"; "1"; "2"; "3"]
  /\ snd after !! 0%nat <> s !! 0%nat.
Proof.
  intros s after.
  assert (Hs : s !! 0%nat = Some historical123) by apply lookup_singleton_eq.
  unfold after.
  rewrite (@Store_getEvents_spec demoHost 0%nat historical123 s _ _ _ Hs).
  rewrite (@Store_callGetEvents_spec demoHost 0%nat historical123 s _ _ _ Hs).
  simpl fst. simpl snd. rewrite !lookup_insert_eq, Hs.
  split; [reflexivity|]. split; [reflexivity|]. split; [vm_compute; reflexivity|].
  split; [reflexivity|]. split; [vm_compute; reflexivity|].
  vm_compute. discriminate.
Qed.

(** C9 fails on the code when the session is torn down while [onMount]
    still awaits its first fetches.  The scheduler is running; teardown stops
    it, but [interval] is not set yet and [onDestroy] cancels nothing;
    [onMount] then goes on and sets the interval.  In the stopped state the
    interval is active, its timer fires, and the callback starts a new
    fetch. *)
Lemma teardown_before_interval_is_set :
  let settle := [MessagesSettled (Normal "rows");
                 LatestLedgerSettled None (Normal 600000);
                 EventsSettled None (answering events34)] in
  let w := stateAfter ([Mount; Destroy] ++ settle) in
  let w' := stateAfter ([Mount; Destroy] ++ settle
                        ++ [TimerFired 1;
                            LatestLedgerSettled (Some 0%nat) (Normal 600010)]) in
  scheduler (stateAfter [Mount]) = Running
  /\ @step demoHost (stateAfter [Mount]) Destroy = Some (stateAfter [Mount; Destroy])
  /\ scheduler (stateAfter [Mount; Destroy]) = Stopped
  /\ @run demoHost (stateAfter [Mount; Destroy]) settle = Some w
  /\ scheduler w = Stopped
  /\ Welcome.timers w = [1%nat]
  /\ @run demoHost w [TimerFired 1; LatestLedgerSettled (Some 0%nat) (Normal 600010)]
     = Some w'
  /\ Welcome.ticks w' = [TickAwaitEvents (LimitNumber 582730)].
Proof.
  intros settle w w'.
  split; [vm_compute; reflexivity|]. split; [vm_compute; reflexivity|].
  split; [vm_compute; reflexivity|]. split; [vm_compute; reflexivity|].
  split; [vm_compute; reflexivity|]. split; [vm_compute; reflexivity|].
  split; vm_compute; reflexivity.
Qed.

(** * Further properties of the code *)

(** ** The loop of [getEvents] *)

Section LoopFacts.
Context `{Host}.

Lemma forEachEvent_app (xs ys : list Api.EventResponse) : forall msgs,
  forEachEvent msgs (xs ++ ys)
  = match forEachEvent msgs xs with
    | (msgs', None) => forEachEvent msgs' ys
    | (msgs', Some e) => (msgs', Some e)
    end.
Proof.
  induction xs as [|x xs IH]; intros msgs; simpl; [reflexivity|].
  destruct (processEvent msgs x) as [msgs'|e]; [apply IH|reflexivity].
Qed.

Lemma forEachEvent_harmless (events : list Api.EventResponse) : forall msgs,
  Forall (fun event => harmless event = true) events ->
  snd (forEachEvent msgs events) = None.
Proof.
  induction events as [|ev rest IH]; intros msgs Hall; simpl; [reflexivity|].
  apply Forall_cons in Hall as [Hev Hall].
  destruct (processEvent_cases msgs ev)
    as [[-> _]|[(topic0 & _ & _ & _ & ->)|(e & Hs & _ & Ht & ->)]].
  - now apply IH.
  - now apply IH.
  - unfold harmless in Hev. rewrite Hs, Ht in Hev. discriminate.
Qed.

(** X1: Events of another type, or without a contract id, are passed over
    wherever they stand in the answer: the list returned is the one returned
    for the answer without them. *)
Theorem getEvents_ignores_skipped (msgs : list ChatEvent) (lim : Limit) (found : bool)
    (events : list Api.EventResponse) :
  getEvents msgs lim found (answering events)
  = getEvents msgs lim found
      (answering (List.filter (fun event => negb (skipped event)) events)).
Proof.
  unfold getEvents, answering. f_equal.
  revert msgs. induction events as [|ev rest IH]; intros msgs; [reflexivity|].
  simpl. destruct (skipped ev) eqn:Hs; simpl.
  - unfold processEvent. rewrite Hs. apply IH.
  - destruct (processEvent msgs ev); [apply IH|reflexivity].
Qed.

(** X2: An event that passes the filter, has a new id and has no address as its
    first topic ends the loop: the records pushed before it stay, the events
    after it are not looked at, and [getEvents] still returns.  When its id
    is already in the list it is passed over like any known event. *)
Theorem malformed_event_ends_batch (msgs : list ChatEvent) (lim : Limit) (found : bool)
    (before after : list Api.EventResponse) (bad : Api.EventResponse) (e : string) :
  skipped bad = false ->
  topic0_address bad = Throw e ->
  (Api.id bad ∉ ids (getEvents msgs lim found (answering before)) ->
   getEvents msgs lim found (answering (before ++ bad :: after))
   = getEvents msgs lim found (answering before))
  /\ (Api.id bad ∈ ids msgs ->
      getEvents msgs lim found (answering (bad :: after))
      = getEvents msgs lim found (answering after)).
Proof.
  intros Hs Ht. unfold getEvents, answering. split.
  - intros Hnew. rewrite forEachEvent_app.
    destruct (forEachEvent msgs before) as [msgs' [e'|]] eqn:Hbefore; [reflexivity|].
    simpl in *. unfold processEvent. rewrite Hs, Ht.
    apply unseen_spec in Hnew. now rewrite Hnew.
  - intros Hseen. simpl. unfold processEvent. rewrite Hs.
    destruct (unseen msgs bad) eqn:Hu; [|reflexivity].
    apply unseen_spec in Hu. contradiction.
Qed.

(** X3: The first event of an id wins: when the loop reaches an event that
    passes the filter and whose id is neither in the list nor carried by an
    earlier event that passed the filter, its record is in the result; and if
    the ids of the list were distinct, it is the only record of that id, so
    later events of the same id add nothing. *)
Theorem first_event_of_an_id_wins (msgs : list ChatEvent) (lim : Limit) (found : bool)
    (before after : list Api.EventResponse) (event : Api.EventResponse)
    (record : ChatEvent) :
  Forall (fun ev => harmless ev = true) before ->
  Forall (fun ev => skipped ev = true \/ Api.id ev <> Api.id event) before ->
  Api.id event ∉ ids msgs ->
  decodeEvent event = Some record ->
  record ∈ getEvents msgs lim found (answering (before ++ event :: after))
  /\ (NoDup (ids msgs) ->
      forall other,
        other ∈ getEvents msgs lim found (answering (before ++ event :: after)) ->
        id other = Api.id event -> other = record).
Proof.
  intros Hharmless Hothers Hnew Hrec.
  destruct (decodeEvent_Some event record Hrec) as [Hs Hid].
  unfold getEvents, answering. rewrite forEachEvent_app.
  pose proof (forEachEvent_harmless before msgs Hharmless) as Hend.
  destruct (forEachEvent msgs before) as [msgs' r] eqn:Hbefore.
  simpl in Hend. subst r.
  assert (Hnew' : Api.id event ∉ ids msgs').
  { intros Hin. replace msgs' with (fst (forEachEvent msgs before)) in Hin
      by now rewrite Hbefore.
    apply forEachEvent_ids_from in Hin as [Hin|(ev & Hev & Hsk & Hi)]; [contradiction|].
    rewrite Forall_forall in Hothers. destruct (Hothers ev Hev); congruence. }
  assert (Hpush : processEvent msgs' event = Normal (msgs' ++ [record])%list).
  { unfold processEvent. rewrite Hs. apply unseen_spec in Hnew'. rewrite Hnew'.
    unfold decodeEvent in Hrec. rewrite Hs in Hrec.
    destruct (topic0_address event); [|discriminate]. now injection Hrec as ->. }
  simpl. rewrite Hpush.
  destruct (forEachEvent_appends after (msgs' ++ [record])%list) as [added Hadded].
  assert (Hin : record ∈ fst (forEachEvent (msgs' ++ [record])%list after)).
  { rewrite Hadded. apply elem_of_app. left. apply elem_of_app. right.
    now apply list_elem_of_singleton. }
  split; [exact Hin|].
  intros Hnd other Hother Hoid.
  assert (Hnd' : NoDup (ids (fst (forEachEvent (msgs' ++ [record])%list after)))).
  { apply forEachEvent_NoDup. replace msgs' with (fst (forEachEvent msgs before))
      by now rewrite Hbefore.
    rewrite ids_snoc. apply NoDup_app. split; [now apply forEachEvent_NoDup|].
    split; [|apply NoDup_singleton].
    intros i Hi Hi'. apply list_elem_of_singleton in Hi'. subst i.
    rewrite Hbefore in Hi. simpl in Hi. rewrite Hid in Hi. contradiction. }
  unfold ids in Hnd'.
  apply list_elem_of_lookup in Hin as [j Hj].
  apply list_elem_of_lookup in Hother as [k Hk].
  assert (j = k) as <-.
  { eapply NoDup_lookup; [exact Hnd'| |].
    - rewrite list_lookup_fmap, Hj. reflexivity.
    - rewrite list_lookup_fmap, Hk. simpl. congruence. }
  congruence.
Qed.

(** X4: Merging two answers one after the other yields the same ids whichever
    comes first, when no event of either can throw; with distinct ids to
    start from, the two results have the same ids, each once. *)
Theorem merge_order_same_ids (A : list ChatEvent) (lim : Limit) (found : bool)
    (E1 E2 : list Api.EventResponse) :
  Forall (fun ev => harmless ev = true) E1 ->
  Forall (fun ev => harmless ev = true) E2 ->
  (forall i,
      i ∈ ids (callGetEvents (callGetEvents A lim found (answering E1)) lim found (answering E2))
      <-> i ∈ ids (callGetEvents (callGetEvents A lim found (answering E2)) lim found (answering E1)))
  /\ (NoDup (ids A) ->
      NoDup (ids (callGetEvents (callGetEvents A lim found (answering E1)) lim found
                    (answering E2)))
      /\ NoDup (ids (callGetEvents (callGetEvents A lim found (answering E2)) lim found
                       (answering E1)))
      /\ Permutation
           (ids (callGetEvents (callGetEvents A lim found (answering E1)) lim found
                   (answering E2)))
           (ids (callGetEvents (callGetEvents A lim found (answering E2)) lim found
                   (answering E1)))).
Proof.
  intros H1 H2.
  assert (Hchar : forall B E, Forall (fun ev => harmless ev = true) E ->
            forall i, i ∈ ids (callGetEvents B lim found (answering E))
                      <-> i ∈ ids B
                          \/ exists ev, ev ∈ E /\ skipped ev = false /\ Api.id ev = i).
  { intros B E HE i. rewrite callGetEvents_ids. unfold getEvents, answering. split.
    - apply forEachEvent_ids_from.
    - intros [Hi|(ev & Hev & Hs & <-)].
      + now apply forEachEvent_keeps_ids.
      + apply forEachEvent_ids_to; [|assumption..].
        now apply forEachEvent_harmless. }
  assert (Hsame : forall i,
      i ∈ ids (callGetEvents (callGetEvents A lim found (answering E1)) lim found (answering E2))
      <-> i ∈ ids (callGetEvents (callGetEvents A lim found (answering E2)) lim found (answering E1))).
  { intros i. rewrite !Hchar by assumption. tauto. }
  split; [exact Hsame|].
  intros HA.
  assert (Hnd : forall E E',
            NoDup (ids (callGetEvents (callGetEvents A lim found (answering E)) lim found
                          (answering E')))).
  { intros E E'. unfold callGetEvents at 1. rewrite Array_sort_ids.
    apply getEvents_NoDup. unfold callGetEvents. rewrite Array_sort_ids.
    now apply getEvents_NoDup. }
  split; [apply Hnd|]. split; [apply Hnd|].
  apply NoDup_Permutation; [apply Hnd|apply Hnd|exact Hsame].
Qed.

(** X5: The sender of a record pushed by the callback can be shown exactly when
    the discriminator of the address was one of the two the [switch] knows;
    for any other the template expression throws. *)
Theorem sender_shown_for_known_kinds (msgs : list ChatEvent)
    (event : Api.EventResponse) (topic0 : ScAddress) (rest : list ScVal) :
  skipped event = false ->
  Api.id event ∉ ids msgs ->
  Api.topic event = scvAddress topic0 :: rest ->
  exists record,
    processEvent msgs event = Normal (msgs ++ [record])%list
    /\ (senderLabel record = Throw "TypeError"
        <-> switch_name topic0 <> "scAddressTypeAccount"
            /\ switch_name topic0 <> "scAddressTypeContract")
    /\ (switch_name topic0 = "scAddressTypeAccount" ->
        senderLabel record = Normal (truncate (Address_account (arm topic0)) 4))
    /\ (switch_name topic0 = "scAddressTypeContract" ->
        senderLabel record = Normal (truncate (Address_contract (arm topic0)) 4)).
Proof.
  intros Hs Hnew Htopic.
  exists (makeChatEvent event (decodeAddr topic0)). split.
  - unfold processEvent. rewrite Hs. apply unseen_spec in Hnew. rewrite Hnew.
    unfold topic0_address. now rewrite Htopic.
  - unfold senderLabel, decodeAddr. simpl.
    destruct (String.eqb_spec (switch_name topic0) "scAddressTypeAccount") as [Ha|Ha].
    + split; [|split].
      * split; [discriminate|]. intros [? _]. contradiction.
      * reflexivity.
      * rewrite Ha. discriminate.
    + destruct (String.eqb_spec (switch_name topic0) "scAddressTypeContract") as [Hc|Hc].
      * split; [|split].
        -- split; [discriminate|]. intros [_ ?]. contradiction.
        -- contradiction.
        -- reflexivity.
      * split; [|split]; try contradiction. split; auto.
Qed.

End LoopFacts.

(** ** More on the lifecycle *)

Section LifecycleMore.
Context `{Host}.

Ltac cases_of Hstep :=
  unfold step, onMount_step, tick_step in Hstep;
  repeat case_match; simplify_eq; simpl in *.

Lemma onDestroy_status (w : Welcome.t) :
  Welcome.loading (onDestroy w) = Welcome.loading w
  /\ Welcome.error (onDestroy w) = Welcome.error w.
Proof.
  unfold onDestroy, clearInterval.
  destruct (Welcome.interval w) as [h|]; [destruct (h =? 0)%nat|]; simpl; auto.
Qed.

Lemma orderly_initial : orderly initial.
Proof.
  split; [apply consistent_initial|]. unfold initial. simpl.
  split; [lia|]. split; [reflexivity|]. split; discriminate.
Qed.

Lemma orderly_step (w w' : Welcome.t) (i : Input) :
  orderly w -> step w i = Some w' -> orderly w'.
Proof.
  intros (Hc & Hlen & Hticks & Hload) Hstep.
  split; [eapply consistent_step; eassumption|].
  destruct Hc as (Ht & Hi & _).
  assert (Hdec : Welcome.mount w = MountReturned \/ Welcome.mount w <> MountReturned)
    by (destruct (Welcome.mount w); auto; right; discriminate).
  assert (Hfree : Welcome.mount w <> MountReturned ->
                  Welcome.interval w = None /\ Welcome.timers w = []
                  /\ Welcome.loading w <> false).
  { intros Hm.
    assert (Hint : Welcome.interval w = None).
    { destruct (Welcome.interval w) as [h|] eqn:Hint; [|reflexivity].
      destruct (Hi h eq_refl) as [_ ?]. contradiction. }
    split; [exact Hint|]. split.
    - destruct (Welcome.timers w) as [|h l] eqn:Htm; [reflexivity|].
      assert (Hin : h ∈ h :: l) by (apply elem_of_cons; now left).
      apply Ht in Hin. congruence.
    - intros Hl. apply Hload in Hl. contradiction. }
  destruct i.
  - (* Mount *)
    unfold step, onMount_step in Hstep.
    destruct (Welcome.mount w) eqn:Hm; try discriminate. injection Hstep as <-.
    simpl.
    split; [assumption|]. split; [intros _; apply Hticks; discriminate|].
    split; discriminate.
  - (* Destroy *)
    assert (w' = onDestroy w) as ->.
    { unfold step in Hstep. repeat case_match; simplify_eq; reflexivity. }
    destruct (onDestroy_fields w) as (Ei & Em & _ & Etk & _ & Etm).
    destruct (onDestroy_status w) as (El & Ee).
    rewrite Em, Etk, El.
    split; [|split]; try assumption.
    rewrite Etm. destruct (Welcome.interval w) as [h|]; [|assumption].
    destruct (h =? 0)%nat; [assumption|].
    etransitivity; [apply filter_length_le|assumption].
  - (* MessagesSettled *)
    unfold step, onMount_step in Hstep.
    destruct (Welcome.mount w) eqn:Hm; try discriminate.
    destruct Hfree as (Hint & _ & Hl); [discriminate|].
    destruct (callGetMessages fetched); injection Hstep as <-; simpl.
    + split; [assumption|]. split; [intros _; apply Hticks; discriminate|].
      split; [intros; contradiction|discriminate].
    + split; [assumption|]. split; [intros Hn; now elim Hn|]. tauto.
  - (* LatestLedgerSettled *)
    destruct tick as [k|].
    + unfold step, tick_step in Hstep.
      destruct (Welcome.ticks w !! k) as [[|lim]|] eqn:Hk; try discriminate.
      assert (Hret : Welcome.mount w = MountReturned).
      { destruct Hdec as [|Hn]; [assumption|].
        rewrite (Hticks Hn) in Hk. now rewrite lookup_nil in Hk. }
      destruct r; injection Hstep as <-; simpl;
        (split; [assumption|]); (split; [intros; contradiction|]);
        assumption.
    + unfold step, onMount_step in Hstep.
      destruct (Welcome.mount w) eqn:Hm; try discriminate.
      destruct Hfree as (Hint & _ & Hl); [discriminate|].
      destruct r; injection Hstep as <-; simpl.
      * split; [assumption|]. split; [intros _; apply Hticks; discriminate|].
        split; [intros; contradiction|discriminate].
      * split; [assumption|]. split; [intros Hn; now elim Hn|]. tauto.
  - (* EventsSettled *)
    destruct tick as [k|].
    + unfold step, tick_step in Hstep.
      destruct (Welcome.ticks w !! k) as [[|lim]|] eqn:Hk; try discriminate.
      assert (Hret : Welcome.mount w = MountReturned).
      { destruct Hdec as [|Hn]; [assumption|].
        rewrite (Hticks Hn) in Hk. now rewrite lookup_nil in Hk. }
      injection Hstep as <-; simpl.
      split; [assumption|]. split; [intros; contradiction|]. assumption.
    + unfold step, onMount_step in Hstep.
      destruct (Welcome.mount w) eqn:Hm; try discriminate.
      destruct Hfree as (Hint & Htm & Hl); [discriminate|].
      injection Hstep as <-; simpl. rewrite Htm. simpl.
      split; [lia|]. split; [intros Hn; now elim Hn|]. tauto.
  - (* TimerFired *)
    unfold step in Hstep.
    destruct (existsb _ (Welcome.timers w)) eqn:Hex; [|discriminate].
    injection Hstep as <-. simpl.
    apply existsb_exists in Hex as (h & Hin & _).
    apply list_elem_of_In, Ht, Hi in Hin as [_ Hret].
    split; [assumption|]. split; [intros; contradiction|]. assumption.
Qed.

Lemma returned_step (w w' : Welcome.t) (i : Input) :
  Welcome.mount w = MountReturned -> step w i = Some w' ->
  Welcome.mount w' = MountReturned.
Proof.
  intros Hm Hstep. destruct i.
  - unfold step, onMount_step in Hstep. rewrite Hm in Hstep. discriminate.
  - assert (w' = onDestroy w) as ->.
    { unfold step in Hstep. repeat case_match; simplify_eq; reflexivity. }
    destruct (onDestroy_fields w) as (_ & Em & _). now rewrite Em.
  - unfold step, onMount_step in Hstep. rewrite Hm in Hstep. discriminate.
  - destruct tick as [k|].
    + unfold step, tick_step in Hstep.
      destruct (Welcome.ticks w !! k) as [[|lim]|]; try discriminate.
      destruct r; injection Hstep as <-; exact Hm.
    + unfold step, onMount_step in Hstep. rewrite Hm in Hstep. discriminate.
  - destruct tick as [k|].
    + unfold step, tick_step in Hstep.
      destruct (Welcome.ticks w !! k) as [[|lim]|]; try discriminate.
      injection Hstep as <-; exact Hm.
    + unfold step, onMount_step in Hstep. rewrite Hm in Hstep. discriminate.
  - unfold step in Hstep.
    destruct (existsb _ (Welcome.timers w)); [|discriminate].
    injection Hstep as <-. exact Hm.
Qed.

Lemma returned_run (later : list Input) : forall w w',
  Welcome.mount w = MountReturned -> run w later = Some w' ->
  Welcome.mount w' = MountReturned.
Proof.
  induction later as [|i rest IH]; intros w w' Hm Hrun; simpl in Hrun.
  - now injection Hrun as <-.
  - destruct (step w i) as [w1|] eqn:Hstep; [|discriminate].
    eapply IH; [|eassumption]. eapply returned_step; eassumption.
Qed.

Lemma orderly_run (inputs : list Input) : forall w w',
  orderly w -> run w inputs = Some w' -> orderly w'.
Proof.
  induction inputs as [|i rest IH]; intros w w' Hw Hrun; simpl in Hrun.
  - now injection Hrun as <-.
  - destruct (step w i) as [w1|] eqn:Hstep; [|discriminate].
    eapply IH; [|eassumption]. eapply orderly_step; eassumption.
Qed.

(** X6: At most one interval is ever active, and it is the one whose handle the
    variable [interval] holds. *)
Theorem at_most_one_interval (inputs : list Input) (w : Welcome.t) :
  run initial inputs = Some w ->
  Welcome.timers w = []
  \/ exists h, Welcome.timers w = [h] /\ Welcome.interval w = Some h /\ h <> 0%nat
               /\ Welcome.mount w = MountReturned.
Proof.
  intros Hrun.
  destruct (orderly_run inputs initial w orderly_initial Hrun)
    as ((Ht & Hi & _) & Hlen & _).
  destruct (Welcome.timers w) as [|h [|h' l]] eqn:Htm; [now left| |simpl in Hlen; lia].
  right. exists h.
  assert (Hint : Welcome.interval w = Some h).
  { apply Ht. apply elem_of_cons. now left. }
  destruct (Hi h Hint). auto.
Qed.

(** X7: The loading indicator is on exactly until [onMount] returns.  While
    it is on, no interval is set, no timer is active and no polling callback
    has started; and once it is off it stays off in every later state. *)
Theorem loading_until_onMount_returns (inputs : list Input) (w : Welcome.t) :
  run initial inputs = Some w ->
  (Welcome.loading w = false <-> Welcome.mount w = MountReturned)
  /\ (Welcome.loading w = true ->
      Welcome.interval w = None /\ Welcome.timers w = [] /\ Welcome.ticks w = [])
  /\ (forall later w',
        Welcome.loading w = false -> run w later = Some w' ->
        Welcome.loading w' = false).
Proof.
  intros Hrun.
  pose proof (orderly_run inputs initial w orderly_initial Hrun) as Hw.
  destruct Hw as ((Ht & Hi & Hrest) & Hlen & Hticks & Hload).
  split; [exact Hload|]. split.
  - intros Hon.
    assert (Hm : Welcome.mount w <> MountReturned).
    { intros Hm. apply Hload in Hm. congruence. }
    assert (Hint : Welcome.interval w = None).
    { destruct (Welcome.interval w) as [h|] eqn:Hint; [|reflexivity].
      destruct (Hi h eq_refl) as [_ ?]. contradiction. }
    split; [exact Hint|]. split; [|now apply Hticks].
    destruct (Welcome.timers w) as [|h l] eqn:Htm; [reflexivity|].
    assert (Hin : h ∈ h :: l) by (apply elem_of_cons; now left).
    apply Ht in Hin. congruence.
  - intros later w' Hoff Hlater.
    assert (Hw' : orderly w').
    { eapply orderly_run; [|exact Hlater].
      split; [split; [exact Ht|split; [exact Hi|exact Hrest]]|].
      split; [exact Hlen|]. split; [exact Hticks|exact Hload]. }
    destruct Hw' as (_ & _ & _ & Hload').
    apply Hload'. eapply returned_run; [|exact Hlater]. now apply Hload.
Qed.

Lemma dormant_step (w w' : Welcome.t) (i : Input) :
  dormant w -> step w i = Some w' ->
  dormant w' /\ isTimerFired i = false /\ Welcome.msgs w' = Welcome.msgs w.
Proof.
  intros (Ht & Hm & Hk & Hi) Hstep. destruct i; simpl.
  - cases_of Hstep.
  - assert (w' = onDestroy w) as ->.
    { unfold step in Hstep. repeat case_match; simplify_eq; reflexivity. }
    destruct (onDestroy_fields w) as (Ei & Em & Ems & Etk & _ & Etm).
    rewrite Hi in Etm. unfold dormant. rewrite Ei, Em, Ems, Etk, Etm. auto 10.
  - cases_of Hstep.
  - unfold step, onMount_step, tick_step in Hstep. rewrite Hm, Hk in Hstep.
    destruct tick; simpl in Hstep; rewrite ?lookup_nil in Hstep; discriminate.
  - unfold step, onMount_step, tick_step in Hstep. rewrite Hm, Hk in Hstep.
    destruct tick; simpl in Hstep; rewrite ?lookup_nil in Hstep; discriminate.
  - unfold step in Hstep. rewrite Ht in Hstep. discriminate.
Qed.

Lemma dormant_run (later : list Input) : forall w w',
  dormant w -> run w later = Some w' ->
  dormant w' /\ Forall (fun i => isTimerFired i = false) later
  /\ Welcome.msgs w' = Welcome.msgs w.
Proof.
  induction later as [|i rest IH]; intros w w' Hw Hrun; simpl in Hrun.
  - injection Hrun as <-. split; [assumption|]. split; [constructor|reflexivity].
  - destruct (step w i) as [w1|] eqn:Hstep; [|discriminate].
    destruct (dormant_step w w1 i Hw Hstep) as (Hw1 & Hi & Hmsgs).
    destruct (IH w1 w' Hw1 Hrun) as (Hd & Hall & Hm).
    split; [assumption|]. split; [now constructor|congruence].
Qed.

(** X8: When the first [rpc.getLatestLedger()] of [onMount] is rejected, the
    error is shown, the loading indicator goes off, the list keeps the
    historical seed, and the interval is never set: in every run from there
    no timer fires and the list never changes again. *)
Theorem first_ledger_failure_stops_polling (inputs : list Input) (w : Welcome.t)
    (e : string) :
  run initial inputs = Some w ->
  Welcome.mount w = AwaitLatestLedger ->
  exists w',
    step w (LatestLedgerSettled None (Throw e)) = Some w'
    /\ Welcome.error w' = Some "Failed to load messages. Please try again later."
    /\ Welcome.loading w' = false
    /\ Welcome.msgs w' = Welcome.msgs w
    /\ forall later w'',
         run w' later = Some w'' ->
         Forall (fun i => isTimerFired i = false) later
         /\ Welcome.msgs w'' = Welcome.msgs w
         /\ Welcome.interval w'' = None.
Proof.
  intros Hrun Hm.
  destruct (orderly_run inputs initial w orderly_initial Hrun)
    as ((Ht & Hi & _) & _ & Hticks & _).
  assert (Hint : Welcome.interval w = None).
  { destruct (Welcome.interval w) as [h|] eqn:Hint; [|reflexivity].
    destruct (Hi h eq_refl) as [_ ?]. congruence. }
  assert (Hnil : Welcome.timers w = []).
  { destruct (Welcome.timers w) as [|h l] eqn:Htm; [reflexivity|].
    assert (Hin : h ∈ h :: l) by (apply elem_of_cons; now left).
    apply Ht in Hin. congruence. }
  assert (Hk : Welcome.ticks w = []) by (apply Hticks; congruence).
  eexists. split; [simpl; unfold onMount_step; rewrite Hm; reflexivity|].
  simpl. split; [reflexivity|]. split; [reflexivity|]. split; [reflexivity|].
  intros later w'' Hlater.
  apply dormant_run in Hlater as ((_ & _ & _ & Hnone) & Hall & Hmsgs);
    [|unfold dormant; simpl; auto].
  simpl in Hmsgs. auto.
Qed.

Lemma timer_stays_after_teardown (w w' : Welcome.t) (i : Input) (h : nat) :
  Welcome.destroyed w = true -> h ∈ Welcome.timers w ->
  step w i = Some w' ->
  Welcome.destroyed w' = true /\ h ∈ Welcome.timers w'.
Proof.
  intros Hd Hin Hstep.
  split; [eapply destroyed_step; eassumption|].
  destruct i; cases_of Hstep; try assumption; try congruence.
  apply elem_of_cons. now right.
Qed.

(** X9: When the component is torn down while [onMount] still awaits its first
    live fetch, the interval that [onMount] sets when the fetch settles is
    never cleared: in every later state it is active and its timer can
    fire. *)
Theorem interval_set_after_teardown_stays (w : Welcome.t) (lim : Limit)
    (rpc_getEvents : GetEventsRequest -> completion (list Api.EventResponse)) :
  Welcome.destroyed w = true ->
  Welcome.mount w = AwaitEvents lim ->
  exists w' h,
    step w (EventsSettled None rpc_getEvents) = Some w'
    /\ Welcome.interval w' = Some h
    /\ forall later w'',
         run w' later = Some w'' ->
         Welcome.destroyed w'' = true
         /\ h ∈ Welcome.timers w''
         /\ step w'' (TimerFired h) <> None.
Proof.
  intros Hd Hm.
  eexists. exists (S (Welcome.handles w)).
  split; [simpl; unfold onMount_step; rewrite Hm; reflexivity|].
  split; [reflexivity|].
  intros later. 
  match goal with |- forall w'', run ?w1 later = _ -> _ => set (w1' := w1) end.
  assert (Hd1 : Welcome.destroyed w1' = true) by exact Hd.
  assert (Hin1 : S (Welcome.handles w) ∈ Welcome.timers w1')
    by (simpl; apply elem_of_cons; now left).
  clearbody w1'. revert w1' Hd1 Hin1.
  induction later as [|i rest IH]; intros w1 Hd1 Hin1 w'' Hrun; simpl in Hrun.
  - injection Hrun as <-. split; [assumption|]. split; [assumption|].
    unfold step.
    assert (Hex : existsb (fun h => (h =? S (Welcome.handles w))%nat) (Welcome.timers w1) = true).
    { apply existsb_exists. exists (S (Welcome.handles w)).
      split; [now apply list_elem_of_In|apply Nat.eqb_refl]. }
    rewrite Hex. discriminate.
  - destruct (step w1 i) as [w2|] eqn:Hstep; [|discriminate].
    destruct (timer_stays_after_teardown w1 w2 i _ Hd1 Hin1 Hstep) as [Hd2 Hin2].
    now apply (IH w2).
Qed.

Lemma callGetEvents_keeps (msgs : list ChatEvent) (lim : Limit) (found : bool)
    (rpc_getEvents : GetEventsRequest -> completion (list Api.EventResponse)) :
  keptIn msgs (callGetEvents msgs lim found rpc_getEvents).
Proof.
  intros m Hm. unfold callGetEvents. rewrite Array_sort_perm.
  unfold getEvents.
  destruct (rpc_getEvents (getEventsRequest lim)) as [events|e]; [|assumption].
  destruct (forEachEvent_appends events msgs) as [added ->].
  apply elem_of_app. now left.
Qed.

Lemma seeded_step (w w' : Welcome.t) (i : Input) :
  seeded w -> step w i = Some w' ->
  seeded w' /\ keptIn (Welcome.msgs w) (Welcome.msgs w').
Proof.
  intros [Hn Ha] Hstep.
  assert (Hrefl : keptIn (Welcome.msgs w) (Welcome.msgs w)) by (intros m; auto).
  destruct i.
  - cases_of Hstep.
  - assert (w' = onDestroy w) as ->.
    { unfold step in Hstep. repeat case_match; simplify_eq; reflexivity. }
    destruct (onDestroy_fields w) as (_ & Em & Ems & _).
    unfold seeded. rewrite Em, Ems. auto.
  - cases_of Hstep.
  - cases_of Hstep; (split; [split; simpl; congruence|assumption]).
  - cases_of Hstep; (split; [split; simpl; congruence|]); apply callGetEvents_keeps.
  - cases_of Hstep. split; [split; assumption|assumption].
Qed.

(** X10: Once the list has been seeded, no record ever leaves it: every record
    of the list is in the list of every later state. *)
Theorem records_never_removed (later : list Input) : forall w w',
  seeded w -> run w later = Some w' ->
  keptIn (Welcome.msgs w) (Welcome.msgs w').
Proof.
  induction later as [|i rest IH]; intros w w' Hw Hrun; simpl in Hrun.
  - injection Hrun as <-. intros m; auto.
  - destruct (step w i) as [w1|] eqn:Hstep; [|discriminate].
    destruct (seeded_step w w1 i Hw Hstep) as [Hw1 Hkept].
    intros m Hm. apply (IH w1 w' Hw1 Hrun). now apply Hkept.
Qed.

(** X11: When the rows the indexer answers with have distinct ids, no two
    records of the list share an id, in any state the component reaches. *)
Theorem ids_distinct_in_every_state (inputs : list Input) (w : Welcome.t) :
  (forall body rows, processResponse body = Normal rows -> NoDup (ids rows)) ->
  run initial inputs = Some w ->
  NoDup (ids (Welcome.msgs w)).
Proof.
  intros Hrows.
  assert (Hstep : forall w1 w2 i, NoDup (ids (Welcome.msgs w1)) ->
                    step w1 i = Some w2 -> NoDup (ids (Welcome.msgs w2))).
  { intros w1 w2 i Hnd Hstep. destruct i.
    - cases_of Hstep. assumption.
    - assert (w2 = onDestroy w1) as ->.
      { unfold step in Hstep. repeat case_match; simplify_eq; reflexivity. }
      destruct (onDestroy_fields w1) as (_ & _ & -> & _). assumption.
    - cases_of Hstep; [|assumption].
      match goal with
      | Hc : callGetMessages _ = Normal _ |- _ =>
          unfold callGetMessages, getMessages in Hc
      end.
      repeat case_match; simplify_eq; rewrite Array_sort_ids;
        eauto using NoDup_nil_2.
    - cases_of Hstep; assumption.
    - cases_of Hstep; unfold callGetEvents; rewrite Array_sort_ids;
        now apply getEvents_NoDup.
    - cases_of Hstep. assumption. }
  assert (Hrun : forall inputs w1 w2, NoDup (ids (Welcome.msgs w1)) ->
                   run w1 inputs = Some w2 -> NoDup (ids (Welcome.msgs w2))).
  { clear inputs w. induction inputs as [|i rest IH]; intros w1 w2 Hnd Hr; simpl in Hr.
    - now injection Hr as <-.
    - destruct (step w1 i) as [w3|] eqn:Hs; [|discriminate]. eauto. }
  apply Hrun. apply NoDup_nil_2.
Qed.

End LifecycleMore.

(** ** Sending a message *)

Lemma trimStart_empty (s : string) :
  trimStart s = "" <-> blank s = true.
Proof.
  unfold blank. induction s as [|c s IH]; simpl; [tauto|].
  destruct (isWhiteSpace c); simpl; [exact IH|]. split; discriminate.
Qed.

Lemma trimStart_head (s : string) :
  trimStart s = "" \/ exists c s', trimStart s = String c s' /\ isWhiteSpace c = false.
Proof.
  induction s as [|c s IH]; simpl; [now left|].
  destruct (isWhiteSpace c) eqn:Hc; [exact IH|]. right. eauto.
Qed.

Lemma trim_empty (s : string) : trim s = "" <-> blank s = true.
Proof.
  rewrite <- trimStart_empty. unfold trim.
  destruct (trimStart_head s) as [->|(c & s' & -> & Hc)]; [simpl; tauto|].
  simpl. rewrite Hc. split; [|discriminate].
  destruct (trimEnd s'); discriminate.
Qed.

Section Sending.
Context {Tx : Type} (services : Services Tx).

Lemma send_guard (contractId keyId : option string) (c : Composer.t) :
  (negb (truthy contractId) || negb (truthy keyId)
   || negb (truthy (Some (trim (Composer.msg c)))) = true)
  <-> (truthy contractId = false \/ truthy keyId = false
       \/ blank (Composer.msg c) = true).
Proof.
  rewrite !orb_true_iff, !negb_true_iff. simpl. rewrite negb_false_iff.
  rewrite String.eqb_eq, trim_empty. tauto.
Qed.

(** X12: [send] does nothing at all - no call, no variable changed - exactly when
    no contract id is set, or no key id is set, or the message is empty or
    white space only. *)
Theorem send_needs_login_and_text (contractId keyId : option string) (c : Composer.t) :
  (snd (send services contractId keyId c) = []
   <-> truthy contractId = false \/ truthy keyId = false
       \/ blank (Composer.msg c) = true)
  /\ (snd (send services contractId keyId c) = [] ->
      fst (send services contractId keyId c) = c).
Proof.
  pose proof (send_guard contractId keyId c) as Hg. unfold send.
  destruct (negb (truthy contractId) || negb (truthy keyId)
            || negb (truthy (Some (trim (Composer.msg c))))) eqn:Hb.
  - simpl. split; [|reflexivity]. split; [intros _; now apply Hg|reflexivity].
  - assert (Hno : ~ (truthy contractId = false \/ truthy keyId = false
                     \/ blank (Composer.msg c) = true)).
    { intros Hn. apply Hg in Hn. discriminate. }
    destruct (chat_send services _ _) as [assembled|e];
      [destruct (account_sign services _ _) as [signed|e];
       [destruct (server_send services _) as [u|e]|]|];
      simpl; (split; [split; [discriminate|tauto]|discriminate]).
Qed.

(** X13: When [send] goes ahead, [sending] is off again at the end whatever
    happens.  If the three services succeed the text is cleared and no error
    is shown; if any of them fails the text is kept as typed and the error
    message is shown. *)
Theorem send_outcome (contractId keyId : option string) (c : Composer.t) :
  truthy contractId = true -> truthy keyId = true -> blank (Composer.msg c) = false ->
  Composer.sending (fst (send services contractId keyId c)) = false
  /\ ((exists assembled signed u,
          chat_send services (default "" contractId) (Composer.msg c) = Normal assembled
          /\ account_sign services assembled (default "" keyId) = Normal signed
          /\ server_send services signed = Normal u)
      /\ Composer.msg (fst (send services contractId keyId c)) = ""
      /\ Composer.error (fst (send services contractId keyId c)) = None
      \/
      (~ exists assembled signed u,
          chat_send services (default "" contractId) (Composer.msg c) = Normal assembled
          /\ account_sign services assembled (default "" keyId) = Normal signed
          /\ server_send services signed = Normal u)
      /\ Composer.msg (fst (send services contractId keyId c)) = Composer.msg c
      /\ Composer.error (fst (send services contractId keyId c))
         = Some "Failed to send message. Please try again.").
Proof.
  intros Hc Hk Hb. unfold send.
  destruct (negb (truthy contractId) || negb (truthy keyId)
            || negb (truthy (Some (trim (Composer.msg c))))) eqn:Hg.
  { apply send_guard in Hg as [?|[?|?]]; congruence. }
  destruct (chat_send services _ _) as [assembled|e] eqn:H1.
  - destruct (account_sign services _ _) as [signed|e] eqn:H2.
    + destruct (server_send services _) as [u|e] eqn:H3; simpl.
      * split; [reflexivity|]. left. split; [|auto]. exists assembled, signed, u. auto.
      * split; [reflexivity|]. right. split; [|auto].
        intros (a & s & u & Ha & Hs & Hu). congruence.
    + simpl. split; [reflexivity|]. right. split; [|auto].
      intros (a & s & u & Ha & Hs & Hu). congruence.
  - simpl. split; [reflexivity|]. right. split; [|auto].
    intros (a & s & u & Ha & Hs & Hu). congruence.
Qed.

(** X14: [send] submits nothing but the transaction that [account.sign] returned
    for the transaction that [chat.send] assembled from the contract id and
    the text exactly as typed (not trimmed); it submits at most once, and
    nothing when assembling or signing failed. *)
Theorem send_submits_only_signed (contractId keyId : option string) (c : Composer.t) :
  (forall tx, In (Submit tx) (snd (send services contractId keyId c)) ->
     exists assembled,
       chat_send services (default "" contractId) (Composer.msg c) = Normal assembled
       /\ account_sign services assembled (default "" keyId) = Normal tx
       /\ snd (send services contractId keyId c)
          = [Assemble (default "" contractId) (Composer.msg c);
             Sign assembled (default "" keyId); Submit tx])
  /\ (forall addr text, In (Assemble addr text) (snd (send services contractId keyId c)) ->
        contractId = Some addr /\ text = Composer.msg c).
Proof.
  unfold send.
  destruct (negb (truthy contractId) || negb (truthy keyId)
            || negb (truthy (Some (trim (Composer.msg c))))) eqn:Hg.
  { simpl. split; intros; contradiction. }
  assert (Hc : exists addr, contractId = Some addr).
  { destruct contractId; [eauto|]. simpl in Hg. discriminate. }
  destruct Hc as [addr0 ->]. simpl default.
  destruct (chat_send services _ _) as [assembled|e] eqn:H1;
    [destruct (account_sign services _ _) as [signed|e] eqn:H2;
     [destruct (server_send services _) as [u|e] eqn:H3|]|]; simpl; split;
    intros; repeat match goal with
                   | Hor : _ \/ _ |- _ => destruct Hor
                   | Heq : _ = _ |- _ => first [discriminate Heq | injection Heq as ? ?; subst | injection Heq as ?; subst]
                   | Hf : False |- _ => contradiction
                   end; eauto.
Qed.

End Sending.

(** ** The persisted stores *)

Lemma persist_key (key : string) (v : JsVal) (storage : gmap string string) :
  persist true key v storage !! key = storedFor v.
Proof.
  unfold persist, storedFor. simpl.
  destruct v as [| |s]; simpl; try apply lookup_delete_eq.
  destruct (negb (s =? "")%string); simpl;
    [apply lookup_insert_eq|apply lookup_delete_eq].
Qed.

Lemma persist_other (browser : bool) (key k : string) (v : JsVal)
    (storage : gmap string string) :
  k <> key -> persist browser key v storage !! k = storage !! k.
Proof.
  intros Hk. unfold persist.
  destruct (browser && truthyVal v); [now rewrite lookup_insert_ne|].
  destruct (browser && negb (truthyVal v)); [now rewrite lookup_delete_ne|reflexivity].
Qed.

Lemma persist_server (key : string) (v : JsVal) (storage : gmap string string) :
  persist false key v storage = storage.
Proof. reflexivity. Qed.

Lemma getItem_storedFor (storage : gmap string string) (key : string) (v : JsVal) :
  storage !! key = storedFor v ->
  (if truthyVal (getItem storage key) then getItem storage key else undefined)
  = (if truthyVal v then v else undefined).
Proof.
  unfold getItem, storedFor. intros ->.
  destruct v as [| |s]; simpl; try reflexivity.
  destruct (negb (s =? "")%string) eqn:Hs; simpl; [now rewrite Hs|reflexivity].
Qed.

Section Stores.
Variable m : StoreModule.

Lemma storeSet_mirror (v : JsVal) (p : Persisted.t) (ls : gmap string string) :
  (Persisted.localStorage p !! STORAGE_KEY m = storedFor (Persisted.value p)
   /\ forall k, k <> STORAGE_KEY m -> Persisted.localStorage p !! k = ls !! k) ->
  Persisted.localStorage (storeSet m true v p) !! STORAGE_KEY m
  = storedFor (Persisted.value (storeSet m true v p))
  /\ forall k, k <> STORAGE_KEY m ->
       Persisted.localStorage (storeSet m true v p) !! k = ls !! k.
Proof.
  intros [Hkey Hother]. unfold storeSet.
  destruct (decide (Persisted.value p = v)); [auto|]. simpl.
  split; [apply persist_key|]. intros k Hk. rewrite persist_other by assumption. auto.
Qed.

Lemma storeLoad_mirror (ls : gmap string string) :
  Persisted.localStorage (storeLoad m true ls) !! STORAGE_KEY m
  = storedFor (Persisted.value (storeLoad m true ls))
  /\ forall k, k <> STORAGE_KEY m ->
       Persisted.localStorage (storeLoad m true ls) !! k = ls !! k.
Proof.
  unfold storeLoad. simpl. split; [apply persist_key|].
  intros k Hk. now apply persist_other.
Qed.

Lemma applySets_mirror (ls : gmap string string) (values : list JsVal) :
  forall p,
    (Persisted.localStorage p !! STORAGE_KEY m = storedFor (Persisted.value p)
     /\ forall k, k <> STORAGE_KEY m -> Persisted.localStorage p !! k = ls !! k) ->
    Persisted.localStorage (applySets m true values p) !! STORAGE_KEY m
    = storedFor (Persisted.value (applySets m true values p))
    /\ forall k, k <> STORAGE_KEY m ->
         Persisted.localStorage (applySets m true values p) !! k = ls !! k.
Proof.
  unfold applySets.
  induction values as [|v values IH]; intros p Hp; simpl; [exact Hp|].
  apply IH. now apply storeSet_mirror.
Qed.

(** X15: In the browser the storage key of a store module always holds what the
    store holds: the value when it is a non-empty string, and no entry
    otherwise; this is so from the moment the module is loaded and after any
    series of [set] calls.  No other key of the storage is ever touched. *)
Theorem store_mirrored_in_storage (ls : gmap string string) (values : list JsVal) :
  Persisted.localStorage (applySets m true values (storeLoad m true ls)) !! STORAGE_KEY m
  = storedFor (Persisted.value (applySets m true values (storeLoad m true ls)))
  /\ forall k, k <> STORAGE_KEY m ->
       Persisted.localStorage (applySets m true values (storeLoad m true ls)) !! k
       = ls !! k.
Proof.
  pose proof (storeLoad_mirror ls) as Hload.
  exact (applySets_mirror ls values (storeLoad m true ls) Hload).
Qed.

(** X16: A reload restores the store: loading the module again from the storage
    the store left behind yields the value the store held when that was a
    non-empty string, and the module's default otherwise. *)
Theorem store_survives_reload (ls : gmap string string) (values : list JsVal) :
  Persisted.value
    (storeLoad m true
       (Persisted.localStorage (applySets m true values (storeLoad m true ls))))
  = if truthyVal (Persisted.value (applySets m true values (storeLoad m true ls)))
    then Persisted.value (applySets m true values (storeLoad m true ls))
    else defaultValue m.
Proof.
  destruct (applySets_mirror ls values _ (storeLoad_mirror ls)) as [Hkey _].
  unfold storeLoad at 1. simpl.
  unfold getItem. rewrite Hkey. unfold storedFor.
  destruct (Persisted.value (applySets m true values (storeLoad m true ls)))
    as [| |s]; simpl; try reflexivity.
  destruct (negb (s =? "")%string) eqn:Hs; simpl; [now rewrite Hs|reflexivity].
Qed.

(** X17: Outside the browser the store starts from the module's default and
    never touches the storage, whatever is set. *)
Theorem store_leaves_storage_on_server (ls : gmap string string) (values : list JsVal) :
  Persisted.value (storeLoad m false ls) = defaultValue m
  /\ Persisted.localStorage (applySets m false values (storeLoad m false ls)) = ls.
Proof.
  split; [reflexivity|]. unfold applySets.
  assert (Hload : Persisted.localStorage (storeLoad m false ls) = ls) by reflexivity.
  revert Hload. generalize (storeLoad m false ls).
  induction values as [|v values IH]; intros p Hp; simpl; [exact Hp|].
  apply IH. unfold storeSet. destruct (decide (Persisted.value p = v)); [exact Hp|].
  simpl. exact Hp.
Qed.

End Stores.

(** ** The header: storage and session *)

Lemma removeSsdKeys_fold (keys : list string) : forall (st : gmap string string) (k : string),
  foldl (fun st key => if includes key "ssd:" then delete key st else st) st keys !! k
  = if includes k "ssd:" && bool_decide (k ∈ keys) then None else st !! k.
Proof.
  induction keys as [|key keys IH]; intros st k; simpl.
  - now rewrite andb_false_r.
  - rewrite IH. destruct (includes k "ssd:") eqn:Hk; simpl; [|
      destruct (includes key "ssd:") eqn:Hkey; [|reflexivity];
      rewrite lookup_delete_ne; [reflexivity|congruence]].
    destruct (bool_decide (k ∈ keys)) eqn:Hin.
    + apply bool_decide_eq_true in Hin.
      rewrite bool_decide_eq_true_2; [reflexivity|apply elem_of_cons; now right].
    + apply bool_decide_eq_false in Hin.
      destruct (decide (k = key)) as [->|Hne].
      * rewrite Hk, lookup_delete_eq.
        rewrite bool_decide_eq_true_2; [reflexivity|apply elem_of_cons; now left].
      * rewrite bool_decide_eq_false_2
          by (intros Hc; apply elem_of_cons in Hc as [?|?]; contradiction).
        destruct (includes key "ssd:"); [now rewrite lookup_delete_ne|reflexivity].
Qed.

(** After the loop of [logout] a storage holds no key that includes "ssd:",
    and every other key holds what it held. *)
Lemma removeSsdKeys_lookup (st : gmap string string) (k : string) :
  removeSsdKeys st !! k = if includes k "ssd:" then None else st !! k.
Proof.
  unfold removeSsdKeys. rewrite removeSsdKeys_fold.
  destruct (includes k "ssd:"); simpl; [|reflexivity].
  destruct (bool_decide (k ∈ map fst (map_to_list st))) eqn:Hin; [reflexivity|].
  apply bool_decide_eq_false in Hin.
  destruct (st !! k) as [v|] eqn:Hk; [|reflexivity].
  exfalso. apply Hin. apply list_elem_of_fmap. exists (k, v).
  split; [reflexivity|]. now apply elem_of_map_to_list.
Qed.

(** [includes] finds the part wherever it stands in the key. *)
Lemma includes_spec (key part : string) :
  part <> "" ->
  includes key part = true
  <-> exists i, substring i (String.length part) key = part.
Proof.
  intros Hpart. unfold includes.
  destruct (String.index 0 part key) as [i|] eqn:Hi.
  - split; [intros _|reflexivity]. exists i. now apply index_correct1 with 0%nat.
  - split; [discriminate|]. intros (i & Hsub). exfalso.
    apply (index_correct3 0 i _ _ Hi); [assumption|lia|assumption].
Qed.

Section HeaderFacts.
Context `{Host}.

Lemma subscriberStarts_fields (v : JsVal) (h : Header.t) :
  Header.keyId (subscriberStarts v h) = Header.keyId h
  /\ Header.contractId (subscriberStarts v h) = Header.contractId h
  /\ Header.localStorage (subscriberStarts v h) = Header.localStorage h
  /\ Header.sessionStorage (subscriberStarts v h) = Header.sessionStorage h
  /\ Header.creating (subscriberStarts v h) = Header.creating h
  /\ Header.error (subscriberStarts v h) = Header.error h
  /\ Header.reloading (subscriberStarts v h) = Header.reloading h.
Proof.
  unfold subscriberStarts. destruct v as [| |s]; auto 10.
  destruct (truthyVal (str s)); simpl; auto 10.
Qed.

Lemma keyId_set_fields (v : JsVal) (h : Header.t) :
  Header.keyId (keyId_set v h) = v
  /\ Header.contractId (keyId_set v h) = Header.contractId h
  /\ Header.sessionStorage (keyId_set v h) = Header.sessionStorage h
  /\ Header.creating (keyId_set v h) = Header.creating h
  /\ Header.error (keyId_set v h) = Header.error h
  /\ Header.reloading (keyId_set v h) = Header.reloading h
  /\ (forall k, k <> "chat_key_id" ->
        Header.localStorage (keyId_set v h) !! k = Header.localStorage h !! k)
  /\ (Header.localStorage h !! "chat_key_id" = storedFor (Header.keyId h) ->
      Header.localStorage (keyId_set v h) !! "chat_key_id" = storedFor v).
Proof.
  unfold keyId_set. destruct (decide (Header.keyId h = v)) as [<-|Hne]; [auto 10|].
  destruct (subscriberStarts_fields v
    {| Header.keyId := v; Header.contractId := Header.contractId h;
       Header.localStorage :=
         persist true (STORAGE_KEY keyIdModule) v (Header.localStorage h);
       Header.sessionStorage := Header.sessionStorage h;
       Header.creating := Header.creating h; Header.loading := Header.loading h;
       Header.error := Header.error h;
       Header.connecting := Header.connecting h;
       Header.reloading := Header.reloading h |})
    as (-> & -> & -> & -> & -> & -> & ->). simpl.
  split; [reflexivity|]. split; [reflexivity|]. split; [reflexivity|].
  split; [reflexivity|]. split; [reflexivity|]. split; [reflexivity|].
  split; [intros k Hk; now apply persist_other|].
  intros _. apply persist_key.
Qed.

Lemma contractId_set_fields (v : JsVal) (h : Header.t) :
  Header.keyId (contractId_set v h) = Header.keyId h
  /\ Header.contractId (contractId_set v h) = v
  /\ Header.sessionStorage (contractId_set v h) = Header.sessionStorage h
  /\ Header.creating (contractId_set v h) = Header.creating h
  /\ Header.loading (contractId_set v h) = Header.loading h
  /\ Header.error (contractId_set v h) = Header.error h
  /\ Header.connecting (contractId_set v h) = Header.connecting h
  /\ Header.reloading (contractId_set v h) = Header.reloading h
  /\ (forall k, k <> "chat_contract_id" ->
        Header.localStorage (contractId_set v h) !! k = Header.localStorage h !! k)
  /\ (Header.localStorage h !! "chat_contract_id" = storedFor (Header.contractId h) ->
      Header.localStorage (contractId_set v h) !! "chat_contract_id" = storedFor v).
Proof.
  unfold contractId_set.
  destruct (decide (Header.contractId h = v)) as [<-|Hne]; [auto 15|]. simpl.
  repeat (split; [reflexivity|]).
  split; [intros k Hk; now apply persist_other|].
  intros _. apply persist_key.
Qed.

Lemma mirrored_keyId_set (v : JsVal) (h : Header.t) :
  mirrored h -> mirrored (keyId_set v h).
Proof.
  intros [Hk Hc]. destruct (keyId_set_fields v h)
    as (Ek & Ec & _ & _ & _ & _ & Hother & Hkey).
  split; [rewrite Ek; now apply Hkey|].
  rewrite Ec, Hother by discriminate. exact Hc.
Qed.

Lemma mirrored_contractId_set (v : JsVal) (h : Header.t) :
  mirrored h -> mirrored (contractId_set v h).
Proof.
  intros [Hk Hc]. destruct (contractId_set_fields v h)
    as (Ek & Ec & _ & _ & _ & _ & _ & _ & Hother & Hkey).
  split; [|rewrite Ec; now apply Hkey].
  rewrite Ek, Hother by discriminate. exact Hk.
Qed.

Lemma mirrored_status (cr ld : bool) (e : option string) (h : Header.t) :
  mirrored h -> mirrored (header_with_status cr ld e h).
Proof. intros Hm. exact Hm. Qed.

Lemma mirrored_setItem (value : string) (h : Header.t) :
  mirrored h -> mirrored (header_setItem "ssd:keyId" value h).
Proof.
  intros [Hk Hc]. unfold mirrored, header_setItem. simpl.
  rewrite !lookup_insert_ne by discriminate. auto.
Qed.

Lemma mirrored_pageLoad (ls ss : gmap string string) : mirrored (pageLoad ls ss).
Proof.
  unfold pageLoad.
  match goal with |- mirrored (subscriberStarts ?v ?h) =>
    destruct (subscriberStarts_fields v h) as (Ek & Ec & El & _);
    unfold mirrored; rewrite Ek, Ec, El; simpl
  end.
  split.
  - rewrite persist_other by discriminate. apply persist_key.
  - apply persist_key.
Qed.

Lemma mirrored_action {Tx : Type} (h : Header.t) (a : HeaderAction Tx) :
  mirrored h -> mirrored (applyAction h a).
Proof.
  intros Hm. destruct a as [|connected|created server_send|connected|]; simpl.
  - unfold header_onMount. destruct (Header.localStorage h !! "ssd:keyId");
      [now apply mirrored_keyId_set|assumption].
  - unfold login. destruct connected as [[k cid]|e]; [|exact Hm].
    apply mirrored_status, mirrored_contractId_set, mirrored_setItem,
      mirrored_keyId_set. exact Hm.
  - unfold signUp. destruct created as [[[k cid] tx]|e]; [|exact Hm].
    destruct (server_send tx); [|exact Hm].
    apply mirrored_status, mirrored_contractId_set, mirrored_setItem,
      mirrored_keyId_set. exact Hm.
  - unfold walletConnected. destruct (Header.connecting h) as [|k rest]; [exact Hm|].
    destruct connected as [cid|e]; [|exact Hm].
    apply mirrored_status, mirrored_contractId_set. exact Hm.
  - unfold logout.
    pose proof (mirrored_contractId_set null _ (mirrored_keyId_set null h Hm)) as [Hk Hc].
    unfold mirrored. simpl. rewrite !removeSsdKeys_lookup.
    change (includes "chat_key_id" "ssd:") with false.
    change (includes "chat_contract_id" "ssd:") with false. auto.
Qed.

(** X18: On every page, from its load on and through [onMount], [login],
    [signUp], settled wallet connections and [logout], the storage keys of the
    two store modules hold what the stores hold. *)
Theorem header_keeps_stores_mirrored {Tx : Type} (ls ss : gmap string string)
    (actions : list (HeaderAction Tx)) :
  mirrored (foldl applyAction (pageLoad ls ss) actions).
Proof.
  pose proof (mirrored_pageLoad ls ss) as Hload. revert Hload.
  generalize (pageLoad ls ss).
  induction actions as [|a actions IH]; intros h Hh; simpl; [exact Hh|].
  apply IH. now apply mirrored_action.
Qed.

Lemma logout_fields (h : Header.t) :
  Header.keyId (logout h) = null
  /\ Header.contractId (logout h) = null
  /\ Header.reloading (logout h) = true
  /\ (forall k, Header.sessionStorage (logout h) !! k
                = if includes k "ssd:" then None else Header.sessionStorage h !! k)
  /\ (forall k, k <> "chat_key_id" -> k <> "chat_contract_id" ->
        Header.localStorage (logout h) !! k
        = if includes k "ssd:" then None else Header.localStorage h !! k)
  /\ (mirrored h ->
      Header.localStorage (logout h) !! "chat_key_id" = None
      /\ Header.localStorage (logout h) !! "chat_contract_id" = None).
Proof.
  unfold logout. simpl.
  destruct (contractId_set_fields null (keyId_set null h))
    as (Ek & Ec & Es & _ & _ & _ & _ & _ & Hother & _).
  destruct (keyId_set_fields null h) as (Ek' & _ & Es' & _ & _ & _ & Hother' & _).
  split; [congruence|]. split; [assumption|]. split; [reflexivity|].
  split; [|split].
  - intros k. rewrite removeSsdKeys_lookup, Es, Es'. reflexivity.
  - intros k Hk Hc. rewrite removeSsdKeys_lookup, Hother, Hother' by assumption.
    reflexivity.
  - intros Hm.
    pose proof (mirrored_contractId_set null _ (mirrored_keyId_set null h Hm)) as [Hk Hc].
    rewrite Ek, Ek' in Hk. rewrite Ec in Hc. simpl in Hk, Hc.
    rewrite !removeSsdKeys_lookup.
    change (includes "chat_key_id" "ssd:") with false.
    change (includes "chat_contract_id" "ssd:") with false. auto.
Qed.

(** X19: [logout] sets both stores to [null], asks for a reload, and removes from
    [localStorage] and [sessionStorage] exactly the keys that include "ssd:"
    (anywhere in the key); every other key keeps its value, except the two
    storage keys of the stores in [localStorage], which the stores clear. *)
Theorem logout_clears_session (h : Header.t) :
  Header.keyId (logout h) = null
  /\ Header.contractId (logout h) = null
  /\ Header.reloading (logout h) = true
  /\ (forall k, includes k "ssd:" = true ->
        Header.localStorage (logout h) !! k = None
        /\ Header.sessionStorage (logout h) !! k = None)
  /\ (forall k, includes k "ssd:" = false ->
        Header.sessionStorage (logout h) !! k = Header.sessionStorage h !! k
        /\ (k <> "chat_key_id" -> k <> "chat_contract_id" ->
            Header.localStorage (logout h) !! k = Header.localStorage h !! k))
  /\ (mirrored h ->
      Header.localStorage (logout h) !! "chat_key_id" = None
      /\ Header.localStorage (logout h) !! "chat_contract_id" = None).
Proof.
  destruct (logout_fields h) as (Hk & Hc & Hr & Hs & Hl & Hm).
  split; [exact Hk|]. split; [exact Hc|]. split; [exact Hr|].
  split; [|split; [|exact Hm]].
  - intros k Hin. split.
    + assert (Hne : k <> "chat_key_id" /\ k <> "chat_contract_id").
      { split; intros ->; vm_compute in Hin; discriminate. }
      destruct Hne as [H1 H2]. rewrite (Hl k H1 H2). now rewrite Hin.
    + rewrite Hs. now rewrite Hin.
  - intros k Hout. split.
    + rewrite Hs. now rewrite Hout.
    + intros H1 H2. rewrite (Hl k H1 H2). now rewrite Hout.
Qed.

End HeaderFacts.

Section SessionFacts.
Context `{Host}.

Lemma pageLoad_fields (ls ss : gmap string string) :
  Header.keyId (pageLoad ls ss)
  = (if truthyVal (getItem ls "chat_key_id") then getItem ls "chat_key_id" else undefined)
  /\ Header.contractId (pageLoad ls ss)
     = (if truthyVal (getItem ls "chat_contract_id") then getItem ls "chat_contract_id"
        else str PUBLIC_CHAT_CONTRACT_ID)
  /\ Header.sessionStorage (pageLoad ls ss) = ss
  /\ (forall k, k <> "chat_key_id" -> k <> "chat_contract_id" ->
        Header.localStorage (pageLoad ls ss) !! k = ls !! k).
Proof.
  unfold pageLoad.
  match goal with |- context [subscriberStarts ?v ?h] =>
    destruct (subscriberStarts_fields v h) as (-> & -> & -> & -> & _)
  end. simpl.
  split; [reflexivity|]. split; [|split; [reflexivity|]].
  - unfold getItem. rewrite persist_other by discriminate. reflexivity.
  - intros k Hk Hc. rewrite !persist_other by assumption. reflexivity.
Qed.

Lemma header_onMount_keyId (h : Header.t) :
  Header.keyId (header_onMount h)
  = match Header.localStorage h !! "ssd:keyId" with
    | Some k => str k
    | None => Header.keyId h
    end.
Proof.
  unfold header_onMount. destruct (Header.localStorage h !! "ssd:keyId") as [k|];
    [apply keyId_set_fields|reflexivity].
Qed.

Lemma logged_in_fields (k cid : string) (h : Header.t) :
  let h' := contractId_set (str cid)
              (header_setItem "ssd:keyId" k (keyId_set (str k) h)) in
  Header.keyId h' = str k
  /\ Header.contractId h' = str cid
  /\ Header.localStorage h' !! "ssd:keyId" = Some k
  /\ Header.sessionStorage h' = Header.sessionStorage h
  /\ Header.error h' = Header.error h.
Proof.
  intros h'. unfold h'.
  destruct (contractId_set_fields (str cid)
              (header_setItem "ssd:keyId" k (keyId_set (str k) h)))
    as (Ek & Ec & Es & _ & _ & Ee & _ & _ & Hother & _).
  destruct (keyId_set_fields (str k) h) as (Ek' & _ & Es' & _ & Ee' & _).
  rewrite Ek, Ec, Es, Ee, Hother by discriminate. simpl.
  rewrite lookup_insert_eq. auto.
Qed.

(** X20: A login survives a reload.  After [login] succeeds with a key id, the
    stores hold the key id and the contract id, the key id is kept under
    "ssd:keyId", and on the next page load [onMount] sets the store [keyId]
    to that key id again; the same holds after a [signUp] whose transaction
    was accepted. *)
Theorem login_survives_reload {Tx : Type} (h : Header.t) (k cid : string) :
  (let h' := login (Normal (k, cid)) h in
   Header.keyId h' = str k
   /\ Header.contractId h' = str cid
   /\ Header.localStorage h' !! "ssd:keyId" = Some k
   /\ Header.loading h' = false /\ Header.error h' = None
   /\ Header.keyId (header_onMount
                      (pageLoad (Header.localStorage h') (Header.sessionStorage h')))
      = str k)
  /\ (forall (tx : Tx) server_send u,
        server_send tx = Normal u ->
        let h' := signUp (Normal (k, cid, tx)) server_send h in
        Header.keyId h' = str k
        /\ Header.contractId h' = str cid
        /\ Header.localStorage h' !! "ssd:keyId" = Some k
        /\ Header.creating h' = false /\ Header.error h' = None
        /\ Header.keyId (header_onMount
                           (pageLoad (Header.localStorage h') (Header.sessionStorage h')))
           = str k).
Proof.
  assert (Hreload : forall ls ss, ls !! "ssd:keyId" = Some k ->
            Header.keyId (header_onMount (pageLoad ls ss)) = str k).
  { intros ls ss Hk. rewrite header_onMount_keyId.
    destruct (pageLoad_fields ls ss) as (_ & _ & _ & Hother).
    rewrite Hother by discriminate. now rewrite Hk. }
  split.
  - intros h'. unfold h', login.
    destruct (logged_in_fields k cid (header_with_status (Header.creating h) true None h))
      as (Ek & Ec & El & _ & Ee).
    simpl in *. rewrite Ek, Ec, El, Ee.
    repeat (split; [reflexivity|]). now apply Hreload.
  - intros tx server_send u Hsent h'. unfold h', signUp. rewrite Hsent.
    destruct (logged_in_fields k cid (header_with_status true (Header.loading h) None h))
      as (Ek & Ec & El & _ & Ee).
    simpl in *. rewrite Ek, Ec, El, Ee.
    repeat (split; [reflexivity|]). now apply Hreload.
Qed.

Lemma walletConnected_fields (connected : completion string) (h : Header.t) :
  Header.keyId (walletConnected connected h) = Header.keyId h
  /\ Header.sessionStorage (walletConnected connected h) = Header.sessionStorage h
  /\ (forall k, k <> "chat_contract_id" ->
        Header.localStorage (walletConnected connected h) !! k
        = Header.localStorage h !! k)
  /\ (Header.connecting h = [] -> walletConnected connected h = h)
  /\ ((exists e, connected = Throw e) ->
      Header.localStorage (walletConnected connected h) = Header.localStorage h).
Proof.
  unfold walletConnected.
  destruct (Header.connecting h) as [|pending rest] eqn:Hc.
  { repeat (split; [reflexivity|]). intros _. reflexivity. }
  destruct connected as [cid|e].
  - match goal with
    | |- context [contractId_set (str cid) ?x] =>
        destruct (contractId_set_fields (str cid) x) as (Ek & _ & Es & _ & _ & _ & _ & _ & El & _)
    end.
    simpl in *. split; [exact Ek|]. split; [exact Es|]. split; [exact El|].
    split; [discriminate|]. intros [e He]. discriminate.
  - simpl. repeat (split; [reflexivity|]). split; [discriminate|]. reflexivity.
Qed.

Lemma walletsConnected_fields (settled : list (completion string)) : forall h,
  mirrored h ->
  mirrored (walletsConnected settled h)
  /\ Header.keyId (walletsConnected settled h) = Header.keyId h
  /\ Header.sessionStorage (walletsConnected settled h) = Header.sessionStorage h
  /\ (forall k, k <> "chat_contract_id" ->
        Header.localStorage (walletsConnected settled h) !! k
        = Header.localStorage h !! k)
  /\ (Header.connecting h = [] -> walletsConnected settled h = h)
  /\ (Forall (fun connected => exists e, connected = Throw e) settled ->
      Header.localStorage (walletsConnected settled h) = Header.localStorage h).
Proof.
  unfold walletsConnected.
  induction settled as [|connected rest IH]; intros h Hm; simpl.
  { split; [exact Hm|]. repeat (split; [reflexivity|]). intros _. reflexivity. }
  destruct (walletConnected_fields connected h) as (Ek & Es & El & Hnone & Hthrow).
  assert (Hm1 : mirrored (walletConnected connected h))
    by exact (@mirrored_action _ unit h (DoWalletConnected connected) Hm).
  destruct (IH _ Hm1) as (Hm' & Ek' & Es' & El' & Hnone' & Hthrow').
  split; [exact Hm'|]. split; [now rewrite Ek'|]. split; [now rewrite Es'|].
  split; [intros k Hk; now rewrite El', El|].
  split.
  - intros Hc. rewrite Hnone' by (now rewrite (Hnone Hc)). exact (Hnone Hc).
  - intros Hall. inversion Hall as [|? ? Hhead Htail]; subst.
    rewrite Hthrow' by exact Htail. now apply Hthrow.
Qed.

Lemma logout_connecting (h : Header.t) :
  Header.connecting (logout h) = Header.connecting h.
Proof.
  unfold logout. simpl.
  destruct (contractId_set_fields null (keyId_set null h))
    as (_ & _ & _ & _ & _ & _ & Ec & _).
  rewrite Ec. unfold keyId_set. destruct (decide (Header.keyId h = null)); reflexivity.
Qed.

(** X21: After [logout] and the reload it asks for, nobody is logged in,
    also when wallet connections that the subscriber had started settle
    before the page is replaced (and no [login] or [signUp] does): the store
    [keyId] is undefined and stays so through [onMount], no wallet connection
    is started, and [send] does nothing.  The store [contractId] is what such
    a settlement left in the storage, and the default contract id when there
    is none: when no connection was pending at [logout], or every pending one
    was rejected. *)
Theorem logout_then_reload_logged_out {Tx : Type} (h : Header.t)
    (settled : list (completion string)) (services : Services Tx) (c : Composer.t) :
  mirrored h ->
  let h1 := walletsConnected settled (logout h) in
  let h' := header_onMount
              (pageLoad (Header.localStorage h1) (Header.sessionStorage h1)) in
  Header.keyId h' = undefined
  /\ Header.connecting h' = []
  /\ Header.localStorage h' !! "ssd:keyId" = None
  /\ send services (asOption (Header.contractId h')) (asOption (Header.keyId h')) c
     = (c, [])
  /\ Header.contractId h'
     = match storedFor (Header.contractId h1) with
       | Some cid => str cid
       | None => str PUBLIC_CHAT_CONTRACT_ID
       end
  /\ (Header.connecting h = []
      \/ Forall (fun connected => exists e, connected = Throw e) settled ->
      Header.contractId h' = str PUBLIC_CHAT_CONTRACT_ID).
Proof.
  intros Hm h1 h'.
  destruct (logout_fields h) as (_ & Hnull & _ & _ & Hl & Hstores).
  destruct (Hstores Hm) as [Hk Hc].
  assert (Hm0 : mirrored (logout h))
    by exact (@mirrored_action _ unit h DoLogout Hm).
  destruct (walletsConnected_fields settled (logout h) Hm0)
    as ((_ & Hmc) & _ & _ & Hother1 & Hnone & Hthrow).
  fold h1 in Hmc, Hother1, Hnone, Hthrow.
  assert (Hssd : Header.localStorage h1 !! "ssd:keyId" = None).
  { rewrite Hother1 by discriminate. rewrite Hl by discriminate. reflexivity. }
  assert (Hk1 : Header.localStorage h1 !! "chat_key_id" = None).
  { rewrite Hother1 by discriminate. exact Hk. }
  set (ls := Header.localStorage h1) in *.
  set (ss := Header.sessionStorage h1) in *.
  destruct (pageLoad_fields ls ss) as (Ek & Ec & _ & Hother).
  assert (Hssd' : Header.localStorage (pageLoad ls ss) !! "ssd:keyId" = None).
  { rewrite Hother by discriminate. exact Hssd. }
  assert (Hsame : h' = pageLoad ls ss).
  { unfold h', header_onMount. now rewrite Hssd'. }
  unfold getItem in Ek, Ec. rewrite Hk1 in Ek. simpl in Ek.
  assert (Hconn : Header.connecting (pageLoad ls ss) = []).
  { unfold pageLoad, storeLoad. simpl. unfold getItem. rewrite Hk1. reflexivity. }
  assert (Hcid : Header.contractId (pageLoad ls ss)
                 = match storedFor (Header.contractId h1) with
                   | Some cid => str cid
                   | None => str PUBLIC_CHAT_CONTRACT_ID
                   end).
  { rewrite Ec, Hmc. unfold storedFor.
    destruct (Header.contractId h1) as [| |cid]; try reflexivity.
    destruct (truthyVal (str cid)) eqn:Ht; [now rewrite Ht|reflexivity]. }
  rewrite Hsame.
  split; [exact Ek|]. split; [exact Hconn|]. split; [exact Hssd'|].
  split; [|split; [exact Hcid|]].
  - rewrite Ek. unfold send. simpl. now rewrite orb_true_r.
  - intros Hquiet.
    assert (Hnothing : ls !! "chat_contract_id" = None).
    { destruct Hquiet as [Hpending|Hrejected].
      - unfold ls. rewrite Hnone by (now rewrite logout_connecting). exact Hc.
      - rewrite (Hthrow Hrejected). exact Hc. }
    rewrite Ec, Hnothing. reflexivity.
Qed.

(** X22: A failed [login] or [signUp] leaves the session as it was: the stores
    and both storages are unchanged, the error is shown and the busy flag is
    off.  [signUp] stores a key id only when the wallet was created and its
    transaction was accepted. *)
Theorem failed_login_or_signUp_keeps_session {Tx : Type} (h : Header.t) :
  (forall e,
      let h' := login (Throw e) h in
      Header.keyId h' = Header.keyId h /\ Header.contractId h' = Header.contractId h
      /\ Header.localStorage h' = Header.localStorage h
      /\ Header.sessionStorage h' = Header.sessionStorage h
      /\ Header.error h' = Some "Failed to login" /\ Header.loading h' = false)
  /\ (forall (created : completion (string * string * Tx)) server_send,
        (forall k cid tx u, created = Normal (k, cid, tx) -> server_send tx <> Normal u) ->
        let h' := signUp created server_send h in
        Header.keyId h' = Header.keyId h /\ Header.contractId h' = Header.contractId h
        /\ Header.localStorage h' = Header.localStorage h
        /\ Header.sessionStorage h' = Header.sessionStorage h
        /\ Header.error h' = Some "Failed to create account"
        /\ Header.creating h' = false).
Proof.
  split.
  - intros e h'. unfold h', login. simpl. auto 10.
  - intros created server_send Hfail h'. unfold h', signUp.
    destruct created as [[[k cid] tx]|e]; [|simpl; auto 10].
    destruct (server_send tx) as [u|e] eqn:Hsent; [|simpl; auto 10].
    exfalso. now apply (Hfail k cid tx u).
Qed.

End SessionFacts.

(** ** The contract *)

Lemma Contract_send_events (inv : Invocation) :
  default [] (Contract_send inv)
  = if decide (inv_addr inv ∈ authorizers inv)
    then [ {| topics := [inv_addr inv]; data := inv_msg inv |} ]
    else [].
Proof.
  unfold Contract_send, require_auth.
  destruct (decide (inv_addr inv ∈ authorizers inv)); reflexivity.
Qed.

(** X23: Every event on the ledger comes from an invocation whose [addr]
    authorized it, and carries that address as its only topic and the
    message as its data; an invocation that [addr] did not authorize leaves
    no event, and each other one leaves exactly one, in the order of the
    invocations. *)
Theorem contract_publishes_only_authorized (invocations : list Invocation) :
  (forall event, event ∈ ledgerEvents invocations ->
     exists inv, inv ∈ invocations
                 /\ inv_addr inv ∈ authorizers inv
                 /\ event = {| topics := [inv_addr inv]; data := inv_msg inv |})
  /\ ledgerEvents invocations
     = map (fun inv => {| topics := [inv_addr inv]; data := inv_msg inv |})
           (List.filter (fun inv => bool_decide (inv_addr inv ∈ authorizers inv))
                        invocations)
  /\ (forall before after inv,
        inv_addr inv ∉ authorizers inv ->
        Contract_send inv = None
        /\ ledgerEvents (before ++ inv :: after) = ledgerEvents (before ++ after)).
Proof.
  assert (Hmap : forall l, ledgerEvents l
     = map (fun inv => {| topics := [inv_addr inv]; data := inv_msg inv |})
           (List.filter (fun inv => bool_decide (inv_addr inv ∈ authorizers inv)) l)).
  { induction l as [|inv l IH]; [reflexivity|].
    unfold ledgerEvents in *. simpl. rewrite IH, Contract_send_events.
    destruct (decide (inv_addr inv ∈ authorizers inv)) as [Hin|Hout].
    - now rewrite bool_decide_eq_true_2.
    - now rewrite bool_decide_eq_false_2. }
  split; [|split; [apply Hmap|]].
  - intros event Hin. rewrite Hmap in Hin.
    apply list_elem_of_fmap in Hin as (inv & -> & Hinv).
    apply list_elem_of_In, filter_In in Hinv as [Hinv Hauth].
    exists inv. split; [now apply list_elem_of_In|].
    split; [now apply bool_decide_eq_true in Hauth|reflexivity].
  - intros before after inv Hout. split.
    + unfold Contract_send, require_auth.
      destruct (decide (inv_addr inv ∈ authorizers inv)); [contradiction|reflexivity].
    + rewrite !Hmap, !List.filter_app. simpl. now rewrite bool_decide_eq_false_2.
Qed.

(** ** The further properties at concrete inputs *)

Lemma malformed_event_ends_batch_witness :
  @skipped badEvent = false
  /\ @topic0_address badEvent = Throw "TypeError"
  /\ ids (@getEvents demoHost historical123 (LimitNumber 0) false
            (answering ([sampleEvent "4" "scAddressTypeAccount" "40" "d"]
                        ++ badEvent :: [sampleEvent "8" "scAddressTypeAccount" "80" "h"])))
     = ["1"; "2"; "3"; "4"].
Proof.
  destruct (@malformed_event_ends_batch demoHost historical123 (LimitNumber 0) false
              [sampleEvent "4" "scAddressTypeAccount" "40" "d"]
              [sampleEvent "8" "scAddressTypeAccount" "80" "h"]
              badEvent "TypeError" eq_refl eq_refl) as [Hends _].
  split; [reflexivity|]. split; [reflexivity|].
  rewrite Hends; [vm_compute; reflexivity|].
  apply (bool_decide_unpack _). vm_compute. exact I.
Defined.

Lemma first_event_of_an_id_wins_witness :
  sampleRecord "4" 40 "d"
  ∈ @getEvents demoHost historical123 (LimitNumber 0) false
      (answering ([systemEvent]
                  ++ sampleEvent "4" "scAddressTypeAccount" "40" "d"
                  :: [sampleEvent "4" "scAddressTypeContract" "99" "other"]))
  /\ forall other,
       other ∈ @getEvents demoHost historical123 (LimitNumber 0) false
                 (answering ([systemEvent]
                             ++ sampleEvent "4" "scAddressTypeAccount" "40" "d"
                             :: [sampleEvent "4" "scAddressTypeContract" "99" "other"])) ->
       id other = "4" -> other = sampleRecord "4" 40 "d".
Proof.
  assert (Hharmless : Forall (fun ev => @harmless demoHost ev = true) [systemEvent])
    by (repeat constructor).
  assert (Hothers : Forall (fun ev => @skipped ev = true
                                      \/ Api.id ev <> Api.id (sampleEvent "4" "scAddressTypeAccount" "40" "d"))
                           [systemEvent])
    by (repeat constructor; now left).
  assert (Hnew : Api.id (sampleEvent "4" "scAddressTypeAccount" "40" "d") ∉ ids historical123).
  { apply (bool_decide_unpack _). vm_compute. exact I. }
  destruct (@first_event_of_an_id_wins demoHost historical123 (LimitNumber 0) false
              [systemEvent] [sampleEvent "4" "scAddressTypeContract" "99" "other"]
              (sampleEvent "4" "scAddressTypeAccount" "40" "d")
              (sampleRecord "4" 40 "d") Hharmless Hothers Hnew eq_refl)
    as [Hin Honly].
  split; [exact Hin|]. exact (Honly NoDup_ids_historical123).
Defined.

Lemma merge_order_same_ids_witness :
  ids (@callGetEvents demoHost
         (@callGetEvents demoHost historical123 (LimitNumber 0) false (answering events34))
         (LimitNumber 0) false (answering [earlyEvent]))
  = ["0"; "1"; "2"; "3"; "4"]
  /\ NoDup
       (ids (@callGetEvents demoHost
               (@callGetEvents demoHost historical123 (LimitNumber 0) false (answering events34))
               (LimitNumber 0) false (answering [earlyEvent])))
  /\ NoDup
       (ids (@callGetEvents demoHost
               (@callGetEvents demoHost historical123 (LimitNumber 0) false (answering [earlyEvent]))
               (LimitNumber 0) false (answering events34)))
  /\ Permutation
       (ids (@callGetEvents demoHost
               (@callGetEvents demoHost historical123 (LimitNumber 0) false (answering events34))
               (LimitNumber 0) false (answering [earlyEvent])))
       (ids (@callGetEvents demoHost
               (@callGetEvents demoHost historical123 (LimitNumber 0) false (answering [earlyEvent]))
               (LimitNumber 0) false (answering events34))).
Proof.
  assert (H1 : Forall (fun ev => @harmless demoHost ev = true) events34)
    by (repeat constructor).
  assert (H2 : Forall (fun ev => @harmless demoHost ev = true) [earlyEvent])
    by (repeat constructor).
  destruct (@merge_order_same_ids demoHost historical123 (LimitNumber 0) false
              events34 [earlyEvent] H1 H2) as [_ Hperm].
  split; [vm_compute; reflexivity|]. exact (Hperm NoDup_ids_historical123).
Defined.

Lemma sender_shown_for_known_kinds_witness :
  exists record,
    @processEvent demoHost historical123 muxedEvent
    = Normal (historical123 ++ [record])%list
    /\ senderLabel record = Throw "TypeError".
Proof.
  assert (Hnew : Api.id muxedEvent ∉ ids historical123).
  { apply (bool_decide_unpack _). vm_compute. exact I. }
  destruct (@sender_shown_for_known_kinds demoHost historical123 muxedEvent
              {| switch_name := "scAddressTypeMuxedAccount";
                 arm := list_byte_of_string "ABC" |} []
              eq_refl Hnew eq_refl) as (record & Hp & Hthrow & _).
  exists record. split; [exact Hp|].
  apply Hthrow. split; discriminate.
Defined.

Lemma at_most_one_interval_witness :
  @run demoHost initial startInputs = Some (stateAfter startInputs)
  /\ (Welcome.timers (stateAfter startInputs) = []
      \/ exists h, Welcome.timers (stateAfter startInputs) = [h]
                   /\ Welcome.interval (stateAfter startInputs) = Some h
                   /\ h <> 0%nat
                   /\ Welcome.mount (stateAfter startInputs) = MountReturned).
Proof.
  assert (Hrun : @run demoHost initial startInputs = Some (stateAfter startInputs))
    by (vm_compute; reflexivity).
  split; [exact Hrun|].
  exact (@at_most_one_interval demoHost startInputs _ Hrun).
Defined.

Lemma loading_until_onMount_returns_witness :
  let inputs := [Mount; MessagesSettled (Normal "rows");
                 LatestLedgerSettled None (Normal 600000)] in
  let later := [EventsSettled None (answering events34); TimerFired 1; Destroy] in
  @run demoHost initial inputs = Some (stateAfter inputs)
  /\ Welcome.loading (stateAfter inputs) = true
  /\ Welcome.mount (stateAfter inputs) <> MountReturned
  /\ Welcome.interval (stateAfter inputs) = None
  /\ Welcome.timers (stateAfter inputs) = []
  /\ Welcome.ticks (stateAfter inputs) = []
  /\ @run demoHost initial (inputs ++ [EventsSettled None (answering events34)])
     = Some (stateAfter (inputs ++ [EventsSettled None (answering events34)]))
  /\ Welcome.loading (stateAfter (inputs ++ [EventsSettled None (answering events34)]))
     = false
  /\ Welcome.loading (stateAfter (inputs ++ later)) = false.
Proof.
  intros inputs later.
  assert (Hrun : @run demoHost initial inputs = Some (stateAfter inputs))
    by (vm_compute; reflexivity).
  assert (Hrun1 : @run demoHost initial (inputs ++ [EventsSettled None (answering events34)])
                  = Some (stateAfter (inputs ++ [EventsSettled None (answering events34)])))
    by (vm_compute; reflexivity).
  assert (Hrun2 : @run demoHost
                    (stateAfter (inputs ++ [EventsSettled None (answering events34)]))
                    [TimerFired 1; Destroy]
                  = Some (stateAfter (inputs ++ later)))
    by (vm_compute; reflexivity).
  destruct (@loading_until_onMount_returns demoHost inputs _ Hrun) as (Hload & Hon & _).
  destruct (@loading_until_onMount_returns demoHost _ _ Hrun1) as (_ & _ & Hstays).
  assert (Hl : Welcome.loading (stateAfter inputs) = true) by (vm_compute; reflexivity).
  assert (Hl1 : Welcome.loading
                  (stateAfter (inputs ++ [EventsSettled None (answering events34)])) = false)
    by (vm_compute; reflexivity).
  destruct (Hon Hl) as (Hint & Htm & Htk).
  split; [exact Hrun|]. split; [exact Hl|].
  split; [intros Hm; apply Hload in Hm; congruence|].
  split; [exact Hint|]. split; [exact Htm|]. split; [exact Htk|].
  split; [exact Hrun1|]. split; [exact Hl1|].
  exact (Hstays _ _ Hl1 Hrun2).
Defined.

Lemma first_ledger_failure_stops_polling_witness :
  let inputs := [Mount; MessagesSettled (Normal "rows")] in
  @run demoHost initial inputs = Some (stateAfter inputs)
  /\ Welcome.mount (stateAfter inputs) = AwaitLatestLedger
  /\ exists w',
       @step demoHost (stateAfter inputs) (LatestLedgerSettled None (Throw "RpcUnavailable"))
       = Some w'
       /\ Welcome.error w' = Some "Failed to load messages. Please try again later."
       /\ Welcome.loading w' = false
       /\ Welcome.msgs w' = Welcome.msgs (stateAfter inputs)
       /\ forall later w'',
            @run demoHost w' later = Some w'' ->
            Forall (fun i => isTimerFired i = false) later
            /\ Welcome.msgs w'' = Welcome.msgs (stateAfter inputs)
            /\ Welcome.interval w'' = None.
Proof.
  intros inputs.
  assert (Hrun : @run demoHost initial inputs = Some (stateAfter inputs))
    by (vm_compute; reflexivity).
  assert (Hm : Welcome.mount (stateAfter inputs) = AwaitLatestLedger)
    by (vm_compute; reflexivity).
  split; [exact Hrun|]. split; [exact Hm|].
  exact (@first_ledger_failure_stops_polling demoHost inputs _ "RpcUnavailable" Hrun Hm).
Defined.

Lemma interval_set_after_teardown_stays_witness :
  let w := stateAfter [Mount; Destroy; MessagesSettled (Normal "rows");
                       LatestLedgerSettled None (Normal 600000)] in
  Welcome.destroyed w = true
  /\ Welcome.mount w = AwaitEvents (LimitNumber 582720)
  /\ exists w' h,
       @step demoHost w (EventsSettled None (answering events34)) = Some w'
       /\ Welcome.interval w' = Some h
       /\ forall later w'',
            @run demoHost w' later = Some w'' ->
            Welcome.destroyed w'' = true
            /\ h ∈ Welcome.timers w''
            /\ @step demoHost w'' (TimerFired h) <> None.
Proof.
  intros w.
  assert (Hd : Welcome.destroyed w = true) by (vm_compute; reflexivity).
  assert (Hm : Welcome.mount w = AwaitEvents (LimitNumber 582720))
    by (vm_compute; reflexivity).
  split; [exact Hd|]. split; [exact Hm|].
  exact (@interval_set_after_teardown_stays demoHost w (LimitNumber 582720)
           (answering events34) Hd Hm).
Defined.

Lemma records_never_removed_witness :
  let w := stateAfter (firstn 2 startInputs) in
  let later := (skipn 2 startInputs
                ++ [TimerFired 1; LatestLedgerSettled (Some 0%nat) (Normal 600010);
                    EventsSettled (Some 0%nat) (answering [earlyEvent])])%list in
  seeded w
  /\ @run demoHost w later = Some (stateAfter (firstn 2 startInputs ++ later))
  /\ ids (Welcome.msgs w) = ["1"; "2"; "3"]
  /\ keptIn (Welcome.msgs w) (Welcome.msgs (stateAfter (firstn 2 startInputs ++ later))).
Proof.
  intros w later.
  assert (Hs : seeded w) by (split; vm_compute; discriminate).
  assert (Hrun : @run demoHost w later = Some (stateAfter (firstn 2 startInputs ++ later)))
    by (vm_compute; reflexivity).
  split; [exact Hs|]. split; [exact Hrun|]. split; [vm_compute; reflexivity|].
  exact (@records_never_removed demoHost later w _ Hs Hrun).
Defined.

Lemma demoHost_rows_distinct (body : string) (rows : list ChatEvent) :
  @processResponse demoHost body = Normal rows -> NoDup (ids rows).
Proof.
  simpl. destruct (body =? "")%string; [discriminate|].
  intros [= <-]. exact NoDup_ids_historical123.
Qed.

Lemma ids_distinct_in_every_state_witness :
  let inputs := (startInputs
                 ++ [TimerFired 1; LatestLedgerSettled (Some 0%nat) (Normal 600010);
                     EventsSettled (Some 0%nat) (answering (earlyEvent :: events34))])%list in
  (forall body rows, @processResponse demoHost body = Normal rows -> NoDup (ids rows))
  /\ @run demoHost initial inputs = Some (stateAfter inputs)
  /\ ids (Welcome.msgs (stateAfter inputs)) = ["0"; "1"; "2"; "3"; "4"]
  /\ NoDup (ids (Welcome.msgs (stateAfter inputs))).
Proof.
  intros inputs.
  assert (Hrun : @run demoHost initial inputs = Some (stateAfter inputs))
    by (vm_compute; reflexivity).
  split; [exact demoHost_rows_distinct|]. split; [exact Hrun|].
  split; [vm_compute; reflexivity|].
  exact (@ids_distinct_in_every_state demoHost inputs _ demoHost_rows_distinct Hrun).
Defined.

Lemma send_needs_login_and_text_witness :
  blank (String (ascii_of_nat 32) (String (ascii_of_nat 10) "")) = true
  /\ send demoServices (Some "CABC") (Some "key1")
       (draft (String (ascii_of_nat 32) (String (ascii_of_nat 10) "")))
     = (draft (String (ascii_of_nat 32) (String (ascii_of_nat 10) "")), [])
  /\ send demoServices (Some "CABC") None (draft "hi") = (draft "hi", []).
Proof.
  destruct (send_needs_login_and_text demoServices (Some "CABC") (Some "key1")
              (draft (String (ascii_of_nat 32) (String (ascii_of_nat 10) ""))))
    as [Hiff Hsame].
  destruct (send_needs_login_and_text demoServices (Some "CABC") None (draft "hi"))
    as [Hiff' Hsame'].
  assert (Hb : blank (String (ascii_of_nat 32) (String (ascii_of_nat 10) "")) = true)
    by reflexivity.
  split; [exact Hb|]. split.
  - apply injective_projections.
    + apply Hsame. apply Hiff. right. right. exact Hb.
    + apply Hiff. right. right. exact Hb.
  - apply injective_projections.
    + apply Hsame'. apply Hiff'. right. left. reflexivity.
    + apply Hiff'. right. left. reflexivity.
Defined.

Lemma send_outcome_witness :
  (Composer.sending (fst (send demoServices (Some "CABC") (Some "key1") (draft " hi "))) = false
   /\ Composer.msg (fst (send demoServices (Some "CABC") (Some "key1") (draft " hi "))) = ""
   /\ Composer.error (fst (send demoServices (Some "CABC") (Some "key1") (draft " hi "))) = None)
  /\ (Composer.sending (fst (send demoServices (Some "CABC") (Some "lost") (draft "hi"))) = false
      /\ Composer.msg (fst (send demoServices (Some "CABC") (Some "lost") (draft "hi"))) = "hi"
      /\ Composer.error (fst (send demoServices (Some "CABC") (Some "lost") (draft "hi")))
         = Some "Failed to send message. Please try again.").
Proof.
  destruct (send_outcome demoServices (Some "CABC") (Some "key1") (draft " hi ")
              eq_refl eq_refl eq_refl) as [Hoff [(_ & Hmsg & Herr)|(Hno & _)]].
  - destruct (send_outcome demoServices (Some "CABC") (Some "lost") (draft "hi")
                eq_refl eq_refl eq_refl) as [Hoff' [((a & s & u & Ha & Hs & _) & _)|(_ & Hmsg' & Herr')]].
    + exfalso. simpl in Ha, Hs. injection Ha as <-. discriminate Hs.
    + auto 10.
  - exfalso. apply Hno. exists "CABC: hi ", "signed:CABC: hi ", tt. auto.
Defined.

Lemma send_submits_only_signed_witness :
  In (Submit "signed:CABC: hi ")
     (snd (send demoServices (Some "CABC") (Some "key1") (draft " hi ")))
  /\ snd (send demoServices (Some "CABC") (Some "key1") (draft " hi "))
     = [Assemble "CABC" " hi "; Sign "CABC: hi " "key1"; Submit "signed:CABC: hi "].
Proof.
  assert (Hin : In (Submit "signed:CABC: hi ")
                   (snd (send demoServices (Some "CABC") (Some "key1") (draft " hi "))))
    by (simpl; auto).
  destruct (send_submits_only_signed demoServices (Some "CABC") (Some "key1") (draft " hi "))
    as [Hsub _].
  destruct (Hsub _ Hin) as (assembled & Ha & _ & Hcalls).
  split; [exact Hin|].
  simpl in Ha. injection Ha as <-. exact Hcalls.
Defined.

Lemma store_mirrored_in_storage_witness :
  let p := applySets keyIdModule true [str "key1"; str "key2"; null]
             (storeLoad keyIdModule true sampleStorage) in
  Persisted.value p = null
  /\ Persisted.localStorage p !! "chat_key_id" = None
  /\ Persisted.localStorage p !! "theme" = Some "dark"
  /\ Persisted.localStorage
       (applySets keyIdModule true [str "key1"; str "key2"]
          (storeLoad keyIdModule true sampleStorage)) !! "chat_key_id" = Some "key2".
Proof.
  intros p.
  destruct (store_mirrored_in_storage keyIdModule sampleStorage [str "key1"; str "key2"; null])
    as [Hkey Hother].
  destruct (store_mirrored_in_storage keyIdModule sampleStorage [str "key1"; str "key2"])
    as [Hkey2 _].
  assert (Hv : Persisted.value p = null) by reflexivity.
  split; [exact Hv|]. split; [|split].
  - unfold p. simpl STORAGE_KEY in Hkey. rewrite Hkey. fold p. now rewrite Hv.
  - unfold p. rewrite (Hother "theme") by discriminate. reflexivity.
  - simpl STORAGE_KEY in Hkey2. rewrite Hkey2. reflexivity.
Defined.

Lemma logout_clears_session_witness :
  let h := @login demoHost (Normal ("key1", "CABC")) (@pageLoad demoHost sampleStorage sampleStorage) in
  includes "myssd:draft" "ssd:" = true
  /\ includes "theme" "ssd:" = false
  /\ Header.localStorage h !! "myssd:draft" = Some "x"
  /\ Header.localStorage (@logout demoHost h) !! "myssd:draft" = None
  /\ Header.localStorage (@logout demoHost h) !! "ssd:keyId" = None
  /\ Header.sessionStorage (@logout demoHost h) !! "ssd:keyId" = None
  /\ Header.localStorage (@logout demoHost h) !! "theme" = Some "dark"
  /\ Header.sessionStorage (@logout demoHost h) !! "theme" = Some "dark"
  /\ Header.localStorage (@logout demoHost h) !! "chat_key_id" = None.
Proof.
  intros h.
  assert (Hm : mirrored h).
  { apply (@mirrored_action demoHost unit _ (DoLogin (Normal ("key1", "CABC")))).
    apply mirrored_pageLoad. }
  destruct (@logout_clears_session demoHost h) as (_ & _ & _ & Hin & Hout & Hstores).
  assert (H1 : includes "myssd:draft" "ssd:" = true) by (vm_compute; reflexivity).
  assert (H2 : includes "ssd:keyId" "ssd:" = true) by (vm_compute; reflexivity).
  assert (H3 : includes "theme" "ssd:" = false) by (vm_compute; reflexivity).
  destruct (Hout "theme" H3) as [Hss Hls].
  split; [exact H1|]. split; [exact H3|].
  split; [vm_compute; reflexivity|].
  split; [exact (proj1 (Hin _ H1))|]. split; [exact (proj1 (Hin _ H2))|].
  split; [exact (proj2 (Hin _ H2))|].
  split; [rewrite Hls by discriminate; vm_compute; reflexivity|].
  split; [rewrite Hss; vm_compute; reflexivity|].
  exact (proj1 (Hstores Hm)).
Defined.

Lemma login_survives_reload_witness :
  let h := @signUp demoHost string (Normal ("key1", "CABC", "wallet-tx"))
             (fun _ => Normal tt) (@pageLoad demoHost ∅ ∅) in
  Header.keyId h = str "key1"
  /\ Header.localStorage h !! "ssd:keyId" = Some "key1"
  /\ Header.keyId (header_onMount
                     (@pageLoad demoHost (Header.localStorage h) (Header.sessionStorage h)))
     = str "key1".
Proof.
  intros h.
  destruct (@login_survives_reload demoHost string (@pageLoad demoHost ∅ ∅) "key1" "CABC")
    as [_ Hsign].
  destruct (Hsign "wallet-tx" (fun _ => Normal tt) tt eq_refl)
    as (Hk & _ & Hl & _ & _ & Hreload).
  split; [exact Hk|]. split; [exact Hl|exact Hreload].
Defined.

Lemma logout_then_reload_logged_out_witness :
  let h := @login demoHost (Normal ("key1", "CABC")) (@pageLoad demoHost sampleStorage ∅) in
  let reload (settled : list (completion string)) :=
    let h1 := @walletsConnected demoHost settled (@logout demoHost h) in
    header_onMount
      (@pageLoad demoHost (Header.localStorage h1) (Header.sessionStorage h1)) in
  mirrored h
  /\ Header.keyId h = str "key1"
  /\ Header.connecting h = ["key1"]
  /\ Header.keyId (reload [Throw "NotAllowedError"]) = undefined
  /\ Header.contractId (reload [Throw "NotAllowedError"])
     = str "CBUMOJAEAPLQUCWVIM6HJH5XKXW5OP7CRVOOYMJYSTZ6GFDNA72O2QW6"
  /\ send demoServices (asOption (Header.contractId (reload [Throw "NotAllowedError"])))
       (asOption (Header.keyId (reload [Throw "NotAllowedError"]))) (draft "hi")
     = (draft "hi", [])
  /\ Header.keyId (reload [Normal "CABC"]) = undefined
  /\ Header.contractId (reload [Normal "CABC"]) = str "CABC"
  /\ send demoServices (asOption (Header.contractId (reload [Normal "CABC"])))
       (asOption (Header.keyId (reload [Normal "CABC"]))) (draft "hi")
     = (draft "hi", []).
Proof.
  intros h reload.
  assert (Hm : mirrored h).
  { apply (@mirrored_action demoHost unit _ (DoLogin (Normal ("key1", "CABC")))).
    apply mirrored_pageLoad. }
  assert (Hrejected : Forall (fun connected : completion string =>
                                exists e, connected = Throw e)
                        [Throw "NotAllowedError"]).
  { constructor; [now exists "NotAllowedError"|constructor]. }
  destruct (@logout_then_reload_logged_out demoHost string h [Throw "NotAllowedError"]
              demoServices (draft "hi") Hm)
    as (Hk & _ & _ & Hsend & _ & Hdefault).
  destruct (@logout_then_reload_logged_out demoHost string h [Normal "CABC"]
              demoServices (draft "hi") Hm)
    as (Hk' & _ & _ & Hsend' & Hcid & _).
  split; [exact Hm|]. split; [vm_compute; reflexivity|].
  split; [vm_compute; reflexivity|].
  split; [exact Hk|]. split; [exact (Hdefault (or_intror Hrejected))|].
  split; [exact Hsend|]. split; [exact Hk'|].
  split; [|exact Hsend'].
  unfold reload. rewrite Hcid. vm_compute. reflexivity.
Defined.

Lemma failed_login_or_signUp_keeps_session_witness :
  let h := @pageLoad demoHost sampleStorage ∅ in
  let h' := @signUp demoHost string (Normal ("key2", "CXYZ", "wallet-tx"))
              (fun _ => Throw "Launchtube") h in
  Header.keyId h' = Header.keyId h
  /\ Header.localStorage h' = Header.localStorage h
  /\ Header.error h' = Some "Failed to create account"
  /\ Header.error (@login demoHost (Throw "NotAllowedError") h) = Some "Failed to login".
Proof.
  intros h h'.
  destruct (@failed_login_or_signUp_keeps_session demoHost string h) as [Hlogin Hsign].
  destruct (Hlogin "NotAllowedError") as (_ & _ & _ & _ & He & _).
  destruct (Hsign (Normal ("key2", "CXYZ", "wallet-tx")) (fun _ => Throw "Launchtube"))
    as (Hk & _ & Hl & _ & He' & _).
  { intros k cid tx u _. discriminate. }
  split; [exact Hk|]. split; [exact Hl|]. split; [exact He'|exact He].
Defined.

Lemma contract_publishes_only_authorized_witness :
  (bob ∉ authorizers {| authorizers := [alice]; inv_addr := bob; inv_msg := "forged" |})
  /\ ledgerEvents sampleInvocations = [ {| topics := [alice]; data := "hello" |} ]
  /\ forall event, event ∈ ledgerEvents sampleInvocations ->
       exists inv, inv ∈ sampleInvocations
                   /\ inv_addr inv ∈ authorizers inv
                   /\ event = {| topics := [inv_addr inv]; data := inv_msg inv |}.
Proof.
  destruct (contract_publishes_only_authorized sampleInvocations) as (Hall & _ & _).
  destruct (contract_publishes_only_authorized []) as (_ & _ & Hdrop).
  assert (Hbob : bob ∉ authorizers {| authorizers := [alice]; inv_addr := bob;
                                      inv_msg := "forged" |}).
  { apply (bool_decide_unpack _). vm_compute. exact I. }
  split; [exact Hbob|]. split; [|exact Hall].
  destruct (Hdrop [ {| authorizers := [alice]; inv_addr := alice; inv_msg := "hello" |} ]
              [] {| authorizers := [alice]; inv_addr := bob; inv_msg := "forged" |} Hbob)
    as [_ Heq].
  change sampleInvocations
    with ([ {| authorizers := [alice]; inv_addr := alice; inv_msg := "hello" |} ]
          ++ {| authorizers := [alice]; inv_addr := bob; inv_msg := "forged" |} :: [])%list.
  rewrite Heq. vm_compute. reflexivity.
Defined.
